(** * Ownership badges and node-type metadata helpers of the n8n editor UI

    A shallow embedding of
    - the [script setup] block of the project badge component
      (ownership classification of a resource), and
    - [packages/frontend/editor-ui/src/utils/nodeTypesUtils.ts]
      (authentication fields, credential dependencies, resource-mapper
      fields),
    followed by the properties established about them.

    Conventions of the embedding:
    - a JavaScript string is the list of its UTF-16 code units;
    - a JavaScript object used as a record is a Rocq record; an optional
      property is an [option]; an object used as a dictionary is the list of
      its own entries in the order [Object.keys] enumerates them; a
      lookup or an [in] test on it also sees the members inherited from
      [Object.prototype];
    - objects that the code compares by identity carry their reference;
    - a call that can throw, or recurse without a bound, returns an
      [Outcome];
    - code that reads or writes the application stores is a function from a
      [World] to a result and a [World]. *)

From Stdlib Require Import String Ascii NArith ZArith DecimalString.
From stdpp Require Import gmap list.

(** ** JavaScript strings *)

(** A string value: the sequence of its UTF-16 code units. *)
Abbreviation jsstring := (list N).

(** The string written by a source literal whose characters are all below
    U+0100. *)
Fixpoint lit (s : string) : jsstring :=
  match s with
  | EmptyString => []
  | String a r => N_of_ascii a :: lit r
  end.

(** Code unit of the double-quote character. *)
Definition dquote : N := 34%N.

(** [a === b] on two strings. *)
Definition str_eqb (a b : jsstring) : bool := bool_decide (a = b).

(** [s.startsWith(p)], also used where a pattern literal must occur at the
    current position. *)
Fixpoint startsWith (p s : jsstring) : bool :=
  match p, s with
  | [], _ => true
  | _ :: _, [] => false
  | a :: p', b :: s' => if N.eqb a b then startsWith p' s' else false
  end.

(** [s.includes(p)]: [p] occurs in [s] at some position. *)
Fixpoint str_includes (p s : jsstring) : bool :=
  startsWith p s ||
  match s with
  | [] => false
  | _ :: s' => str_includes p s'
  end.

(** [s.endsWith(p)]. *)
Definition endsWith (p s : jsstring) : bool :=
  startsWith (rev p) (rev s).

(** ** The project badge component *)

(** Values of [ProjectTypes] and of the constants module that the sources
    import; their definitions are outside the files at hand, so they are
    parameters of the development. *)
Class Constants := {
  (** [ProjectTypes.Team] of [@/types/projects.types]. *)
  ProjectTypes_Team : jsstring;
  (** [MAIN_AUTH_FIELD_NAME] of [@/constants]. *)
  MAIN_AUTH_FIELD_NAME : jsstring
}.

(** The values these constants have in the n8n code base, for running the
    definitions on examples. *)
Definition n8n_constants : Constants :=
  {| ProjectTypes_Team := lit "team";
     MAIN_AUTH_FIELD_NAME := lit "authentication" |}.

Inductive ProjectState :=
  | SharedPersonal
  | SharedOwned
  | Owned
  | Personal
  | Team
  | SharedTeam
  | Unknown.

(** The parts of [Project] / [ProjectSharingData] the component reads. *)
Record Project := {
  project_id : jsstring;
  project_type : jsstring
}.

(** The [resource] prop.  [homeProject] is optional.  [sharedWithProjects]
    is [None] when the object has no such key (a folder resource),
    [Some None] when the key is there with value [undefined], and
    [Some (Some l)] when it holds the list [l]. *)
Record Resource := {
  homeProject : option Project;
  sharedWithProjects : option (option (list Project))
}.

(** What the [isShared] computed evaluates to: [false] when the key is
    absent, otherwise the value of [sharedWithProjects?.length]. *)
Inductive IsSharedValue :=
  | IsSharedFalse
  | IsSharedUndefined
  | IsSharedLength (n : nat).

(** [ToBoolean] on the values [isShared] can take. *)
Definition isShared_truthy (v : IsSharedValue) : bool :=
  match v with
  | IsSharedFalse => false
  | IsSharedUndefined => false
  | IsSharedLength n => negb (Nat.eqb n 0)
  end.

Definition isShared (resource : Resource) : IsSharedValue :=
  match sharedWithProjects resource with
  | None => IsSharedFalse
  | Some None => IsSharedUndefined
  | Some (Some l) => IsSharedLength (length l)
  end.

Section Badge.
Context `{Constants}.

(** The condition of the first [if] of [projectState]. *)
Definition isOwnHome (resource : Resource) (personalProject : option Project)
  : bool :=
  match homeProject resource with
  | Some home =>
      match personalProject with
      | Some personal => str_eqb (project_id home) (project_id personal)
      | None => false
      end
  | None => true
  end.

Definition projectState (resource : Resource)
    (personalProject : option Project) : ProjectState :=
  if isOwnHome resource personalProject then
    if isShared_truthy (isShared resource) then SharedOwned else Owned
  else if negb (match homeProject resource with
                | Some home => str_eqb (project_type home) ProjectTypes_Team
                | None => false
                end) then
    if isShared_truthy (isShared resource) then SharedPersonal else Personal
  else if match homeProject resource with
          | Some home => str_eqb (project_type home) ProjectTypes_Team
          | None => false
          end then
    if isShared_truthy (isShared resource) then SharedTeam else Team
  else Unknown.
End Badge.

(** The three states reported for a resource shared with other projects. *)
Definition isSharedState (s : ProjectState) : bool :=
  match s with
  | SharedOwned | SharedPersonal | SharedTeam => true
  | _ => false
  end.

(** The state with the same ownership and no sharing. *)
Definition unshared (s : ProjectState) : ProjectState :=
  match s with
  | SharedOwned => Owned
  | SharedPersonal => Personal
  | SharedTeam => Team
  | s => s
  end.

(** The resource with its [sharedWithProjects] key removed. *)
Definition withoutSharing (resource : Resource) : Resource :=
  {| homeProject := homeProject resource; sharedWithProjects := None |}.

(** ** JavaScript values and outcomes *)

(** The number type of the language.  The code compares numbers, tests them
    for truthiness and prints them, and does nothing else with them, so the
    development is parametric in these three operations. *)
Class JsNumber := {
  number : Type;
  (** [SameValueZero] on two numbers. *)
  number_sameValueZero : number -> number -> bool;
  (** [ToBoolean]: false for [0], [-0] and [NaN]. *)
  number_truthy : number -> bool;
  (** [Number.prototype.toString]. *)
  number_toString : number -> jsstring
}.

(** Integer-valued numbers, for running the definitions on examples. *)
Definition Z_number : JsNumber :=
  {| number := Z;
     number_sameValueZero := Z.eqb;
     number_truthy := fun z => negb (Z.eqb z 0);
     number_toString := fun z => lit (NilZero.string_of_int (Z.to_int z)) |}.

(** The result of running code that may throw or recurse: the value it
    returns, a [TypeError], or no result within the given number of nested
    calls. *)
Inductive Outcome (A : Type) :=
  | Returns (a : A)
  | Throws
  | OutOfFuel.
Arguments Returns {A} a.
Arguments Throws {A}.
Arguments OutOfFuel {A}.

Definition obind {A B} (m : Outcome A) (k : A -> Outcome B) : Outcome B :=
  match m with
  | Returns a => k a
  | Throws => Throws
  | OutOfFuel => OutOfFuel
  end.

Notation "x <- m ;;; k" := (obind m (fun x => k))
  (at level 100, m at next level, right associativity).

(** [l.forEach(f)]: the values [f] returns are dropped; an exception ends
    the loop. *)
Fixpoint forEach {A B} (l : list A) (f : A -> Outcome B) : Outcome unit :=
  match l with
  | [] => Returns tt
  | x :: l' => _ <- f x ;;; forEach l' f
  end.

(** A loop whose body updates a local variable [acc] and may throw. *)
Fixpoint foldO {A B} (f : B -> A -> Outcome B) (acc : B) (l : list A)
    : Outcome B :=
  match l with
  | [] => Returns acc
  | x :: l' => acc' <- f acc x ;;; foldO f acc' l'
  end.

(** [l.find(f)] for a callback that may throw. *)
Fixpoint findM {A} (f : A -> Outcome bool) (l : list A) : Outcome (option A) :=
  match l with
  | [] => Returns None
  | x :: l' => b <- f x ;;; if b then Returns (Some x) else findM f l'
  end.

Section NodeTypes.
Context `{JsNumber} `{Constants}.

(** The values found in display options and in the [value] of an option:
    [NodeParameterValue] (string, number, boolean, undefined, null) and
    [DisplayCondition] objects, the latter known by their reference. *)
Inductive JsValue :=
  | VUndefined
  | VNull
  | VBoolean (b : bool)
  | VNumber (n : number)
  | VString (s : jsstring)
  | VObject (ref : nat).

(** [ToBoolean]. *)
Definition truthy (v : JsValue) : bool :=
  match v with
  | VUndefined | VNull => false
  | VBoolean b => b
  | VNumber n => number_truthy n
  | VString s => negb (str_eqb s [])
  | VObject _ => true
  end.

(** [ToString], which is also what [toString()] gives on the values that
    have the method. *)
Definition ToString (v : JsValue) : jsstring :=
  match v with
  | VUndefined => lit "undefined"
  | VNull => lit "null"
  | VBoolean true => lit "true"
  | VBoolean false => lit "false"
  | VNumber n => number_toString n
  | VString s => s
  | VObject _ => lit "[object Object]"
  end.

(** [SameValueZero], the comparison of [Array.prototype.includes]. *)
Definition sameValueZero (a b : JsValue) : bool :=
  match a, b with
  | VUndefined, VUndefined => true
  | VNull, VNull => true
  | VBoolean x, VBoolean y => Bool.eqb x y
  | VNumber x, VNumber y => number_sameValueZero x y
  | VString x, VString y => str_eqb x y
  | VObject x, VObject y => Nat.eqb x y
  | _, _ => false
  end.

(** [l.includes(x)]. *)
Definition includes (x : JsValue) (l : list JsValue) : bool :=
  existsb (fun y => sameValueZero y x) l.

(** [l.includes(s)] on an array of strings. *)
Definition includes_str (s : jsstring) (l : list jsstring) : bool :=
  existsb (fun y => str_eqb y s) l.

(** The object under [displayOptions.show]: its entries in key order; the
    value of a key may be [undefined]. *)
Definition DisplayDict : Type := list (jsstring * option (list JsValue)).

(** [Object.keys(d)], which is also the order of [for (k in d)]. *)
Definition keys (d : DisplayDict) : list jsstring := map fst d.

(** The names of the members that every plain object inherits from
    [Object.prototype]; each of them is a function, or, for [__proto__],
    the prototype object itself: a truthy value that is not an array and
    has neither [concat] nor [includes]. *)
Definition objectPrototypeMembers : list jsstring :=
  [lit "constructor"; lit "__defineGetter__"; lit "__defineSetter__";
   lit "hasOwnProperty"; lit "__lookupGetter__"; lit "__lookupSetter__";
   lit "isPrototypeOf"; lit "propertyIsEnumerable"; lit "toString";
   lit "valueOf"; lit "__proto__"; lit "toLocaleString"].

(** [k] names an inherited member of a plain object. *)
Definition isInherited (k : jsstring) : bool :=
  includes_str k objectPrototypeMembers.

(** [Object.hasOwn(d, k)]: [k] is a key of [d] itself. *)
Definition dict_has_own (d : DisplayDict) (k : jsstring) : bool :=
  existsb (fun e => str_eqb (fst e) k) d.

(** [k in d]: [k] is a key of [d] itself or names an inherited member. *)
Definition dict_has (d : DisplayDict) (k : jsstring) : bool :=
  dict_has_own d k || isInherited k.

(** The value of the own property [k] of [d]; [None] stands for
    [undefined], whether [d] has no such key or the key holds
    [undefined].  This is [d[k]] for every [k] that names no inherited
    member, and for every key of [d]. *)
Fixpoint dict_get (d : DisplayDict) (k : jsstring) : option (list JsValue) :=
  match d with
  | [] => None
  | (k', v) :: d' => if str_eqb k' k then v else dict_get d' k
  end.

Record IDisplayOptions := {
  show : option DisplayDict
}.

(** A member of [INodeProperties.options].  [option_value] is [None] when
    the object has no [value] key, as for a nested property or a
    collection. *)
Record INodePropertyOptions := {
  option_name : jsstring;
  option_value : option JsValue
}.

(** A member of [INodeProperties.modes], of which the helpers read the
    name. *)
Record INodePropertyMode := {
  mode_name : jsstring
}.

(** The parts of [INodeProperties] the helpers read, and the identity of
    the object; [required], [noDataExpression] and [modes] are optional. *)
Record INodeProperties := {
  prop_ref : nat;
  prop_name : jsstring;
  prop_displayOptions : option IDisplayOptions;
  prop_options : option (list INodePropertyOptions);
  prop_required : option bool;
  prop_noDataExpression : option bool;
  prop_modes : option (list INodePropertyMode)
}.

Record INodeCredentialDescription := {
  cred_name : jsstring;
  cred_displayOptions : option IDisplayOptions
}.

Record INodeTypeDescription := {
  nt_credentials : option (list INodeCredentialDescription);
  nt_properties : list INodeProperties
}.

(** [x.displayOptions?.show]. *)
Definition show_of (d : option IDisplayOptions) : option DisplayDict :=
  match d with
  | Some d => show d
  | None => None
  end.

(** [authFields.includes(nodeField)]: objects are equal when they are the
    same object. *)
Definition includes_ref (authFields : list INodeProperties)
    (nodeField : INodeProperties) : bool :=
  existsb (fun f => Nat.eqb (prop_ref f) (prop_ref nodeField)) authFields.

Definition isNodeFieldMatchingNodeVersion (nodeField : INodeProperties)
    (nodeVersion : option number) : bool :=
  match nodeVersion with
  | Some v =>
      if number_truthy v then
        match dict_get (default [] (show_of (prop_displayOptions nodeField)))
                (lit "@version") with
        | Some versions => includes (VNumber v) versions
        | None => true
        end
      else true
  | None => true
  end.

Definition getNodeAuthFields (nodeType : option INodeTypeDescription)
    (nodeVersion : option number) : list INodeProperties :=
  match nodeType with
  | Some nodeType =>
      match nt_credentials nodeType with
      | Some credentials =>
          if Nat.ltb 0 (length credentials) then
            foldl (fun authFields cred =>
              match show_of (cred_displayOptions cred) with
              | Some sh =>
                  foldl (fun authFields option =>
                    let nodeFieldsForName :=
                      List.filter (fun prop => str_eqb (prop_name prop) option)
                        (nt_properties nodeType) in
                    foldl (fun authFields nodeField =>
                      if negb (includes_ref authFields nodeField) &&
                         isNodeFieldMatchingNodeVersion nodeField nodeVersion
                      then authFields ++ [nodeField]
                      else authFields)
                    authFields nodeFieldsForName)
                  authFields (keys sh)
              | None => authFields
              end) [] credentials
          else []
      | None => []
      end
  | None => []
  end.

(** The recursion of the source is bounded by [fuel] nested calls. *)
Fixpoint isNodeParameterRequired (fuel : nat)
    (nodeType : INodeTypeDescription) (parameter : INodeProperties)
    : Outcome bool :=
  match fuel with
  | 0 => OutOfFuel
  | S fuel' =>
      match show_of (prop_displayOptions parameter) with
      | None => Returns true
      | Some sh =>
          _ <- forEach (keys sh) (fun name =>
                 let relatedField :=
                   List.find (fun prop =>
                     (* the callback evaluates the comparison and returns
                        nothing *)
                     let _ := str_eqb (prop_name prop) name in
                     truthy VUndefined) (nt_properties nodeType) in
                 match relatedField with
                 | Some relatedField =>
                     r <- isNodeParameterRequired fuel' nodeType relatedField ;;;
                     if negb r then Returns false else Returns true
                 | None => Returns true
                 end) ;;;
          Returns true
      end
  end.

(** The body of the [for (const fieldName in cred.displayOptions.show)]
    loop.  [deps] holds the own properties of the object
    [dependentAuthFieldValues], which was created as [{}].  Reading
    [dependentAuthFieldValues[fieldName]] gives the own property when
    there is one; otherwise, for a name inherited from [Object.prototype],
    it gives the inherited member, which is truthy and has no [concat], so
    that the call of [concat] throws; otherwise it gives [undefined], and
    the empty array is used. *)
Definition addDependentValues (sh : DisplayDict)
    (deps : gmap jsstring (list jsstring)) (fieldName : jsstring)
    : Outcome (gmap jsstring (list jsstring)) :=
  match deps !! fieldName with
  | Some current =>
      Returns (<[fieldName :=
                   current ++
                   map (fun val => if truthy val then ToString val else [])
                       (default [] (dict_get sh fieldName))]> deps)
  | None =>
      if isInherited fieldName then Throws
      else
        Returns (<[fieldName :=
                     [] ++
                     map (fun val => if truthy val then ToString val else [])
                         (default [] (dict_get sh fieldName))]> deps)
  end.

(** The local [dependentAuthFieldValues] of [findAlternativeAuthField]
    after the loop over the credentials, when the loop does not throw. *)
Definition dependentAuthFieldValues (nodeType : INodeTypeDescription)
    : Outcome (gmap jsstring (list jsstring)) :=
  foldO (fun deps cred =>
    match show_of (cred_displayOptions cred) with
    | Some sh => foldO (addDependentValues sh) deps (keys sh)
    | None => Returns deps
    end) ∅ (default [] (nt_credentials nodeType)).

(** The body of the [field.options?.forEach] of
    [findAlternativeAuthField]: the value of [required] after the loop.
    [dependentAuthFieldValues[field.name]] without an own property is
    [undefined] or an inherited member, neither of which has [includes]:
    the call throws. *)
Fixpoint allOptionsUsed (deps : gmap jsstring (list jsstring))
    (field : INodeProperties) (options : list INodePropertyOptions)
    (required : bool) : Outcome bool :=
  match options with
  | [] => Returns required
  | option :: options' =>
      match option_value option with
      | Some (VString value) =>
          match deps !! prop_name field with
          | Some values =>
              allOptionsUsed deps field options'
                (if negb (includes_str value values) then false else required)
          | None => Throws
          end
      | _ => allOptionsUsed deps field options' required
      end
  end.

Definition findAlternativeAuthField (nodeType : INodeTypeDescription)
    (fields : list INodeProperties) : Outcome (option INodeProperties) :=
  deps <- dependentAuthFieldValues nodeType ;;;
  findM (fun field =>
           allOptionsUsed deps field (default [] (prop_options field)) true)
        fields.

(** The callback of the first [find] of [getMainAuthField]. *)
Definition isAuthenticationField (prop : INodeProperties) : bool :=
  str_eqb (prop_name prop) MAIN_AUTH_FIELD_NAME &&
  negb (match prop_options prop with
        | Some options =>
            match List.find (fun option =>
                    match option_value option with
                    | Some (VString s) => str_eqb s (lit "none")
                    | _ => false
                    end) options with
            | Some _ => true
            | None => false
            end
        | None => false
        end).

Definition getMainAuthField (fuel : nat)
    (nodeType : option INodeTypeDescription)
    : Outcome (option INodeProperties) :=
  match nodeType with
  | None => Returns None
  | Some nodeType =>
      let credentialDependencies := getNodeAuthFields (Some nodeType) None in
      let authenticationField :=
        List.find isAuthenticationField credentialDependencies in
      mainAuthFiled <-
        match authenticationField with
        | Some f => Returns (Some f)
        | None => findAlternativeAuthField nodeType credentialDependencies
        end ;;;
      isFieldRequired <-
        match mainAuthFiled with
        | Some f => isNodeParameterRequired fuel nodeType f
        | None => Returns false
        end ;;;
      Returns (match mainAuthFiled with
               | Some f => if isFieldRequired then Some f else None
               | None => None
               end)
  end.

Definition getAllNodeCredentialForAuthType
    (nodeType : option INodeTypeDescription) (authType : jsstring)
    : list INodeCredentialDescription :=
  match nodeType with
  | Some nodeType =>
      match nt_credentials nodeType with
      | Some credentials =>
          List.filter (fun cred =>
            match show_of (cred_displayOptions cred) with
            | Some sh => dict_has sh authType
            | None => false
            end) credentials
      | None => []
      end
  | None => []
  end.

(** The callback of the [find] of [getNodeCredentialForSelectedAuthType]:
    [cred.displayOptions?.show?.[authFieldName]?.includes(authType)].
    When [show] has no own property of that name and the name is an
    inherited one, the member found has no [includes] and the call
    throws. *)
Definition credentialShownFor (authFieldName authType : jsstring)
    (cred : INodeCredentialDescription) : Outcome bool :=
  match show_of (cred_displayOptions cred) with
  | Some sh =>
      match dict_get sh authFieldName with
      | Some values => Returns (includes (VString authType) values)
      | None =>
          if negb (dict_has_own sh authFieldName) && isInherited authFieldName
          then Throws
          else Returns false
      end
  | None => Returns false
  end.

Definition getNodeCredentialForSelectedAuthType (fuel : nat)
    (nodeType : INodeTypeDescription) (authType : jsstring)
    : Outcome (option INodeCredentialDescription) :=
  authField <- getMainAuthField fuel (Some nodeType) ;;;
  let authFieldName :=
    match authField with
    | Some f => prop_name f
    | None => []
    end in
  match nt_credentials nodeType with
  | Some credentials =>
      findM (credentialShownFor authFieldName authType) credentials
  | None => Returns None
  end.

Definition getCredentialsRelatedFields
    (nodeType : option INodeTypeDescription)
    (credentialType : option INodeCredentialDescription)
    : list INodeProperties :=
  match nodeType, credentialType with
  | Some nodeType, Some credentialType =>
      match show_of (cred_displayOptions credentialType) with
      | Some sh =>
          foldl (fun fields option =>
                   fields ++
                   List.filter (fun prop => str_eqb (prop_name prop) option)
                     (nt_properties nodeType))
                [] (keys sh)
      | None => []
      end
  | _, _ => []
  end.

(** [k] is a key of the [displayOptions.show] of one of the credentials of
    the node type. *)
Definition isCredentialDependency (nodeType : INodeTypeDescription)
    (k : jsstring) : Prop :=
  exists credentials cred sh,
    nt_credentials nodeType = Some credentials /\
    In cred credentials /\
    show_of (cred_displayOptions cred) = Some sh /\
    In k (keys sh).

(** What holds of the accumulator [authFields] of [getNodeAuthFields]
    throughout its loops. *)
Definition authFieldsInvariant (nodeType : INodeTypeDescription)
    (nodeVersion : option number) (authFields : list INodeProperties)
    : Prop :=
  (forall f, In f authFields ->
     In f (nt_properties nodeType) /\
     isCredentialDependency nodeType (prop_name f) /\
     isNodeFieldMatchingNodeVersion f nodeVersion = true) /\
  NoDup (map prop_ref authFields).

(** The [displayOptions.show] of [cred] has an entry for [authFieldName]
    that contains the string [authType]. *)
Definition showsAuthType (authFieldName authType : jsstring)
    (cred : INodeCredentialDescription) : Prop :=
  exists d sh values,
    cred_displayOptions cred = Some d /\
    show d = Some sh /\
    dict_get sh authFieldName = Some values /\
    In (VString authType) values.
End NodeTypes.

(** [r] is the first element of [l] that satisfies [P], or nothing when no
    element does. *)
Definition firstSuch {A} (P : A -> Prop) (l : list A) (r : option A) : Prop :=
  match r with
  | Some x =>
      exists l1 l2, l = l1 ++ x :: l2 /\ P x /\ Forall (fun y => ~ P y) l1
  | None => Forall (fun y => ~ P y) l
  end.

(** ** The application stores *)

(** [ICredentialType], of which the helpers read one optional property. *)
Record ICredentialType := {
  overwrittenProperties : option (list jsstring)
}.

Section Interface.
Context `{JsNumber}.

Record NodeAuthenticationOption := {
  nao_name : jsstring;
  nao_value : jsstring;
  nao_displayOptions : option IDisplayOptions
}.

(** The parts of [INodeUi] that the helpers read; [disabled] is
    optional. *)
Record INodeUi := {
  node_name : jsstring;
  node_type : jsstring;
  node_typeVersion : number;
  node_parameters : gmap jsstring JsValue;
  node_disabled : option bool
}.

(** The argument of [updateNodeProperties]:
    [{ name, properties: { parameters } }]. *)
Record INodeUpdatePropertiesInformation := {
  update_name : jsstring;
  update_parameters : gmap jsstring JsValue
}.
End Interface.

(** The locale and the three stores the helpers reach through
    [locale], [useCredentialsStore], [useNodeTypesStore] and
    [useWorkflowsStore].  Their code is outside the files at hand: each is
    a state of some type, with the operations the helpers call on it.  The
    three getters are reads. *)
Class Stores `{JsNumber} := {
  Locale : Type;
  CredentialsStore : Type;
  NodeTypesStore : Type;
  WorkflowsStore : Type;
  baseText : Locale -> jsstring -> jsstring;
  getCredentialTypeByName :
    CredentialsStore -> jsstring -> option ICredentialType;
  getNodeType :
    NodeTypesStore -> jsstring -> number -> option INodeTypeDescription;
  updateNodeProperties :
    WorkflowsStore -> INodeUpdatePropertiesInformation -> WorkflowsStore
}.

Section Effects.
Context `{JsNumber} `{Constants} `{!Stores}.

(** The application state. *)
Record World := {
  locale : Locale;
  credentialsStore : CredentialsStore;
  nodeTypesStore : NodeTypesStore;
  workflowsStore : WorkflowsStore
}.

(** Code that runs in the application state. *)
Definition Eff (A : Type) : Type := World -> Outcome A * World.

Definition eret {A} (a : A) : Eff A := fun w => (Returns a, w).

Definition ebind {A B} (m : Eff A) (k : A -> Eff B) : Eff B :=
  fun w =>
    match m w with
    | (Returns a, w') => k a w'
    | (Throws, w') => (Throws, w')
    | (OutOfFuel, w') => (OutOfFuel, w')
    end.

(** Code that does not touch the state. *)
Definition lift {A} (m : Outcome A) : Eff A := fun w => (m, w).

Notation "x <~ m ;; k" := (ebind m (fun x => k))
  (at level 100, m at next level, right associativity).

(** [l.map(f)] for a callback that runs in the state. *)
Fixpoint mapE {A B} (f : A -> Eff B) (l : list A) : Eff (list B) :=
  match l with
  | [] => eret []
  | x :: l' => y <~ f x ;; ys <~ mapE f l' ;; eret (y :: ys)
  end.

(** A [forEach] whose callback updates a local variable [acc]. *)
Fixpoint foldE {A B} (f : B -> A -> Eff B) (acc : B) (l : list A) : Eff B :=
  match l with
  | [] => eret acc
  | x :: l' => acc' <~ f acc x ;; foldE f acc' l'
  end.

(** [locale.baseText(key)]. *)
Definition locale_baseText (key : jsstring) : Eff jsstring :=
  fun w => (Returns (baseText (locale w) key), w).

(** [useCredentialsStore().getCredentialTypeByName(name)]. *)
Definition credentials_getCredentialTypeByName (name : jsstring)
    : Eff (option ICredentialType) :=
  fun w => (Returns (getCredentialTypeByName (credentialsStore w) name), w).

(** [useNodeTypesStore().getNodeType(type, version)]. *)
Definition nodeTypes_getNodeType (type : jsstring) (version : number)
    : Eff (option INodeTypeDescription) :=
  fun w => (Returns (getNodeType (nodeTypesStore w) type version), w).

(** [useWorkflowsStore().updateNodeProperties(updateInformation)]. *)
Definition workflows_updateNodeProperties
    (updateInformation : INodeUpdatePropertiesInformation) : Eff unit :=
  fun w =>
    (Returns tt,
     {| locale := locale w;
        credentialsStore := credentialsStore w;
        nodeTypesStore := nodeTypesStore w;
        workflowsStore :=
          updateNodeProperties (workflowsStore w) updateInformation |}).

(** The message key that [getNodeAuthOptions] looks up. *)
Definition recommendedAuthTypeSuffixKey : jsstring :=
  lit "credentialEdit.credentialConfig.recommendedAuthTypeSuffix".

(** The loop that moves the recommended options to the front: [n] more
    indices to visit, starting at [i]; an item holding the suffix is
    removed by [splice(i, 1)] and put back by [unshift]. *)
Fixpoint moveRecommended (recommendedSuffix : jsstring) (n i : nat)
    (options : list NodeAuthenticationOption)
    : list NodeAuthenticationOption :=
  match n with
  | 0 => options
  | S n' =>
      match options !! i with
      | Some item =>
          moveRecommended recommendedSuffix n' (S i)
            (if str_includes recommendedSuffix (nao_name item)
             then item :: delete i options
             else options)
      | None => moveRecommended recommendedSuffix n' (S i) options
      end
  end.

(** The callback of [field.options.map] in [getNodeAuthOptions]. *)
Definition authOptionOf (fuel : nat) (nodeType : INodeTypeDescription)
    (recommendedSuffix : jsstring) (field : INodeProperties)
    (option : INodePropertyOptions) : Eff NodeAuthenticationOption :=
  let optionValue :=
    match option_value option with
    | Some v => ToString v
    | None => []
    end in
  cred <~ lift (getNodeCredentialForSelectedAuthType fuel nodeType
                  optionValue) ;;
  hasOverrides <~
    match cred with
    | Some cred =>
        credentialType <~
          credentials_getCredentialTypeByName (cred_name cred) ;;
        eret (match credentialType with
              | Some t =>
                  match overwrittenProperties t with
                  | Some _ => true
                  | None => false
                  end
              | None => false
              end)
    | None => eret false
    end ;;
  eret {| nao_name :=
            if hasOverrides &&
               negb (endsWith recommendedSuffix (option_name option))
            then option_name option ++ lit " " ++ recommendedSuffix
            else option_name option;
          nao_value := optionValue;
          nao_displayOptions := prop_displayOptions field |}.

Definition getNodeAuthOptions (fuel : nat)
    (nodeType : option INodeTypeDescription) (nodeVersion : option number)
    : Eff (list NodeAuthenticationOption) :=
  match nodeType with
  | None => eret []
  | Some nodeType =>
      recommendedSuffix <~ locale_baseText recommendedAuthTypeSuffixKey ;;
      authProp <~ lift (getMainAuthField fuel (Some nodeType)) ;;
      let authProps :=
        List.filter (fun prop =>
            match authProp with
            | Some authProp => str_eqb (prop_name prop) (prop_name authProp)
            | None => false
            end)
          (getNodeAuthFields (Some nodeType) nodeVersion) in
      options <~
        foldE (fun options field =>
                 match prop_options field with
                 | Some fieldOptions =>
                     mapped <~
                       mapE (authOptionOf fuel nodeType recommendedSuffix
                               field) fieldOptions ;;
                     eret (options ++ mapped)
                 | None => eret options
                 end) [] authProps ;;
      eret (moveRecommended recommendedSuffix (length options) 0 options)
  end.

Definition getAuthTypeForNodeCredential (fuel : nat)
    (nodeType : option INodeTypeDescription)
    (credentialType : option INodeCredentialDescription)
    : Eff (option NodeAuthenticationOption) :=
  match nodeType, credentialType with
  | Some nodeType, Some credentialType =>
      authField <~ lift (getMainAuthField fuel (Some nodeType)) ;;
      let authFieldName :=
        match authField with
        | Some f => prop_name f
        | None => []
        end in
      nodeAuthOptions <~ getNodeAuthOptions fuel (Some nodeType) None ;;
      lift (findM (fun option =>
              credentialShownFor authFieldName (nao_value option)
                credentialType) nodeAuthOptions)
  | _, _ => eret None
  end.

Definition updateNodeAuthType (fuel : nat) (node : option INodeUi)
    (type : jsstring) : Eff unit :=
  match node with
  | None => eret tt
  | Some node =>
      nodeType <~
        nodeTypes_getNodeType (node_type node) (node_typeVersion node) ;;
      match nodeType with
      | Some nodeType =>
          nodeAuthField <~ lift (getMainAuthField fuel (Some nodeType)) ;;
          match nodeAuthField with
          | Some nodeAuthField =>
              workflows_updateNodeProperties
                {| update_name := node_name node;
                   update_parameters :=
                     <[prop_name nodeAuthField := VString type]>
                       (node_parameters node) |}
          | None => eret tt
          end
      | None => eret tt
      end
  end.

(** A call is pure when its result is the same in every state and it
    leaves the state as it found it. *)
Definition pure_call {A} (m : Eff A) : Prop :=
  forall w1 w2 : World, fst (m w1) = fst (m w2) /\ snd (m w1) = w1.

(** Two states agree on the text of the recommended suffix and on the
    credential type found under every name. *)
Definition sameReads (w1 w2 : World) : Prop :=
  baseText (locale w1) recommendedAuthTypeSuffixKey =
  baseText (locale w2) recommendedAuthTypeSuffixKey /\
  forall name,
    getCredentialTypeByName (credentialsStore w1) name =
    getCredentialTypeByName (credentialsStore w2) name.

(** A call leaves the state as it found it, and its result is the same in
    two states that agree on these reads. *)
Definition readsOnly {A} (m : Eff A) : Prop :=
  (forall w, snd (m w) = w) /\
  (forall w1 w2, sameReads w1 w2 -> fst (m w1) = fst (m w2)).
End Effects.

(** Stores for running the definitions on examples: each store is a finite
    map, a message without a translation reads as its key, the node types
    are found by name, and the workflows store keeps the updates it
    received, latest first. *)
Definition example_stores : @Stores Z_number :=
  {| Locale := gmap jsstring jsstring;
     CredentialsStore := gmap jsstring ICredentialType;
     NodeTypesStore := gmap jsstring (@INodeTypeDescription Z_number);
     WorkflowsStore := list (@INodeUpdatePropertiesInformation Z_number);
     baseText := fun l key => default key (l !! key);
     getCredentialTypeByName := fun s name => s !! name;
     getNodeType := fun s type _ => s !! type;
     updateNodeProperties := fun s updateInformation => updateInformation :: s |}.


(** ** Resource-mapper fields *)

(** The properties of [ResourceMapperField] that the staleness check reads;
    [canBeUsedToMatch] and [type] are optional. *)
Record ResourceMapperField := {
  rmf_id : jsstring;
  rmf_displayName : jsstring;
  rmf_required : bool;
  rmf_defaultMatch : bool;
  rmf_display : bool;
  rmf_canBeUsedToMatch : option bool;
  rmf_type : option jsstring
}.

(** [new Map(newFields.map((field) => [field.id, field]))]: entries are
    set in order, a later entry replacing an earlier one with the same key. *)
Definition newFieldsMap (newFields : list ResourceMapperField)
    : gmap jsstring ResourceMapperField :=
  foldl (fun (m : gmap jsstring ResourceMapperField) field =>
           <[rmf_id field := field]> m) ∅ newFields.

(** The condition under which two fields count as changed. *)
Definition propertiesChanged (oldField newField : ResourceMapperField) : bool :=
  negb (str_eqb (rmf_displayName oldField) (rmf_displayName newField)) ||
  negb (Bool.eqb (rmf_required oldField) (rmf_required newField)) ||
  negb (Bool.eqb (rmf_defaultMatch oldField) (rmf_defaultMatch newField)) ||
  negb (Bool.eqb (rmf_display oldField) (rmf_display newField)) ||
  negb (bool_decide (rmf_canBeUsedToMatch oldField =
                     rmf_canBeUsedToMatch newField)) ||
  negb (bool_decide (rmf_type oldField = rmf_type newField)).

(** The [for (const oldField of oldFields)] loop. *)
Fixpoint anyRemovedOrModified (m : gmap jsstring ResourceMapperField)
    (oldFields : list ResourceMapperField) : bool :=
  match oldFields with
  | [] => false
  | oldField :: rest =>
      match m !! rmf_id oldField with
      | None => true
      | Some newField =>
          if propertiesChanged oldField newField then true
          else anyRemovedOrModified m rest
      end
  end.

Definition isResourceMapperFieldListStale
    (oldFields newFields : list ResourceMapperField) : bool :=
  if negb (Nat.eqb (length oldFields) (length newFields)) then true
  else anyRemovedOrModified (newFieldsMap newFields) oldFields.

(** *** The pattern [RESOURCE_MAPPER_FIELD_NAME_REGEX] *)

(** The line terminators, which [.] does not match. *)
Definition isLineTerminator (c : N) : bool :=
  N.eqb c 10%N || N.eqb c 13%N || N.eqb c 8232%N || N.eqb c 8233%N.

(** The pattern character [.] (the pattern has no [s] flag). *)
Definition dot (c : N) : bool := negb (isLineTerminator c).

(** The literal that opens the pattern: [value], a bracket, a double quote. *)
Definition opening : jsstring := lit "value[" ++ [dquote].

(** The literal that closes the pattern: a double quote and a bracket. *)
Definition closing : jsstring := dquote :: lit "]".

(** The rest of [s] after the literal [p], when [s] starts with it. *)
Fixpoint after (p s : jsstring) : option jsstring :=
  match p, s with
  | [], _ => Some s
  | _ :: _, [] => None
  | a :: p', b :: s' => if N.eqb a b then after p' s' else None
  end.

(** Zero or more [.] followed by the closing literal, by backtracking: the
    repetition first takes one more character, and gives it back when the
    rest of the pattern then fails.  The result is the text the repetition
    ends up with. *)
Fixpoint dotStarClosing (s : jsstring) : option jsstring :=
  match s with
  | [] => None
  | c :: s' =>
      match (if dot c then dotStarClosing s' else None) with
      | Some cap => Some (c :: cap)
      | None => if startsWith closing s then Some [] else None
      end
  end.

(** [(.+)] followed by the closing literal: the text of the group. *)
Definition dotPlusClosing (s : jsstring) : option jsstring :=
  match s with
  | [] => None
  | c :: s' =>
      if dot c then
        match dotStarClosing s' with
        | Some cap => Some (c :: cap)
        | None => None
        end
      else None
  end.

(** The whole pattern tried at the start of [s]: the text of the group. *)
Definition matchHere (s : jsstring) : option jsstring :=
  match after opening s with
  | Some rest => dotPlusClosing rest
  | None => None
  end.

(** [s.match(RESOURCE_MAPPER_FIELD_NAME_REGEX)]: the pattern is tried at
    each position from the left; the result array holds the matched text
    and the text of the group. *)
Fixpoint regex_match (s : jsstring) : option (list jsstring) :=
  match matchHere s with
  | Some cap => Some [opening ++ cap ++ closing; cap]
  | None =>
      match s with
      | [] => None
      | _ :: s' => regex_match s'
      end
  end.

(** [parseResourceMapperFieldName]; [None] stands for [undefined], the
    result of [pop] on an empty array. *)
Definition parseResourceMapperFieldName (fullName : jsstring)
    : option jsstring :=
  match regex_match fullName with
  | Some m => last m
  | None => Some fullName
  end.

(** A string has a part of the form [value], bracket, quote, one or more
    characters other than line terminators, quote, bracket. *)
Definition hasEncodedName (s : jsstring) : Prop :=
  exists before name rest,
    s = before ++ opening ++ name ++ closing ++ rest /\
    name <> [] /\ forallb dot name = true.

(** ** Example data: a node type with two ways to authenticate *)

Module Example.
#[local] Existing Instance Z_number.
#[local] Existing Instance n8n_constants.
#[local] Existing Instance example_stores.

Definition accessTokenOption : INodePropertyOptions :=
  {| option_name := lit "Access Token";
     option_value := Some (VString (lit "accessToken")) |}.

Definition oAuth2Option : INodePropertyOptions :=
  {| option_name := lit "OAuth2";
     option_value := Some (VString (lit "oAuth2")) |}.

Definition authentication : INodeProperties :=
  {| prop_ref := 1;
     prop_name := lit "authentication";
     prop_displayOptions := None;
     prop_options := Some [accessTokenOption; oAuth2Option];
     prop_required := None;
     prop_noDataExpression := None;
     prop_modes := None |}.

Definition resource : INodeProperties :=
  {| prop_ref := 2;
     prop_name := lit "resource";
     prop_displayOptions := None;
     prop_options := None;
     prop_required := None;
     prop_noDataExpression := None;
     prop_modes := None |}.

Definition slackApi : INodeCredentialDescription :=
  {| cred_name := lit "slackApi";
     cred_displayOptions :=
       Some {| show := Some [(lit "authentication",
                              Some [VString (lit "accessToken")])] |} |}.

Definition slackOAuth2Api : INodeCredentialDescription :=
  {| cred_name := lit "slackOAuth2Api";
     cred_displayOptions :=
       Some {| show := Some [(lit "authentication",
                              Some [VString (lit "oAuth2")])] |} |}.

Definition slack : INodeTypeDescription :=
  {| nt_credentials := Some [slackApi; slackOAuth2Api];
     nt_properties := [authentication; resource] |}.

Definition slackNode : INodeUi :=
  {| node_name := lit "Slack";
     node_type := lit "n8n-nodes-base.slack";
     node_typeVersion := 2%Z;
     node_parameters := ∅;
     node_disabled := None |}.

(** A state with no translations, no credential types, the node type
    above and no update received. *)
Definition plainWorld : World :=
  {| locale := ∅;
     credentialsStore := ∅;
     nodeTypesStore := {[ lit "n8n-nodes-base.slack" := slack ]};
     workflowsStore := [] |}.

(** The same state, in which the OAuth2 credential type has overwritten
    properties. *)
Definition managedWorld : World :=
  {| locale := ∅;
     credentialsStore :=
       {[ lit "slackOAuth2Api" :=
            {| overwrittenProperties := Some [lit "clientId"] |} ]};
     nodeTypesStore := {[ lit "n8n-nodes-base.slack" := slack ]};
     workflowsStore := [] |}.

(** The first state once the workflows store has received an update. *)
Definition laterWorld : World :=
  {| locale := ∅;
     credentialsStore := ∅;
     nodeTypesStore := {[ lit "n8n-nodes-base.slack" := slack ]};
     workflowsStore :=
       [{| update_name := lit "Slack"; update_parameters := ∅ |}] |}.

Definition emailField : ResourceMapperField :=
  {| rmf_id := lit "email";
     rmf_displayName := lit "Email";
     rmf_required := true;
     rmf_defaultMatch := true;
     rmf_display := true;
     rmf_canBeUsedToMatch := Some true;
     rmf_type := Some (lit "string") |}.

Definition nameField : ResourceMapperField :=
  {| rmf_id := lit "name";
     rmf_displayName := lit "Name";
     rmf_required := false;
     rmf_defaultMatch := false;
     rmf_display := true;
     rmf_canBeUsedToMatch := None;
     rmf_type := None |}.
End Example.

(** ** The rest of the badge component *)

(** Constants the badge imports besides [ProjectTypes]; their definitions
    are outside the files at hand. *)
Class BadgeConstants := {
  (** [ResourceType.Workflow] of [@/utils/projects.utils]. *)
  ResourceType_Workflow : jsstring;
  (** [VIEWS.PROJECTS_WORKFLOWS] of [@/constants]. *)
  VIEWS_PROJECTS_WORKFLOWS : jsstring
}.

(** The route [projectLocation] builds:
    [{ name, params: { projectId } }]. *)
Record RouteLocation := {
  route_name : jsstring;
  route_projectId : jsstring
}.

(** The [numberOfMembersInHomeTeamProject] computed. *)
Definition numberOfMembersInHomeTeamProject (resource : Resource) : nat :=
  match sharedWithProjects resource with
  | Some shared =>
      match shared with
      | Some l => length l
      | None => 0
      end
  | None => 0
  end.

Section BadgeLocation.
Context `{Constants} `{BadgeConstants}.

(** The [projectLocation] computed; [resourceType] is the prop of that
    name. *)
Definition projectLocation (resource : Resource)
    (personalProject : option Project) (resourceType : jsstring)
    : option RouteLocation :=
  let state := projectState resource personalProject in
  if negb (match state with Personal => true | _ => false end) &&
     negb (match state with SharedPersonal => true | _ => false end) &&
     match homeProject resource with
     | Some home => negb (str_eqb (project_id home) [])
     | None => false
     end &&
     str_eqb resourceType ResourceType_Workflow
  then
    match homeProject resource with
    | Some home =>
        Some {| route_name := VIEWS_PROJECTS_WORKFLOWS;
                route_projectId := project_id home |}
    | None => None
    end
  else None.
End BadgeLocation.

(** ** Names of apps and services *)

(** [s.split(sep)] for a separator of one code unit. *)
Fixpoint splitOn (sep : N) (s : jsstring) : list jsstring :=
  match s with
  | [] => [[]]
  | c :: s' =>
      if N.eqb c sep then [] :: splitOn sep s'
      else
        match splitOn sep s' with
        | w :: ws => (c :: w) :: ws
        | [] => [[c]]
        end
  end.

(** [l.join(sep)]. *)
Fixpoint joinWith (sep : jsstring) (l : list jsstring) : jsstring :=
  match l with
  | [] => []
  | w :: l' =>
      match l' with
      | [] => w
      | _ :: _ => w ++ sep ++ joinWith sep l'
      end
  end.

(** Code unit of the space character. *)
Definition space : N := 32%N.

Definition CRED_KEYWORDS_TO_FILTER : list jsstring :=
  [lit "API"; lit "OAuth1"; lit "OAuth2"].

Definition NODE_KEYWORDS_TO_FILTER : list jsstring := [lit "Trigger"].

Definition getAppNameFromCredType (name : jsstring) : jsstring :=
  joinWith [space]
    (List.filter (fun word => negb (includes_str word CRED_KEYWORDS_TO_FILTER))
       (splitOn space name)).

Definition getAppNameFromNodeName (name : jsstring) : jsstring :=
  joinWith [space]
    (List.filter (fun word => negb (includes_str word NODE_KEYWORDS_TO_FILTER))
       (splitOn space name)).

(** The pattern [/ trigger/i]: a space and the seven letters. *)
Definition triggerPattern : jsstring := lit " trigger".

(** The canonical form by which a pattern with the [i] flag (and without
    the [u] flag) compares a code unit with an ASCII letter or a space of
    the pattern: the upper-case letter for the ASCII letters; no code unit
    from U+0080 on is identified with an ASCII one. *)
Definition canonicalize (c : N) : N :=
  if N.leb 97 c && N.leb c 122 then N.sub c 32 else c.

(** The pattern literal [p] occurs at the start of [s], letter case
    ignored. *)
Fixpoint startsWithIgnoreCase (p s : jsstring) : bool :=
  match p, s with
  | [], _ => true
  | _ :: _, [] => false
  | a :: p', b :: s' =>
      if N.eqb (canonicalize a) (canonicalize b)
      then startsWithIgnoreCase p' s'
      else false
  end.

(** [s.replace(/ trigger/i, '')]: the leftmost occurrence is removed. *)
Fixpoint removeTrigger (s : jsstring) : jsstring :=
  if startsWithIgnoreCase triggerPattern s
  then drop (length triggerPattern) s
  else
    match s with
    | [] => []
    | c :: s' => c :: removeTrigger s'
    end.

(** [getTriggerNodeServiceName]; the only part of the node type it reads
    is [displayName], which is the argument here. *)
Definition getTriggerNodeServiceName (displayName : jsstring) : jsstring :=
  removeTrigger displayName.

(** [m] is the word [ trigger] in some letter case. *)
Definition isTriggerWord (m : jsstring) : Prop :=
  Forall2 (fun a b => canonicalize a = canonicalize b) triggerPattern m.

(** ** Template nodes *)

(** Constants of [@/constants] used by [filterTemplateNodes]. *)
Class TemplateConstants := {
  CORE_NODES_CATEGORY : jsstring;
  TEMPLATES_NODES_FILTER : list jsstring
}.

Record ITemplatesCategory := {
  category_name : jsstring
}.

(** The parts of [ITemplatesNode] the filter reads; [categories] may be
    missing. *)
Record ITemplatesNode := {
  template_name : jsstring;
  template_categories : option (list ITemplatesCategory)
}.

Section Templates.
Context `{TemplateConstants}.

(** The test [(node.categories || []).some(...)] of [filterTemplateNodes]. *)
Definition isCoreNode (node : ITemplatesNode) : bool :=
  existsb (fun category => str_eqb (category_name category) CORE_NODES_CATEGORY)
    (default [] (template_categories node)).

Definition filterTemplateNodes (nodes : list ITemplatesNode)
    : list ITemplatesNode :=
  let notCoreNodes := List.filter (fun node => negb (isCoreNode node)) nodes in
  let results :=
    if Nat.ltb 0 (length notCoreNodes) then notCoreNodes else nodes in
  List.filter
    (fun elem => negb (includes_str (template_name elem) TEMPLATES_NODES_FILTER))
    results.
End Templates.

(** ** More of the node-type helpers *)

Section MoreNodeTypes.
Context `{JsNumber} `{Constants}.

Definition isRequiredCredential (fuel : nat)
    (nodeType : option INodeTypeDescription)
    (credential : INodeCredentialDescription) : Outcome bool :=
  match show_of (cred_displayOptions credential) with
  | None => Returns true
  | Some sh =>
      mainAuthField <- getMainAuthField fuel nodeType ;;;
      Returns (match mainAuthField with
               | Some mainAuthField => dict_has sh (prop_name mainAuthField)
               | None => false
               end)
  end.

(** The [forEach] of [isAuthRelatedParameter] sets the flag; the [return]
    in its callback ends the callback only, not the loop. *)
Definition isAuthRelatedParameter (authFields : list INodeProperties)
    (parameter : INodeProperties) : bool :=
  foldl (fun isRelated prop =>
           match show_of (prop_displayOptions prop) with
           | Some sh =>
               if dict_has sh (prop_name parameter) then true else isRelated
           | None => isRelated
           end) false authFields.

(** [(matchingFields || []).includes(fieldName)] under the two guards of
    [isMatchingField]; a missing [matchingFields] is [None]. *)
Definition isMatchingField (field : jsstring)
    (matchingFields : option (list jsstring))
    (showMatchingColumnsSelector : bool) : bool :=
  match parseResourceMapperFieldName field with
  | Some fieldName =>
      if negb (str_eqb fieldName []) then
        showMatchingColumnsSelector &&
        includes_str fieldName (default [] matchingFields)
      else false
  | None => false
  end.

(** The test [item.name.includes(recommendedSuffix)] of the loop that
    reorders the options. *)
Definition isRecommended (recommendedSuffix : jsstring)
    (item : NodeAuthenticationOption) : bool :=
  str_includes recommendedSuffix (nao_name item).

(** No key of the [displayOptions.show] of a credential of the node type
    names a member inherited from [Object.prototype]. *)
Definition plainDependencies (nodeType : INodeTypeDescription) : Prop :=
  forall k, isCredentialDependency nodeType k -> isInherited k = false.

(** A node type whose one credential depends on a field named
    [constructor], and which has no properties. *)
Definition constructorType : INodeTypeDescription :=
  {| nt_credentials :=
       Some [{| cred_name := lit "exampleApi";
                cred_displayOptions :=
                  Some {| show := Some [(lit "constructor",
                                         Some [VString (lit "a")])] |} |}];
     nt_properties := [] |}.

(** The six properties that the staleness check compares are equal. *)
Definition sameProperties (a b : ResourceMapperField) : Prop :=
  rmf_displayName a = rmf_displayName b /\
  rmf_required a = rmf_required b /\
  rmf_defaultMatch a = rmf_defaultMatch b /\
  rmf_display a = rmf_display b /\
  rmf_canBeUsedToMatch a = rmf_canBeUsedToMatch b /\
  rmf_type a = rmf_type b.
End MoreNodeTypes.

Section MoreEffects.
Context `{JsNumber} `{Constants} `{!Stores}.

(** What [authOptionOf] returns for an option of a field. *)
Definition optionOf (w : World) (field : INodeProperties)
    (option : INodePropertyOptions) (o : NodeAuthenticationOption) : Prop :=
  nao_value o = match option_value option with
                | Some v => ToString v
                | None => []
                end /\
  nao_displayOptions o = prop_displayOptions field /\
  (nao_name o = option_name option \/
   nao_name o =
   option_name option ++ lit " " ++
   baseText (locale w) recommendedAuthTypeSuffixKey).
End MoreEffects.

(** ** The remaining exported helpers *)

(** Further constants of [@/constants]. *)
Class UtilityConstants := {
  NON_ACTIVATABLE_TRIGGER_NODE_TYPES : list jsstring;
  MAPPING_PARAMS : list jsstring
}.

(** The items of execution data and their [json] property, with the type
    guard [isJsonKeyObject] of [@/utils/typesUtils]; all are outside the
    files at hand. *)
Class ExecutionData := {
  INodeExecutionData : Type;
  IDataObject : Type;
  isJsonKeyObject : INodeExecutionData -> bool;
  item_json : INodeExecutionData -> IDataObject
}.

(** The pattern character [\w]. *)
Definition wordChar (c : N) : bool :=
  (N.leb 48 c && N.leb c 57) || (N.leb 65 c && N.leb c 90) ||
  N.eqb c 95 || (N.leb 97 c && N.leb c 122).

(** [\w+] followed by a slash: the rest of the string after them. *)
Fixpoint wordsThenSlash (seen : bool) (s : jsstring) : option jsstring :=
  match s with
  | [] => None
  | c :: s' =>
      if wordChar c then wordsThenSlash true s'
      else if seen && N.eqb c 47 then Some s'
      else None
  end.

(** The part [n8n-nodes-(?!base\b)\b\w+] of the pattern, tried at the
    start of [s].  After the literal, the look-ahead rejects [base]
    followed by the end of the string or by a character that is no word
    character; the boundary and [\w+] then ask for a word character. *)
Definition nodesPackage (s : jsstring) : bool :=
  match after (lit "n8n-nodes-") s with
  | Some rest =>
      negb (match after (lit "base") rest with
            | Some rest' =>
                match rest' with
                | [] => true
                | c :: _ => negb (wordChar c)
                end
            | None => false
            end) &&
      match rest with
      | [] => false
      | c :: _ => wordChar c
      end
  | None => false
  end.

(** [COMMUNITY_PACKAGE_NAME_REGEX.exec(packageName)] finds a match.  The
    function first sets [lastIndex] to [0], and the pattern starts with
    [^], so the match is tried at the start of the string only: the
    look-ahead rejects the scope [@n8n/]; the optional scope [@\w+/] is
    tried first, and the pattern without it when that fails. *)
Definition isCommunityPackageName (packageName : jsstring) : bool :=
  if startsWith (lit "@n8n/") packageName then false
  else
    (match packageName with
     | c :: s' =>
         if N.eqb c 64 then
           match wordsThenSlash false s' with
           | Some rest => nodesPackage rest
           | None => false
           end
         else false
     | [] => false
     end) || nodesPackage packageName.

(** [Themed<T>]: a string or an object with one string per theme. *)
Inductive Themed :=
  | ThemedValue (value : jsstring)
  | ThemedByTheme (light dark : jsstring).

Inductive AppliedThemeOption :=
  | LightTheme
  | DarkTheme.

(** [getThemedValue]; a missing [theme] is ['light'], and [None] stands for
    [null]. *)
Definition getThemedValue (value : option Themed)
    (theme : option AppliedThemeOption) : option jsstring :=
  match value with
  | None => None
  | Some (ThemedValue s) => if str_eqb s [] then None else Some s
  | Some (ThemedByTheme light dark) =>
      Some (match default LightTheme theme with
            | LightTheme => light
            | DarkTheme => dark
            end)
  end.

(** [s.charAt(0) === '=']. *)
Definition startsWithEquals (s : jsstring) : bool :=
  match s with
  | c :: _ => N.eqb c 61
  | [] => false
  end.

Section RemainingHelpers.
Context `{JsNumber} `{Constants} `{UtilityConstants} `{ExecutionData}.

(** [NodeParameterValueType], as far as [isValueExpression] tells its
    values apart: an object that the type guard [isResourceLocatorValue]
    of [n8n-workflow] recognises, with its [value] property, or any other
    value. *)
Inductive NodeParameterValueType :=
  | ParameterValue (v : JsValue)
  | ResourceLocatorValue (value : JsValue).

Definition getActivatableTriggerNodes (nodes : list INodeUi) : list INodeUi :=
  List.filter
    (fun node =>
       negb (default false (node_disabled node)) &&
       negb (includes_str (node_type node) NON_ACTIVATABLE_TRIGGER_NODE_TYPES))
    nodes.

(** [hasExpressionMapping]: [!!] of the parameter found, which is falsy
    when it is the empty string. *)
Definition hasExpressionMapping (value : JsValue) : bool :=
  match value with
  | VString s =>
      match List.find (fun param => str_includes param s) MAPPING_PARAMS with
      | Some param => negb (str_eqb param [])
      | None => false
      end
  | _ => false
  end.

Definition isValueExpression (parameter : INodeProperties)
    (paramValue : NodeParameterValueType) : bool :=
  if bool_decide (prop_noDataExpression parameter = Some true) then false
  else
    match paramValue with
    | ParameterValue v =>
        match v with
        | VString s => startsWithEquals s
        | _ => false
        end
    | ResourceLocatorValue value =>
        truthy value && startsWithEquals (ToString value)
    end.

(** [inputData.reduce(...)]: [concat] of an object that is no array adds
    the object. *)
Definition executionDataToJson (inputData : list INodeExecutionData)
    : list IDataObject :=
  foldl (fun acc item =>
           if isJsonKeyObject item then acc ++ [item_json item] else acc)
    [] inputData.

Definition hasOnlyListMode (parameter : INodeProperties) : bool :=
  match prop_modes parameter with
  | Some modes =>
      Nat.eqb (length modes) 1 &&
      match modes !! 0 with
      | Some mode => str_eqb (mode_name mode) (lit "list")
      | None => false
      end
  | None => false
  end.

(** [fieldCannotBeDeleted]; a missing [resourceMapperMode] is the empty
    string and a missing [matchingFields] the empty array. *)
Definition fieldCannotBeDeleted
    (field : INodeProperties + ResourceMapperField)
    (showMatchingColumnsSelector : bool)
    (resourceMapperMode : option jsstring)
    (matchingFields : option (list jsstring)) : bool :=
  let resourceMapperMode := default [] resourceMapperMode in
  let matchingFields := default [] matchingFields in
  let fieldIdentifier :=
    match field with
    | inl property => prop_name property
    | inr mapperField => rmf_id mapperField
    end in
  (str_eqb resourceMapperMode (lit "add") &&
   match field with
   | inl property => bool_decide (prop_required property = Some true)
   | inr mapperField => rmf_required mapperField
   end) ||
  isMatchingField fieldIdentifier (Some matchingFields)
    showMatchingColumnsSelector.
End RemainingHelpers.

(** ** The exports of [nodeTypesUtils.ts] *)

(** The exported functions, in the order of the file. *)
Inductive Exported :=
  | export_getAppNameFromCredType
  | export_getAppNameFromNodeName
  | export_getTriggerNodeServiceName
  | export_getActivatableTriggerNodes
  | export_filterTemplateNodes
  | export_isCommunityPackageName
  | export_hasExpressionMapping
  | export_isValueExpression
  | export_executionDataToJson
  | export_hasOnlyListMode
  | export_isRequiredCredential
  | export_getMainAuthField
  | export_getNodeAuthOptions
  | export_getAllNodeCredentialForAuthType
  | export_getNodeCredentialForSelectedAuthType
  | export_getAuthTypeForNodeCredential
  | export_isAuthRelatedParameter
  | export_getNodeAuthFields
  | export_isNodeFieldMatchingNodeVersion
  | export_getCredentialsRelatedFields
  | export_updateNodeAuthType
  | export_isNodeParameterRequired
  | export_parseResourceMapperFieldName
  | export_fieldCannotBeDeleted
  | export_isResourceMapperFieldListStale
  | export_isMatchingField
  | export_getThemedValue.

(** The exported functions whose body names the locale or a store, or
    calls a function that does. *)
Definition usesStores (f : Exported) : bool :=
  match f with
  | export_getNodeAuthOptions
  | export_getAuthTypeForNodeCredential
  | export_updateNodeAuthType => true
  | _ => false
  end.

Section Exports.
Context `{JsNumber} `{Constants} `{!Stores} `{TemplateConstants}
        `{UtilityConstants} `{ExecutionData}.

(** The arguments of an exported function. *)
Definition ArgumentsOf (f : Exported) : Type :=
  match f with
  | export_getAppNameFromCredType => jsstring
  | export_getAppNameFromNodeName => jsstring
  | export_getTriggerNodeServiceName => jsstring
  | export_getActivatableTriggerNodes => list INodeUi
  | export_filterTemplateNodes => list ITemplatesNode
  | export_isCommunityPackageName => jsstring
  | export_hasExpressionMapping => JsValue
  | export_isValueExpression => INodeProperties * NodeParameterValueType
  | export_executionDataToJson => list INodeExecutionData
  | export_hasOnlyListMode => INodeProperties
  | export_isRequiredCredential =>
      option INodeTypeDescription * INodeCredentialDescription
  | export_getMainAuthField => option INodeTypeDescription
  | export_getNodeAuthOptions => option INodeTypeDescription * option number
  | export_getAllNodeCredentialForAuthType =>
      option INodeTypeDescription * jsstring
  | export_getNodeCredentialForSelectedAuthType =>
      INodeTypeDescription * jsstring
  | export_getAuthTypeForNodeCredential =>
      option INodeTypeDescription * option INodeCredentialDescription
  | export_isAuthRelatedParameter => list INodeProperties * INodeProperties
  | export_getNodeAuthFields => option INodeTypeDescription * option number
  | export_isNodeFieldMatchingNodeVersion => INodeProperties * option number
  | export_getCredentialsRelatedFields =>
      option INodeTypeDescription * option INodeCredentialDescription
  | export_updateNodeAuthType => option INodeUi * jsstring
  | export_isNodeParameterRequired => INodeTypeDescription * INodeProperties
  | export_parseResourceMapperFieldName => jsstring
  | export_fieldCannotBeDeleted =>
      (INodeProperties + ResourceMapperField) * bool * option jsstring *
      option (list jsstring)
  | export_isResourceMapperFieldListStale =>
      list ResourceMapperField * list ResourceMapperField
  | export_isMatchingField => jsstring * option (list jsstring) * bool
  | export_getThemedValue => option Themed * option AppliedThemeOption
  end.

(** What an exported function returns. *)
Definition ResultOf (f : Exported) : Type :=
  match f with
  | export_getAppNameFromCredType => jsstring
  | export_getAppNameFromNodeName => jsstring
  | export_getTriggerNodeServiceName => jsstring
  | export_getActivatableTriggerNodes => list INodeUi
  | export_filterTemplateNodes => list ITemplatesNode
  | export_isCommunityPackageName => bool
  | export_hasExpressionMapping => bool
  | export_isValueExpression => bool
  | export_executionDataToJson => list IDataObject
  | export_hasOnlyListMode => bool
  | export_isRequiredCredential => bool
  | export_getMainAuthField => option INodeProperties
  | export_getNodeAuthOptions => list NodeAuthenticationOption
  | export_getAllNodeCredentialForAuthType => list INodeCredentialDescription
  | export_getNodeCredentialForSelectedAuthType =>
      option INodeCredentialDescription
  | export_getAuthTypeForNodeCredential => option NodeAuthenticationOption
  | export_isAuthRelatedParameter => bool
  | export_getNodeAuthFields => list INodeProperties
  | export_isNodeFieldMatchingNodeVersion => bool
  | export_getCredentialsRelatedFields => list INodeProperties
  | export_updateNodeAuthType => unit
  | export_isNodeParameterRequired => bool
  | export_parseResourceMapperFieldName => option jsstring
  | export_fieldCannotBeDeleted => bool
  | export_isResourceMapperFieldListStale => bool
  | export_isMatchingField => bool
  | export_getThemedValue => option jsstring
  end.

(** A call of an exported function in the application state.  A function
    whose body names neither the locale nor a store, and calls no function
    that does, is run by [lift]; [fuel] bounds the nested calls of
    [isNodeParameterRequired]. *)
Definition call (fuel : nat) (f : Exported) : ArgumentsOf f -> Eff (ResultOf f) :=
  match f as f0 return ArgumentsOf f0 -> Eff (ResultOf f0) with
  | export_getAppNameFromCredType =>
      fun name => lift (Returns (getAppNameFromCredType name))
  | export_getAppNameFromNodeName =>
      fun name => lift (Returns (getAppNameFromNodeName name))
  | export_getTriggerNodeServiceName =>
      fun displayName => lift (Returns (getTriggerNodeServiceName displayName))
  | export_getActivatableTriggerNodes =>
      fun nodes => lift (Returns (getActivatableTriggerNodes nodes))
  | export_filterTemplateNodes =>
      fun nodes => lift (Returns (filterTemplateNodes nodes))
  | export_isCommunityPackageName =>
      fun packageName => lift (Returns (isCommunityPackageName packageName))
  | export_hasExpressionMapping =>
      fun value => lift (Returns (hasExpressionMapping value))
  | export_isValueExpression =>
      fun '(parameter, paramValue) =>
        lift (Returns (isValueExpression parameter paramValue))
  | export_executionDataToJson =>
      fun inputData => lift (Returns (executionDataToJson inputData))
  | export_hasOnlyListMode =>
      fun parameter => lift (Returns (hasOnlyListMode parameter))
  | export_isRequiredCredential =>
      fun '(nodeType, credential) =>
        lift (isRequiredCredential fuel nodeType credential)
  | export_getMainAuthField =>
      fun nodeType => lift (getMainAuthField fuel nodeType)
  | export_getNodeAuthOptions =>
      fun '(nodeType, nodeVersion) =>
        getNodeAuthOptions fuel nodeType nodeVersion
  | export_getAllNodeCredentialForAuthType =>
      fun '(nodeType, authType) =>
        lift (Returns (getAllNodeCredentialForAuthType nodeType authType))
  | export_getNodeCredentialForSelectedAuthType =>
      fun '(nodeType, authType) =>
        lift (getNodeCredentialForSelectedAuthType fuel nodeType authType)
  | export_getAuthTypeForNodeCredential =>
      fun '(nodeType, credentialType) =>
        getAuthTypeForNodeCredential fuel nodeType credentialType
  | export_isAuthRelatedParameter =>
      fun '(authFields, parameter) =>
        lift (Returns (isAuthRelatedParameter authFields parameter))
  | export_getNodeAuthFields =>
      fun '(nodeType, nodeVersion) =>
        lift (Returns (getNodeAuthFields nodeType nodeVersion))
  | export_isNodeFieldMatchingNodeVersion =>
      fun '(nodeField, nodeVersion) =>
        lift (Returns (isNodeFieldMatchingNodeVersion nodeField nodeVersion))
  | export_getCredentialsRelatedFields =>
      fun '(nodeType, credentialType) =>
        lift (Returns (getCredentialsRelatedFields nodeType credentialType))
  | export_updateNodeAuthType =>
      fun '(node, type) => updateNodeAuthType fuel node type
  | export_isNodeParameterRequired =>
      fun '(nodeType, parameter) =>
        lift (isNodeParameterRequired fuel nodeType parameter)
  | export_parseResourceMapperFieldName =>
      fun fullName => lift (Returns (parseResourceMapperFieldName fullName))
  | export_fieldCannotBeDeleted =>
      fun '(field, showMatchingColumnsSelector, resourceMapperMode,
            matchingFields) =>
        lift (Returns (fieldCannotBeDeleted field showMatchingColumnsSelector
                         resourceMapperMode matchingFields))
  | export_isResourceMapperFieldListStale =>
      fun '(oldFields, newFields) =>
        lift (Returns (isResourceMapperFieldListStale oldFields newFields))
  | export_isMatchingField =>
      fun '(field, matchingFields, showMatchingColumnsSelector) =>
        lift (Returns (isMatchingField field matchingFields
                         showMatchingColumnsSelector))
  | export_getThemedValue =>
      fun '(value, theme) => lift (Returns (getThemedValue value theme))
  end.
End Exports.

(** ** More example data *)

(** The values the further constants have in the n8n code base. *)
Definition n8n_badge_constants : BadgeConstants :=
  {| ResourceType_Workflow := lit "workflow";
     VIEWS_PROJECTS_WORKFLOWS := lit "ProjectsWorkflows" |}.

Definition n8n_template_constants : TemplateConstants :=
  {| CORE_NODES_CATEGORY := lit "Core Nodes";
     TEMPLATES_NODES_FILTER := [lit "n8n-nodes-base.start"] |}.

Definition n8n_utility_constants : UtilityConstants :=
  {| NON_ACTIVATABLE_TRIGGER_NODE_TYPES :=
       [lit "n8n-nodes-base.manualTrigger"];
     MAPPING_PARAMS := [lit "$json"; lit "$node"] |}.

(** Items of execution data for the examples: an item is its [json]
    object, a string here, or nothing. *)
Definition example_execution_data : ExecutionData :=
  {| INodeExecutionData := option jsstring;
     IDataObject := jsstring;
     isJsonKeyObject := fun item => match item with
                                    | Some _ => true
                                    | None => false
                                    end;
     item_json := fun item => default [] item |}.

Module MoreExample.
#[local] Existing Instance Z_number.
#[local] Existing Instance n8n_constants.
#[local] Existing Instance example_stores.

(** A node type whose only credential has no display options. *)
Definition httpBasicAuth : INodeCredentialDescription :=
  {| cred_name := lit "httpBasicAuth"; cred_displayOptions := None |}.

Definition webhook : INodeTypeDescription :=
  {| nt_credentials := Some [httpBasicAuth];
     nt_properties := [Example.resource] |}.

(** A node type whose credential depends on a field that is not named
    [authentication]. *)
Definition keyOption : INodePropertyOptions :=
  {| option_name := lit "API Key";
     option_value := Some (VString (lit "key")) |}.

Definition authType : INodeProperties :=
  {| prop_ref := 3;
     prop_name := lit "authType";
     prop_displayOptions := None;
     prop_options := Some [keyOption];
     prop_required := None;
     prop_noDataExpression := None;
     prop_modes := None |}.

Definition keyApi : INodeCredentialDescription :=
  {| cred_name := lit "keyApi";
     cred_displayOptions :=
       Some {| show := Some [(lit "authType", Some [VString (lit "key")])] |} |}.

Definition keyed : INodeTypeDescription :=
  {| nt_credentials := Some [keyApi];
     nt_properties := [authType] |}.

(** The dictionary that [findAlternativeAuthField] builds for this node
    type. *)
Definition keyedValues : gmap jsstring (list jsstring) :=
  {[ lit "authType" := [lit "key"] ]}.

(** The options of the first example node type, as
    [getNodeAuthOptions] returns them where no credential type is
    overwritten. *)
Definition accessTokenAuth : NodeAuthenticationOption :=
  {| nao_name := lit "Access Token";
     nao_value := lit "accessToken";
     nao_displayOptions := None |}.

Definition oAuth2Auth : NodeAuthenticationOption :=
  {| nao_name := lit "OAuth2";
     nao_value := lit "oAuth2";
     nao_displayOptions := None |}.

Definition coreNode : ITemplatesNode :=
  {| template_name := lit "n8n-nodes-base.set";
     template_categories := Some [{| category_name := lit "Core Nodes" |}] |}.

Definition appNode : ITemplatesNode :=
  {| template_name := lit "n8n-nodes-base.slack";
     template_categories := Some [{| category_name := lit "Communication" |}] |}.
End MoreExample.

(* ================================================================== *)
(** * Properties *)

Section BadgeProperties.
Context `{Constants}.

(** C3: for every resource and personal project, [projectState] is one of
    Owned, SharedOwned, Personal, SharedPersonal, Team and SharedTeam; the
    final [return ProjectState.Unknown] is never reached. *)
Theorem projectState_exhaustive (resource : Resource)
    (personalProject : option Project) :
  projectState resource personalProject <> Unknown /\
  In (projectState resource personalProject)
     [Owned; SharedOwned; Personal; SharedPersonal; Team; SharedTeam].
Proof.
  unfold projectState.
  destruct (isOwnHome resource personalProject);
    destruct (isShared_truthy (isShared resource));
    destruct (homeProject resource) as [home|];
    try destruct (str_eqb (project_type home) ProjectTypes_Team);
    simpl; split; try discriminate; tauto.
Qed.

(** C5: [projectState] is one of the shared states exactly when the
    resource has a [sharedWithProjects] property holding a non-empty
    list; otherwise it is the non-shared state of the same ownership,
    which is the state of the resource without the property. *)
Theorem projectState_shared_iff (resource : Resource)
    (personalProject : option Project) :
  let shared :=
    exists l, sharedWithProjects resource = Some (Some l) /\ l <> [] in
  (isSharedState (projectState resource personalProject) = true <-> shared) /\
  (~ shared ->
     In (projectState resource personalProject) [Owned; Personal; Team] /\
     projectState resource personalProject =
     projectState (withoutSharing resource) personalProject) /\
  unshared (projectState resource personalProject) =
  projectState (withoutSharing resource) personalProject.
Proof.
  assert (Hs : isShared_truthy (isShared resource) = true <->
               exists l, sharedWithProjects resource = Some (Some l) /\ l <> []).
  { unfold isShared. destruct (sharedWithProjects resource) as [[l|]|]; simpl.
    - destruct l as [|x l]; simpl; split.
      + discriminate.
      + intros (l' & Hl & Hne). injection Hl as <-. congruence.
      + intros _. exists (x :: l). split; [reflexivity | discriminate].
      + reflexivity.
    - split; [discriminate | intros (l & Hl & _); discriminate].
    - split; [discriminate | intros (l & Hl & _); discriminate]. }
  cbv zeta. unfold projectState.
  change (isOwnHome (withoutSharing resource) personalProject)
    with (isOwnHome resource personalProject).
  change (homeProject (withoutSharing resource)) with (homeProject resource).
  change (isShared (withoutSharing resource)) with IsSharedFalse.
  destruct (isShared_truthy (isShared resource)) eqn:E.
  - destruct (isOwnHome resource personalProject);
      destruct (homeProject resource) as [home|];
      try destruct (str_eqb (project_type home) ProjectTypes_Team);
      simpl; (split; [split; [intros _; apply Hs; reflexivity | reflexivity] |]);
      (split; [intros Hn; exfalso; apply Hn, Hs; reflexivity | reflexivity]).
  - assert (Hn : ~ exists l, sharedWithProjects resource = Some (Some l) /\ l <> []).
    { intros Hx. apply Hs in Hx. discriminate. }
    destruct (isOwnHome resource personalProject);
      destruct (homeProject resource) as [home|];
      try destruct (str_eqb (project_type home) ProjectTypes_Team);
      simpl; (split; [split; [discriminate | intros Hx; contradiction] |]);
      (split; [intros _; split; [tauto | reflexivity] | reflexivity]).
Qed.
End BadgeProperties.


(** ** Folds and comparisons *)

Lemma str_eqb_true (a b : jsstring) : str_eqb a b = true <-> a = b.
Proof. unfold str_eqb. apply bool_decide_eq_true. Qed.

Lemma str_eqb_refl (a : jsstring) : str_eqb a a = true.
Proof. apply str_eqb_true. reflexivity. Qed.

(** An invariant of the accumulator of a loop holds after the loop when
    each step over an element of the list keeps it. *)
Lemma foldl_invariant {A B} (P : B -> Prop) (f : B -> A -> B) (l : list A) :
  forall acc,
    P acc ->
    (forall b a, In a l -> P b -> P (f b a)) ->
    P (foldl f acc l).
Proof.
  induction l as [|x l IH]; intros acc Hacc Hstep; simpl.
  - exact Hacc.
  - apply IH.
    + apply Hstep; [left; reflexivity | exact Hacc].
    + intros b a Ha. apply Hstep. right. exact Ha.
Qed.

Lemma foldO_app {A B} (f : B -> A -> Outcome B) (l1 l2 : list A) :
  forall acc,
    foldO f acc (l1 ++ l2) = (b <- foldO f acc l1 ;;; foldO f b l2).
Proof.
  induction l1 as [|x l1 IH]; intros acc; simpl; [reflexivity |].
  destruct (f acc x) as [b| |]; simpl; [apply IH | reflexivity | reflexivity].
Qed.

(** An invariant of the accumulator holds after a loop that returns. *)
Lemma foldO_invariant {A B} (P : B -> Prop) (f : B -> A -> Outcome B)
    (l : list A) :
  forall acc r,
    P acc ->
    (forall b a b', In a l -> P b -> f b a = Returns b' -> P b') ->
    foldO f acc l = Returns r ->
    P r.
Proof.
  induction l as [|x l IH]; intros acc r Hacc Hstep Hfold; simpl in Hfold.
  - injection Hfold as <-. exact Hacc.
  - destruct (f acc x) as [b| |] eqn:Ex; simpl in Hfold; try discriminate.
    apply (IH b r); [| | exact Hfold].
    + apply (Hstep acc x b); [left; reflexivity | exact Hacc | exact Ex].
    + intros b0 a b' Ha. apply Hstep. right. exact Ha.
Qed.

(** A loop that returns has reached a property that the step over one
    element of the list establishes and every step keeps. *)
Lemma foldO_establishes {A B} (P : B -> Prop) (f : B -> A -> Outcome B)
    (l : list A) (x : A) :
  (forall b a b', P b -> f b a = Returns b' -> P b') ->
  In x l ->
  (forall b b', f b x = Returns b' -> P b') ->
  forall acc r, foldO f acc l = Returns r -> P r.
Proof.
  intros Hkeep Hx Hadd acc r Hfold.
  apply in_split in Hx. destruct Hx as (l1 & l2 & ->).
  rewrite foldO_app in Hfold.
  destruct (foldO f acc l1) as [b1| |]; simpl in Hfold; try discriminate.
  destruct (f b1 x) as [b2| |] eqn:Ex; simpl in Hfold; try discriminate.
  apply (foldO_invariant P f l2 b2 r); [| | exact Hfold].
  - exact (Hadd b1 b2 Ex).
  - intros b a b' _. apply Hkeep.
Qed.

(** A loop returns when each step from a state that satisfies the
    invariant returns and keeps it. *)
Lemma foldO_returns {A B} (P : B -> Prop) (f : B -> A -> Outcome B)
    (l : list A) :
  (forall b a, In a l -> P b -> exists b', f b a = Returns b' /\ P b') ->
  forall acc, P acc -> exists r, foldO f acc l = Returns r /\ P r.
Proof.
  induction l as [|x l IH]; intros Hstep acc Hacc; simpl.
  - exists acc. split; [reflexivity | exact Hacc].
  - destruct (Hstep acc x (or_introl eq_refl) Hacc) as (b & -> & Hb). simpl.
    apply IH; [| exact Hb]. intros b0 a Ha. apply Hstep. right. exact Ha.
Qed.

(** A loop whose steps never run out of fuel does not either. *)
Lemma foldO_fuel {A B} (f : B -> A -> Outcome B) (l : list A) :
  (forall b a, f b a <> OutOfFuel) ->
  forall acc, foldO f acc l <> OutOfFuel.
Proof.
  intros Hf. induction l as [|x l IH]; intros acc; simpl; [discriminate |].
  destruct (f acc x) as [b| |] eqn:Ex; simpl;
    [apply IH | discriminate | exact (fun _ => Hf acc x Ex)].
Qed.

Lemma findM_some {A} (f : A -> Outcome bool) (l : list A) (x : A) :
  findM f l = Returns (Some x) -> In x l /\ f x = Returns true.
Proof.
  induction l as [|y l IH]; simpl; [discriminate |].
  destruct (f y) as [b| |] eqn:Ey; simpl; try discriminate.
  destruct b.
  - intros Heq. injection Heq as <-. split; [left; reflexivity | exact Ey].
  - intros Hfind. destruct (IH Hfind) as [Hin Hx].
    split; [right; exact Hin | exact Hx].
Qed.

Section NodeTypeProperties.
Context `{JsNumber} `{Constants}.

(** *** [isNodeParameterRequired] *)

Lemma find_returns_nothing (name : jsstring) (l : list INodeProperties) :
  List.find (fun prop => let _ := str_eqb (prop_name prop) name in
                         truthy VUndefined) l = None.
Proof. induction l as [|x l IH]; simpl; [reflexivity | exact IH]. Qed.

Lemma forEach_unit {A B} (l : list A) (f : A -> Outcome B) :
  (forall x, In x l -> exists b, f x = Returns b) ->
  forEach l f = Returns tt.
Proof.
  induction l as [|x l IH]; intros Hf; simpl.
  - reflexivity.
  - destruct (Hf x) as [b Hb]; [left; reflexivity |].
    rewrite Hb. simpl. apply IH. intros y Hy. apply Hf. right. exact Hy.
Qed.

Lemma isNodeParameterRequired_true (fuel : nat)
    (nodeType : INodeTypeDescription) (parameter : INodeProperties) :
  isNodeParameterRequired (S fuel) nodeType parameter = Returns true.
Proof.
  simpl. destruct (show_of (prop_displayOptions parameter)) as [sh|];
    [| reflexivity].
  rewrite forEach_unit; [reflexivity |].
  intros name _. cbv zeta. rewrite (find_returns_nothing name). exists true. reflexivity.
Qed.

(** C2: [isNodeParameterRequired] returns [true] for every node type and
    every parameter, with or without [displayOptions.show]: one call
    suffices, since the lookup of the related field finds nothing and no
    nested call is made. *)
Theorem isNodeParameterRequired_always_true (fuel : nat)
    (nodeType : INodeTypeDescription) (parameter : INodeProperties) :
  isNodeParameterRequired (S fuel) nodeType parameter = Returns true /\
  forall name,
    List.find (fun prop => let _ := str_eqb (prop_name prop) name in
                           truthy VUndefined)
      (nt_properties nodeType) = None.
Proof.
  split.
  - apply isNodeParameterRequired_true.
  - intros name. apply (find_returns_nothing name).
Qed.

(** *** [getNodeAuthFields] *)

Lemma includes_ref_false (authFields : list INodeProperties)
    (nodeField : INodeProperties) :
  includes_ref authFields nodeField = false ->
  ~ In (prop_ref nodeField) (map prop_ref authFields).
Proof.
  unfold includes_ref. intros Hf Hin. apply in_map_iff in Hin.
  destruct Hin as (g & Hg & Hin).
  assert (Ht : existsb (fun f => Nat.eqb (prop_ref f) (prop_ref nodeField))
                 authFields = true).
  { apply existsb_exists. exists g. split; [exact Hin |].
    apply Nat.eqb_eq. exact Hg. }
  congruence.
Qed.

Lemma authFieldsInvariant_push nodeType nodeVersion authFields nodeField :
  authFieldsInvariant nodeType nodeVersion authFields ->
  In nodeField (nt_properties nodeType) ->
  isCredentialDependency nodeType (prop_name nodeField) ->
  authFieldsInvariant nodeType nodeVersion
    (if negb (includes_ref authFields nodeField) &&
        isNodeFieldMatchingNodeVersion nodeField nodeVersion
     then authFields ++ [nodeField] else authFields).
Proof.
  intros [Hall Hnd] Hin Hdep.
  destruct (includes_ref authFields nodeField) eqn:Einc; simpl;
    [split; assumption |].
  destruct (isNodeFieldMatchingNodeVersion nodeField nodeVersion) eqn:Ever;
    [| split; assumption].
  split.
  - intros f Hf. apply in_app_iff in Hf. destruct Hf as [Hf | [<- | []]].
    + apply Hall, Hf.
    + repeat split; assumption.
  - rewrite map_app. simpl. apply NoDup_ListNoDup.
    apply NoDup_ListNoDup in Hnd.
    apply List.NoDup_rev in Hnd.
    rewrite <- (rev_involutive (map prop_ref authFields ++ [prop_ref nodeField])).
    apply List.NoDup_rev. rewrite rev_app_distr. simpl.
    constructor; [| exact Hnd].
    rewrite <- in_rev. apply includes_ref_false, Einc.
Qed.

Lemma getNodeAuthFields_invariant (nodeType : INodeTypeDescription)
    (nodeVersion : option number) :
  authFieldsInvariant nodeType nodeVersion
    (getNodeAuthFields (Some nodeType) nodeVersion).
Proof.
  assert (Hnil : authFieldsInvariant nodeType nodeVersion []).
  { split; [intros f [] | simpl; constructor]. }
  unfold getNodeAuthFields.
  destruct (nt_credentials nodeType) as [credentials|] eqn:Ecreds;
    [| exact Hnil].
  destruct (Nat.ltb 0 (length credentials)); [| exact Hnil].
  apply foldl_invariant; [exact Hnil |].
  intros authFields cred Hcred Hinv.
  destruct (show_of (cred_displayOptions cred)) as [sh|] eqn:Eshow;
    [| exact Hinv].
  apply foldl_invariant; [exact Hinv |].
  clear authFields Hinv. intros authFields option Hoption Hinv.
  cbv zeta. apply foldl_invariant; [exact Hinv |].
  clear authFields Hinv. intros authFields nodeField Hfield Hinv.
  apply filter_In in Hfield. destruct Hfield as [Hin Hname].
  apply str_eqb_true in Hname.
  apply authFieldsInvariant_push; [exact Hinv | exact Hin |].
  exists credentials, cred, sh. rewrite Hname. auto.
Qed.

(** C8: every element of [getNodeAuthFields(nodeType, nodeVersion)] is an
    element of [nodeType.properties] whose name is a key of the
    [displayOptions.show] of some credential and which matches the node
    version; no object is in the list twice. *)
Theorem getNodeAuthFields_sound (nodeType : INodeTypeDescription)
    (nodeVersion : option number) :
  (forall f, In f (getNodeAuthFields (Some nodeType) nodeVersion) ->
     In f (nt_properties nodeType) /\
     isCredentialDependency nodeType (prop_name f) /\
     isNodeFieldMatchingNodeVersion f nodeVersion = true) /\
  NoDup (map prop_ref (getNodeAuthFields (Some nodeType) nodeVersion)) /\
  NoDup (getNodeAuthFields (Some nodeType) nodeVersion).
Proof.
  destruct (getNodeAuthFields_invariant nodeType nodeVersion) as [Hall Hnd].
  split; [exact Hall |]. split; [exact Hnd |].
  eapply NoDup_fmap_1. exact Hnd.
Qed.

(** *** [findAlternativeAuthField] and [getMainAuthField] *)

Lemma isInherited_empty : isInherited [] = false.
Proof. reflexivity. Qed.

(** A step of the loop over the keys never removes an entry. *)
Lemma addDependentValues_keeps (sh : DisplayDict) (k fieldName : jsstring)
    (deps deps' : gmap jsstring (list jsstring)) :
  addDependentValues sh deps fieldName = Returns deps' ->
  is_Some (deps !! k) -> is_Some (deps' !! k).
Proof.
  unfold addDependentValues. intros Hadd Hk.
  assert (Hins : forall v, is_Some (<[fieldName := v]> deps !! k)).
  { intros v. apply lookup_insert_is_Some.
    destruct (decide (fieldName = k)) as [->|Hne]; [left; reflexivity |].
    right. split; assumption. }
  destruct (deps !! fieldName) as [current|].
  - injection Hadd as <-. apply Hins.
  - destruct (isInherited fieldName); [discriminate |].
    injection Hadd as <-. apply Hins.
Qed.

Lemma addDependentValues_adds (sh : DisplayDict) (fieldName : jsstring)
    (deps deps' : gmap jsstring (list jsstring)) :
  addDependentValues sh deps fieldName = Returns deps' ->
  is_Some (deps' !! fieldName).
Proof.
  unfold addDependentValues. intros Hadd.
  destruct (deps !! fieldName) as [current|].
  - injection Hadd as <-. rewrite lookup_insert_eq. eexists. reflexivity.
  - destruct (isInherited fieldName); [discriminate |].
    injection Hadd as <-. rewrite lookup_insert_eq. eexists. reflexivity.
Qed.

(** A step adds no entry under an inherited name. *)
Lemma addDependentValues_plain (sh : DisplayDict) (fieldName : jsstring)
    (deps deps' : gmap jsstring (list jsstring)) :
  addDependentValues sh deps fieldName = Returns deps' ->
  (forall k, is_Some (deps !! k) -> isInherited k = false) ->
  forall k, is_Some (deps' !! k) -> isInherited k = false.
Proof.
  unfold addDependentValues. intros Hadd Hplain k Hk.
  destruct (deps !! fieldName) as [current|] eqn:Ecur.
  - injection Hadd as <-. apply lookup_insert_is_Some in Hk.
    destruct Hk as [<- | [_ Hk]]; [| apply Hplain, Hk].
    apply Hplain. rewrite Ecur. eexists. reflexivity.
  - destruct (isInherited fieldName) eqn:Einh; [discriminate |].
    injection Hadd as <-. apply lookup_insert_is_Some in Hk.
    destruct Hk as [<- | [_ Hk]]; [exact Einh | apply Hplain, Hk].
Qed.

Lemma addDependentValues_returns (sh : DisplayDict) (fieldName : jsstring)
    (deps : gmap jsstring (list jsstring)) :
  isInherited fieldName = false ->
  exists deps', addDependentValues sh deps fieldName = Returns deps'.
Proof.
  unfold addDependentValues. intros Hplain.
  destruct (deps !! fieldName); [eauto |]. rewrite Hplain. eauto.
Qed.

Lemma addDependentValues_fuel (sh : DisplayDict) (fieldName : jsstring)
    (deps : gmap jsstring (list jsstring)) :
  addDependentValues sh deps fieldName <> OutOfFuel.
Proof.
  unfold addDependentValues. destruct (deps !! fieldName); [discriminate |].
  destruct (isInherited fieldName); discriminate.
Qed.

Lemma addDependentValues_loop_keeps (sh : DisplayDict) (k : jsstring)
    (ks : list jsstring) (deps deps' : gmap jsstring (list jsstring)) :
  foldO (addDependentValues sh) deps ks = Returns deps' ->
  is_Some (deps !! k) -> is_Some (deps' !! k).
Proof.
  intros Hloop Hk.
  apply (foldO_invariant
           (fun d : gmap jsstring (list jsstring) => is_Some (d !! k))
           (addDependentValues sh) ks deps deps' Hk); [| exact Hloop].
  intros d fieldName d' _ Hd Hadd.
  exact (addDependentValues_keeps _ _ _ _ _ Hadd Hd).
Qed.

Lemma addDependentValues_loop_plain (sh : DisplayDict) (ks : list jsstring)
    (deps deps' : gmap jsstring (list jsstring)) :
  foldO (addDependentValues sh) deps ks = Returns deps' ->
  (forall k, is_Some (deps !! k) -> isInherited k = false) ->
  forall k, is_Some (deps' !! k) -> isInherited k = false.
Proof.
  intros Hloop Hplain.
  apply (foldO_invariant
           (fun d : gmap jsstring (list jsstring) =>
              forall k, is_Some (d !! k) -> isInherited k = false)
           (addDependentValues sh) ks deps deps' Hplain); [| exact Hloop].
  intros d fieldName d' _ Hd Hadd.
  exact (addDependentValues_plain _ _ _ _ Hadd Hd).
Qed.

Lemma addDependentValues_loop_adds (sh : DisplayDict) (k : jsstring)
    (ks : list jsstring) (deps deps' : gmap jsstring (list jsstring)) :
  In k ks ->
  foldO (addDependentValues sh) deps ks = Returns deps' ->
  is_Some (deps' !! k).
Proof.
  intros Hk Hloop.
  apply (foldO_establishes
           (fun d : gmap jsstring (list jsstring) => is_Some (d !! k))
           (addDependentValues sh) ks k) with (acc := deps);
    [| exact Hk | | exact Hloop].
  - intros d fieldName d' Hd Hadd.
    exact (addDependentValues_keeps _ _ _ _ _ Hadd Hd).
  - intros d d' Hadd. exact (addDependentValues_adds _ _ _ _ Hadd).
Qed.

(** When the loop over the credentials returns, no entry of the dictionary
    is under an inherited name. *)
Lemma dependentAuthFieldValues_plain (nodeType : INodeTypeDescription)
    (deps : gmap jsstring (list jsstring)) :
  dependentAuthFieldValues nodeType = Returns deps ->
  forall k, is_Some (deps !! k) -> isInherited k = false.
Proof.
  unfold dependentAuthFieldValues. intros Hdeps.
  apply (foldO_invariant
           (fun d : gmap jsstring (list jsstring) =>
              forall k, is_Some (d !! k) -> isInherited k = false)
           (fun deps cred =>
              match show_of (cred_displayOptions cred) with
              | Some sh => foldO (addDependentValues sh) deps (keys sh)
              | None => Returns deps
              end) (default [] (nt_credentials nodeType))
           (∅ : gmap jsstring (list jsstring)) deps); [| | exact Hdeps].
  - intros k Hk. rewrite lookup_empty in Hk. destruct Hk. discriminate.
  - intros b c b' _ Hb Hstep.
    destruct (show_of (cred_displayOptions c)) as [sh'|].
    + exact (addDependentValues_loop_plain _ _ _ _ Hstep Hb).
    + injection Hstep as <-. exact Hb.
Qed.

(** When the loop over the credentials returns, the dictionary has an own
    entry for every key of the [displayOptions.show] of a credential, and
    none of these keys is an inherited name. *)
Lemma dependentAuthFieldValues_defined (nodeType : INodeTypeDescription)
    (deps : gmap jsstring (list jsstring)) :
  dependentAuthFieldValues nodeType = Returns deps ->
  forall k,
    isCredentialDependency nodeType k ->
    is_Some (deps !! k) /\ isInherited k = false.
Proof.
  intros Hdeps k (credentials & cred & sh & Hcreds & Hcred & Hshow & Hk).
  assert (Hsome : is_Some (deps !! k)).
  { unfold dependentAuthFieldValues in Hdeps. rewrite Hcreds in Hdeps.
    simpl in Hdeps.
    apply (foldO_establishes
             (fun d : gmap jsstring (list jsstring) => is_Some (d !! k))
             (fun deps cred =>
                match show_of (cred_displayOptions cred) with
                | Some sh => foldO (addDependentValues sh) deps (keys sh)
                | None => Returns deps
                end) credentials cred)
      with (acc := (∅ : gmap jsstring (list jsstring)));
      [| exact Hcred | | exact Hdeps].
    - intros b c b' Hb Hstep.
      destruct (show_of (cred_displayOptions c)) as [sh'|].
      + exact (addDependentValues_loop_keeps _ _ _ _ _ Hstep Hb).
      + injection Hstep as <-. exact Hb.
    - intros b b' Hstep. rewrite Hshow in Hstep.
      exact (addDependentValues_loop_adds _ _ _ _ _ Hk Hstep). }
  split; [exact Hsome |].
  exact (dependentAuthFieldValues_plain nodeType deps Hdeps k Hsome).
Qed.

(** The loop over the credentials returns when no key is an inherited
    name. *)
Lemma dependentAuthFieldValues_returns (nodeType : INodeTypeDescription) :
  plainDependencies nodeType ->
  exists deps, dependentAuthFieldValues nodeType = Returns deps.
Proof.
  intros Hplain. unfold dependentAuthFieldValues.
  destruct (nt_credentials nodeType) as [credentials|] eqn:Ecreds;
    [| simpl; eauto].
  simpl.
  destruct (foldO_returns (fun _ => True)
              (fun deps cred =>
                 match show_of (cred_displayOptions cred) with
                 | Some sh => foldO (addDependentValues sh) deps (keys sh)
                 | None => Returns deps
                 end) credentials) with (acc := (∅ : gmap jsstring (list jsstring)))
    as (r & Hr & _); [| exact I | eauto].
  intros b cred Hcred _.
  destruct (show_of (cred_displayOptions cred)) as [sh|] eqn:Eshow;
    [| eauto].
  destruct (foldO_returns (fun _ => True) (addDependentValues sh) (keys sh))
    with (acc := b) as (r & Hr & _); [| exact I | eauto].
  intros d fieldName Hfield _.
  destruct (addDependentValues_returns sh fieldName d) as [d' Hd'];
    [| eauto].
  apply Hplain. exists credentials, cred, sh. auto.
Qed.

Lemma dependentAuthFieldValues_fuel (nodeType : INodeTypeDescription) :
  dependentAuthFieldValues nodeType <> OutOfFuel.
Proof.
  unfold dependentAuthFieldValues. apply foldO_fuel. intros b cred.
  destruct (show_of (cred_displayOptions cred)) as [sh|]; [| discriminate].
  apply foldO_fuel. intros deps fieldName. apply addDependentValues_fuel.
Qed.

Lemma allOptionsUsed_returns (deps : gmap jsstring (list jsstring))
    (field : INodeProperties) (options : list INodePropertyOptions) :
  is_Some (deps !! prop_name field) ->
  forall required,
    exists b, allOptionsUsed deps field options required = Returns b.
Proof.
  intros [values Hvalues].
  induction options as [|option options IH]; intros required; simpl.
  - exists required. reflexivity.
  - destruct (option_value option) as [[| | | |value|]|]; try apply IH.
    rewrite Hvalues. apply IH.
Qed.

Lemma findM_returns {A} (f : A -> Outcome bool) (l : list A) :
  (forall x, In x l -> exists b, f x = Returns b) ->
  exists r, findM f l = Returns r.
Proof.
  induction l as [|x l IH]; intros Hf; simpl.
  - exists None. reflexivity.
  - destruct (Hf x) as [b Hb]; [left; reflexivity |].
    rewrite Hb. simpl. destruct b.
    + exists (Some x). reflexivity.
    + apply IH. intros y Hy. apply Hf. right. exact Hy.
Qed.

(** Once the dictionary is built, the search through the auth fields
    returns. *)
Lemma alternative_search_returns (nodeType : INodeTypeDescription)
    (nodeVersion : option number) (deps : gmap jsstring (list jsstring)) :
  dependentAuthFieldValues nodeType = Returns deps ->
  exists r,
    findM (fun field =>
             allOptionsUsed deps field (default [] (prop_options field)) true)
      (getNodeAuthFields (Some nodeType) nodeVersion) = Returns r.
Proof.
  intros Hdeps. apply findM_returns.
  intros field Hfield. apply allOptionsUsed_returns.
  apply (dependentAuthFieldValues_defined nodeType deps Hdeps).
  apply (getNodeAuthFields_invariant nodeType nodeVersion). exact Hfield.
Qed.

Lemma findAlternativeAuthField_returns (nodeType : INodeTypeDescription)
    (nodeVersion : option number) :
  plainDependencies nodeType ->
  exists r,
    findAlternativeAuthField nodeType
      (getNodeAuthFields (Some nodeType) nodeVersion) = Returns r.
Proof.
  intros Hplain. unfold findAlternativeAuthField.
  destruct (dependentAuthFieldValues_returns nodeType Hplain) as [deps Hdeps].
  rewrite Hdeps. unfold obind.
  exact (alternative_search_returns nodeType nodeVersion deps Hdeps).
Qed.

(** [findAlternativeAuthField] on the auth fields never runs out of fuel:
    it returns or throws. *)
Lemma findAlternativeAuthField_fuel (nodeType : INodeTypeDescription)
    (nodeVersion : option number) :
  findAlternativeAuthField nodeType
    (getNodeAuthFields (Some nodeType) nodeVersion) <> OutOfFuel.
Proof.
  unfold findAlternativeAuthField.
  destruct (dependentAuthFieldValues nodeType) as [deps| |] eqn:Edeps;
    unfold obind.
  - destruct (alternative_search_returns nodeType nodeVersion deps Edeps)
      as [r Hr]. rewrite Hr. discriminate.
  - discriminate.
  - exfalso. exact (dependentAuthFieldValues_fuel nodeType Edeps).
Qed.

(** What holds when [findAlternativeAuthField] returns a field. *)
Lemma findAlternativeAuthField_some (nodeType : INodeTypeDescription)
    (fields : list INodeProperties) (f : INodeProperties) :
  findAlternativeAuthField nodeType fields = Returns (Some f) ->
  exists deps,
    dependentAuthFieldValues nodeType = Returns deps /\
    In f fields /\
    allOptionsUsed deps f (default [] (prop_options f)) true = Returns true.
Proof.
  unfold findAlternativeAuthField.
  destruct (dependentAuthFieldValues nodeType) as [deps| |]; unfold obind;
    try discriminate.
  intros Hfind. apply findM_some in Hfind.
  exists deps. split; [reflexivity | exact Hfind].
Qed.

(** The ways [getMainAuthField] returns a field. *)
Lemma getMainAuthField_cases (fuel : nat) (nodeType : INodeTypeDescription)
    (f : INodeProperties) :
  getMainAuthField fuel (Some nodeType) = Returns (Some f) ->
  List.find isAuthenticationField (getNodeAuthFields (Some nodeType) None) =
    Some f \/
  (List.find isAuthenticationField (getNodeAuthFields (Some nodeType) None) =
     None /\
   findAlternativeAuthField nodeType (getNodeAuthFields (Some nodeType) None) =
     Returns (Some f)).
Proof.
  unfold getMainAuthField.
  destruct (List.find isAuthenticationField
              (getNodeAuthFields (Some nodeType) None)) as [g|].
  - unfold obind at 1.
    destruct (isNodeParameterRequired fuel nodeType g) as [[|]| |]; simpl;
      try discriminate.
    intros Heq. injection Heq as <-. left. reflexivity.
  - destruct (findAlternativeAuthField nodeType
                (getNodeAuthFields (Some nodeType) None)) as [[g|]| |];
      simpl; try discriminate.
    destruct (isNodeParameterRequired fuel nodeType g) as [[|]| |]; simpl;
      try discriminate.
    intros Heq. injection Heq as <-. right. split; reflexivity.
Qed.

(** With fuel, [getMainAuthField] returns or throws. *)
Lemma getMainAuthField_outcome (fuel : nat)
    (nodeType : option INodeTypeDescription) :
  (exists r, getMainAuthField (S fuel) nodeType = Returns r) \/
  getMainAuthField (S fuel) nodeType = Throws.
Proof.
  destruct nodeType as [nodeType|]; [| left; simpl; eauto].
  unfold getMainAuthField.
  destruct (List.find isAuthenticationField
              (getNodeAuthFields (Some nodeType) None)) as [f|].
  - unfold obind at 1. rewrite isNodeParameterRequired_true. simpl.
    left. eauto.
  - pose proof (findAlternativeAuthField_fuel nodeType None) as Hfuel.
    destruct (findAlternativeAuthField nodeType
                (getNodeAuthFields (Some nodeType) None)) as [[f|]| |];
      unfold obind at 1.
    + rewrite isNodeParameterRequired_true. left. simpl. eauto.
    + left. simpl. eauto.
    + right. reflexivity.
    + congruence.
Qed.

(** With fuel, [getMainAuthField] returns on a node type none of whose
    credential dependencies is an inherited name. *)
Lemma getMainAuthField_returns (fuel : nat)
    (nodeType : INodeTypeDescription) :
  plainDependencies nodeType ->
  exists r, getMainAuthField (S fuel) (Some nodeType) = Returns r.
Proof.
  intros Hplain. unfold getMainAuthField.
  destruct (List.find isAuthenticationField
              (getNodeAuthFields (Some nodeType) None)) as [f|].
  - unfold obind at 1. rewrite isNodeParameterRequired_true. simpl.
    eexists. reflexivity.
  - destruct (findAlternativeAuthField_returns nodeType None Hplain)
      as [r ->].
    unfold obind at 1. destruct r as [f|].
    + rewrite isNodeParameterRequired_true. simpl. eexists. reflexivity.
    + simpl. eexists. reflexivity.
Qed.

(** The name of the main auth field is not an inherited name, unless
    [MAIN_AUTH_FIELD_NAME] is one. *)
Lemma main_field_plain (fuel : nat) (nodeType : INodeTypeDescription)
    (f : INodeProperties) :
  isInherited MAIN_AUTH_FIELD_NAME = false ->
  getMainAuthField fuel (Some nodeType) = Returns (Some f) ->
  isInherited (prop_name f) = false.
Proof.
  intros Hmain Hf.
  destruct (getMainAuthField_cases fuel nodeType f Hf) as [Hfind | [_ Halt]].
  - apply find_some in Hfind. destruct Hfind as [_ Hauth].
    unfold isAuthenticationField in Hauth.
    apply andb_true_iff in Hauth. destruct Hauth as [Hname _].
    apply str_eqb_true in Hname. rewrite Hname. exact Hmain.
  - unfold findAlternativeAuthField in Halt.
    destruct (dependentAuthFieldValues nodeType) as [deps| |] eqn:Edeps;
      simpl in Halt; try discriminate.
    assert (Hin : In f (getNodeAuthFields (Some nodeType) None)).
    { apply findM_some in Halt. apply Halt. }
    apply (dependentAuthFieldValues_defined nodeType deps Edeps).
    apply (getNodeAuthFields_invariant nodeType None). exact Hin.
Qed.

(** C4: every element of [getNodeAuthFields(nodeType)] has a name that is
    a key of the [displayOptions.show] of some credential.  So, whenever
    the loop that fills [dependentAuthFieldValues] has completed,
    [dependentAuthFieldValues[field.name]] is an own entry for every field
    the search examines, the call of [includes] on it never throws, and
    [findAlternativeAuthField] returns. *)
Theorem findAlternativeAuthField_lookup_defined
    (nodeType : INodeTypeDescription) :
  (forall field,
     In field (getNodeAuthFields (Some nodeType) None) ->
     isCredentialDependency nodeType (prop_name field)) /\
  (forall deps,
     dependentAuthFieldValues nodeType = Returns deps ->
     (forall field,
        In field (getNodeAuthFields (Some nodeType) None) ->
        is_Some (deps !! prop_name field) /\
        forall options required,
          allOptionsUsed deps field options required <> Throws) /\
     exists r,
       findAlternativeAuthField nodeType
         (getNodeAuthFields (Some nodeType) None) = Returns r).
Proof.
  assert (Hdep : forall field,
            In field (getNodeAuthFields (Some nodeType) None) ->
            isCredentialDependency nodeType (prop_name field)).
  { intros field Hfield.
    apply (getNodeAuthFields_invariant nodeType None). exact Hfield. }
  split; [exact Hdep |].
  intros deps Hdeps. split.
  - intros field Hfield.
    destruct (dependentAuthFieldValues_defined nodeType deps Hdeps
                (prop_name field) (Hdep field Hfield)) as [Hsome _].
    split; [exact Hsome |]. intros options required.
    destruct (allOptionsUsed_returns deps field options Hsome required)
      as [b ->].
    discriminate.
  - unfold findAlternativeAuthField. rewrite Hdeps. unfold obind.
    exact (alternative_search_returns nodeType None deps Hdeps).
Qed.

(** *** [getNodeCredentialForSelectedAuthType] *)

Lemma includes_string (authType : jsstring) (values : list JsValue) :
  includes (VString authType) values = true <-> In (VString authType) values.
Proof.
  unfold includes. rewrite existsb_exists. split.
  - intros (y & Hy & Heq). destruct y; simpl in Heq; try discriminate.
    apply str_eqb_true in Heq. subst. exact Hy.
  - intros Hin. exists (VString authType). split; [exact Hin |].
    simpl. apply str_eqb_refl.
Qed.

Lemma credentialShownFor_spec (authFieldName authType : jsstring)
    (cred : INodeCredentialDescription) :
  credentialShownFor authFieldName authType cred = Returns true <->
  showsAuthType authFieldName authType cred.
Proof.
  unfold credentialShownFor, showsAuthType, show_of. split.
  - destruct (cred_displayOptions cred) as [d|]; [| discriminate].
    destruct (show d) as [sh|] eqn:Eshow; [| discriminate].
    destruct (dict_get sh authFieldName) as [values|] eqn:Eget.
    + intros Hinc. injection Hinc as Hinc. exists d, sh, values.
      split; [reflexivity |]. split; [exact Eshow |]. split; [exact Eget |].
      apply includes_string, Hinc.
    + destruct (_ && _); discriminate.
  - intros (d & sh & values & -> & -> & -> & Hin).
    f_equal. apply includes_string, Hin.
Qed.

Lemma credentialShownFor_returns (authFieldName authType : jsstring)
    (cred : INodeCredentialDescription) :
  isInherited authFieldName = false ->
  exists b, credentialShownFor authFieldName authType cred = Returns b.
Proof.
  unfold credentialShownFor. intros Hplain.
  destruct (show_of (cred_displayOptions cred)) as [sh|]; [| eauto].
  destruct (dict_get sh authFieldName); [eauto |].
  rewrite Hplain, andb_false_r. eauto.
Qed.

Lemma find_firstSuch {A} (p : A -> bool) (P : A -> Prop) (l : list A) :
  (forall x, p x = true <-> P x) ->
  firstSuch P l (List.find p l).
Proof.
  intros Hp. induction l as [|x l IH]; simpl.
  - constructor.
  - destruct (p x) eqn:Epx.
    + exists [], l. repeat split; [apply Hp, Epx | constructor].
    + assert (Hnx : ~ P x) by (intros HP; apply Hp in HP; congruence).
      destruct (List.find p l) as [y|]; simpl in *.
      * destruct IH as (l1 & l2 & -> & Hy & Hl1).
        exists (x :: l1), l2. repeat split; [exact Hy |].
        constructor; assumption.
      * constructor; assumption.
Qed.

Lemma findM_firstSuch {A} (f : A -> Outcome bool) (P : A -> Prop)
    (l : list A) :
  (forall x, exists b, f x = Returns b) ->
  (forall x, f x = Returns true <-> P x) ->
  exists r, findM f l = Returns r /\ firstSuch P l r.
Proof.
  intros Hret Hp. induction l as [|x l IH]; simpl.
  - exists None. split; [reflexivity | constructor].
  - destruct (Hret x) as [b Hb]. rewrite Hb. simpl. destruct b.
    + exists (Some x). split; [reflexivity |].
      exists [], l. repeat split; [apply Hp, Hb | constructor].
    + assert (Hnx : ~ P x) by (intros HP; apply Hp in HP; congruence).
      destruct IH as ([y|] & -> & Hfirst); simpl in *.
      * destruct Hfirst as (l1 & l2 & -> & Hy & Hl1).
        exists (Some y). split; [reflexivity |].
        exists (x :: l1), l2. repeat split; [exact Hy |].
        constructor; assumption.
      * exists None. split; [reflexivity |]. constructor; assumption.
Qed.

Lemma selected_credential_first (fuel : nat)
    (nodeType : INodeTypeDescription) (authType : jsstring)
    (authField : option INodeProperties) :
  isInherited MAIN_AUTH_FIELD_NAME = false ->
  getMainAuthField fuel (Some nodeType) = Returns authField ->
  exists result,
    getNodeCredentialForSelectedAuthType fuel nodeType authType =
      Returns result /\
    firstSuch
      (showsAuthType (match authField with
                      | Some f => prop_name f
                      | None => []
                      end) authType)
      (default [] (nt_credentials nodeType)) result.
Proof.
  intros Hplain Hmain.
  assert (Hname : isInherited (match authField with
                               | Some f => prop_name f
                               | None => []
                               end) = false).
  { destruct authField as [f|]; [| reflexivity].
    exact (main_field_plain fuel nodeType f Hplain Hmain). }
  unfold getNodeCredentialForSelectedAuthType. rewrite Hmain. simpl.
  destruct (nt_credentials nodeType) as [credentials|]; simpl.
  - apply findM_firstSuch.
    + intros cred. apply credentialShownFor_returns, Hname.
    + intros cred. apply credentialShownFor_spec.
  - exists None. split; [reflexivity | constructor].
Qed.

Lemma constructorType_throws (fuel : nat) (authType : jsstring) :
  getNodeCredentialForSelectedAuthType fuel constructorType authType = Throws.
Proof. reflexivity. Qed.

(** C7, against the code.  On a node type whose credential depends on a
    field named [constructor], [getNodeCredentialForSelectedAuthType]
    throws where the claim has it return [null].  Wherever
    [getMainAuthField] returns, it returns the first credential description
    whose [displayOptions.show] entry for the name of the main auth field
    (the empty string when there is none) contains the auth type, and
    [null] when no credential description does; and [getMainAuthField]
    returns on every node type none of whose credentials depends on an
    inherited name. *)
Theorem getNodeCredentialForSelectedAuthType_first :
  (forall fuel authType,
     getNodeCredentialForSelectedAuthType fuel constructorType authType =
       Throws) /\
  (forall fuel nodeType authType authField,
     isInherited MAIN_AUTH_FIELD_NAME = false ->
     getMainAuthField fuel (Some nodeType) = Returns authField ->
     exists result,
       getNodeCredentialForSelectedAuthType fuel nodeType authType =
         Returns result /\
       firstSuch
         (showsAuthType (match authField with
                         | Some f => prop_name f
                         | None => []
                         end) authType)
         (default [] (nt_credentials nodeType)) result) /\
  (forall fuel nodeType,
     plainDependencies nodeType ->
     exists authField,
       getMainAuthField (S fuel) (Some nodeType) = Returns authField).
Proof.
  split; [| split].
  - exact constructorType_throws.
  - intros fuel nodeType authType authField.
    apply selected_credential_first.
  - intros fuel nodeType. apply getMainAuthField_returns.
Qed.
End NodeTypeProperties.

(** ** Resource-mapper fields *)

Lemma newFieldsMap_other (k : jsstring) (l : list ResourceMapperField) :
  forall m : gmap jsstring ResourceMapperField,
    ~ In k (map rmf_id l) ->
    foldl (fun (m : gmap jsstring ResourceMapperField) field =>
             <[rmf_id field := field]> m) m l !! k = m !! k.
Proof.
  induction l as [|x l IH]; intros m Hk; simpl.
  - reflexivity.
  - rewrite IH.
    + apply lookup_insert_ne. intros Heq. apply Hk. left. exact Heq.
    + intros Hin. apply Hk. right. exact Hin.
Qed.

Lemma newFieldsMap_lookup (l : list ResourceMapperField) :
  NoDup (map rmf_id l) ->
  forall (m : gmap jsstring ResourceMapperField) f,
    In f l ->
    foldl (fun (m : gmap jsstring ResourceMapperField) field =>
             <[rmf_id field := field]> m) m l !! rmf_id f = Some f.
Proof.
  induction l as [|x l IH]; intros Hnd m f Hf; simpl in *.
  - destruct Hf.
  - apply NoDup_cons in Hnd. destruct Hnd as [Hx Hnd].
    destruct Hf as [<- | Hf].
    + rewrite newFieldsMap_other.
      * apply lookup_insert_eq.
      * intros Hin. apply Hx. apply list_elem_of_In. exact Hin.
    + apply IH; assumption.
Qed.

Lemma propertiesChanged_same (f : ResourceMapperField) :
  propertiesChanged f f = false.
Proof.
  unfold propertiesChanged.
  rewrite str_eqb_refl, !Bool.eqb_reflx, !bool_decide_eq_true_2 by reflexivity.
  reflexivity.
Qed.

Lemma anyRemovedOrModified_same (m : gmap jsstring ResourceMapperField)
    (l : list ResourceMapperField) :
  (forall f, In f l -> m !! rmf_id f = Some f) ->
  anyRemovedOrModified m l = false.
Proof.
  induction l as [|x l IH]; intros Hm; simpl.
  - reflexivity.
  - rewrite (Hm x) by (left; reflexivity).
    rewrite propertiesChanged_same. apply IH.
    intros f Hf. apply Hm. right. exact Hf.
Qed.

(** C9: a list of resource-mapper fields with pairwise distinct ids is not
    stale with respect to itself. *)
Theorem isResourceMapperFieldListStale_same (l : list ResourceMapperField) :
  NoDup (map rmf_id l) ->
  isResourceMapperFieldListStale l l = false.
Proof.
  intros Hnd. unfold isResourceMapperFieldListStale.
  rewrite Nat.eqb_refl. simpl.
  apply anyRemovedOrModified_same. intros f Hf.
  unfold newFieldsMap. apply newFieldsMap_lookup; assumption.
Qed.

(** *** The field-name pattern *)

Lemma after_app (p s : jsstring) : after p (p ++ s) = Some s.
Proof.
  induction p as [|a p IH]; simpl; [reflexivity |].
  rewrite N.eqb_refl. exact IH.
Qed.

Lemma after_sound (p : jsstring) :
  forall s rest, after p s = Some rest -> s = p ++ rest.
Proof.
  induction p as [|a p IH]; intros s rest Hs; simpl in *.
  - congruence.
  - destruct s as [|b s]; [discriminate |].
    destruct (N.eqb a b) eqn:Eab; [| discriminate].
    apply N.eqb_eq in Eab. subst b. f_equal. apply IH. exact Hs.
Qed.

Lemma startsWith_sound (p : jsstring) :
  forall s, startsWith p s = true -> exists rest, s = p ++ rest.
Proof.
  induction p as [|a p IH]; intros s Hs; simpl in *.
  - exists s. reflexivity.
  - destruct s as [|b s]; [discriminate |].
    destruct (N.eqb a b) eqn:Eab; [| discriminate].
    apply N.eqb_eq in Eab. subst b.
    destruct (IH s Hs) as [rest ->]. exists rest. reflexivity.
Qed.

(** The repetition takes the whole name when the closing literal ends the
    string. *)
Lemma dotStarClosing_whole (name : jsstring) :
  forallb dot name = true ->
  dotStarClosing (name ++ closing) = Some name.
Proof.
  induction name as [|c name IH]; intros Hdot.
  - reflexivity.
  - simpl in Hdot. apply andb_true_iff in Hdot. destruct Hdot as [Hc Hdot].
    change ((c :: name) ++ closing) with (c :: (name ++ closing)).
    simpl. rewrite Hc, (IH Hdot). reflexivity.
Qed.

Lemma dotStarClosing_sound (s : jsstring) :
  forall cap,
    dotStarClosing s = Some cap ->
    exists rest, s = cap ++ closing ++ rest /\ forallb dot cap = true.
Proof.
  induction s as [|c s IH]; intros cap Hcap; [discriminate |].
  cbn [dotStarClosing] in Hcap.
  destruct (dot c) eqn:Ec.
  - destruct (dotStarClosing s) as [cap'|] eqn:Es.
    + injection Hcap as <-. destruct (IH cap' eq_refl) as (rest & -> & Hdot).
      exists rest. split; [reflexivity |]. simpl. rewrite Ec. exact Hdot.
    + destruct (startsWith closing (c :: s)) eqn:Est; [| discriminate].
      injection Hcap as <-. apply startsWith_sound in Est.
      destruct Est as [rest Hrest]. exists rest. split; [exact Hrest | reflexivity].
  - destruct (startsWith closing (c :: s)) eqn:Est; [| discriminate].
    injection Hcap as <-. apply startsWith_sound in Est.
    destruct Est as [rest Hrest]. exists rest. split; [exact Hrest | reflexivity].
Qed.

Lemma matchHere_sound (s cap : jsstring) :
  matchHere s = Some cap ->
  exists rest,
    s = opening ++ cap ++ closing ++ rest /\
    cap <> [] /\ forallb dot cap = true.
Proof.
  unfold matchHere. destruct (after opening s) as [r|] eqn:Eafter;
    [| discriminate].
  apply after_sound in Eafter. subst s.
  unfold dotPlusClosing. destruct r as [|c r]; [discriminate |].
  destruct (dot c) eqn:Ec; [| discriminate].
  destruct (dotStarClosing r) as [cap'|] eqn:Er; [| discriminate].
  intros Hcap. injection Hcap as <-.
  destruct (dotStarClosing_sound r cap' Er) as (rest & -> & Hdot).
  exists rest. split; [reflexivity |]. split; [discriminate |].
  simpl. rewrite Ec. exact Hdot.
Qed.

Lemma regex_match_sound (s : jsstring) :
  forall m, regex_match s = Some m -> hasEncodedName s.
Proof.
  induction s as [|c s IH]; intros m Hm.
  - simpl in Hm. destruct (matchHere []) as [cap|] eqn:E; [| discriminate].
    destruct (matchHere_sound _ _ E) as (rest & Hs & Hne & Hdot).
    exists [], cap, rest. auto.
  - cbn [regex_match] in Hm.
    destruct (matchHere (c :: s)) as [cap|] eqn:E.
    + destruct (matchHere_sound _ _ E) as (rest & Hs & Hne & Hdot).
      exists [], cap, rest. auto.
    + destruct (IH m Hm) as (before & name & rest & -> & Hne & Hdot).
      exists (c :: before), name, rest. auto.
Qed.

Lemma parse_encoded (name : jsstring) :
  name <> [] ->
  forallb dot name = true ->
  parseResourceMapperFieldName (opening ++ name ++ closing) = Some name.
Proof.
  intros Hne Hdot. unfold parseResourceMapperFieldName.
  assert (Hm : matchHere (opening ++ name ++ closing) = Some name).
  { unfold matchHere. rewrite after_app.
    destruct name as [|c name]; [congruence |].
    simpl in Hdot. apply andb_true_iff in Hdot. destruct Hdot as [Hc Hdot].
    change ((c :: name) ++ closing) with (c :: (name ++ closing)).
    unfold dotPlusClosing. rewrite Hc, (dotStarClosing_whole name Hdot).
    reflexivity. }
  destruct (opening ++ name ++ closing) as [|c s] eqn:Es;
    cbn [regex_match]; rewrite Hm; reflexivity.
Qed.

(** C10, as the code has it: a non-empty field name without double quotes
    and without line terminators is recovered from its encoding, and a
    string with nothing of the encoded form in it is returned as it is. *)
Theorem parseResourceMapperFieldName_inverts :
  (forall name,
     name <> [] ->
     ~ In dquote name ->
     forallb dot name = true ->
     parseResourceMapperFieldName (opening ++ name ++ closing) = Some name) /\
  (forall fullName,
     ~ hasEncodedName fullName ->
     parseResourceMapperFieldName fullName = Some fullName).
Proof.
  split.
  - intros name Hne _ Hdot. apply parse_encoded; assumption.
  - intros fullName Hno. unfold parseResourceMapperFieldName.
    destruct (regex_match fullName) as [m|] eqn:Em; [| reflexivity].
    exfalso. apply Hno. eapply regex_match_sound. exact Em.
Qed.

(** C10 as stated fails on a name holding a line feed: the pattern does not
    match the encoding, and the encoding itself is returned. *)
Lemma parseResourceMapperFieldName_line_feed :
  ~ (forall name,
       name <> [] ->
       ~ In dquote name ->
       parseResourceMapperFieldName (opening ++ name ++ closing) = Some name).
Proof.
  intros Hall. specialize (Hall [10%N]).
  assert (Hne : [10%N] <> @nil N) by discriminate.
  assert (Hq : ~ In dquote [10%N]).
  { intros [Heq | []]. discriminate. }
  specialize (Hall Hne Hq). vm_compute in Hall. discriminate.
Qed.

(** ** Access to the stores *)

Section EffectProperties.
Context `{JsNumber} `{Constants} `{!Stores}.

Lemma readsOnly_eret {A} (a : A) : readsOnly (eret a).
Proof. split; intros; reflexivity. Qed.

Lemma readsOnly_lift {A} (m : Outcome A) : readsOnly (lift m).
Proof. split; intros; reflexivity. Qed.

Lemma readsOnly_baseText : readsOnly (locale_baseText recommendedAuthTypeSuffixKey).
Proof.
  split; [intros; reflexivity |].
  intros w1 w2 [Htext _]. simpl. rewrite Htext. reflexivity.
Qed.

Lemma readsOnly_getCredentialTypeByName (name : jsstring) :
  readsOnly (credentials_getCredentialTypeByName name).
Proof.
  split; [intros; reflexivity |].
  intros w1 w2 [_ Htypes]. simpl. rewrite Htypes. reflexivity.
Qed.

Lemma readsOnly_ebind {A B} (m : Eff A) (k : A -> Eff B) :
  readsOnly m -> (forall a, readsOnly (k a)) -> readsOnly (ebind m k).
Proof.
  intros [Hm1 Hm2] Hk. split.
  - intros w. unfold ebind. specialize (Hm1 w).
    destruct (m w) as [[a| |] w']; simpl in *; subst w'; try reflexivity.
    apply Hk.
  - intros w1 w2 Hsame. unfold ebind.
    pose proof (Hm1 w1) as Hw1. pose proof (Hm1 w2) as Hw2.
    specialize (Hm2 w1 w2 Hsame).
    destruct (m w1) as [o1 w1'], (m w2) as [o2 w2']; simpl in *.
    subst w1' w2' o2.
    destruct o1 as [a| |]; try reflexivity.
    apply Hk. exact Hsame.
Qed.

Lemma readsOnly_mapE {A B} (f : A -> Eff B) (l : list A) :
  (forall x, readsOnly (f x)) -> readsOnly (mapE f l).
Proof.
  intros Hf. induction l as [|x l IH]; simpl.
  - apply readsOnly_eret.
  - apply readsOnly_ebind; [apply Hf |]. intros y.
    apply readsOnly_ebind; [exact IH |]. intros ys. apply readsOnly_eret.
Qed.

Lemma readsOnly_foldE {A B} (f : B -> A -> Eff B) (l : list A) :
  (forall acc x, readsOnly (f acc x)) ->
  forall acc, readsOnly (foldE f acc l).
Proof.
  intros Hf. induction l as [|x l IH]; intros acc; simpl.
  - apply readsOnly_eret.
  - apply readsOnly_ebind; [apply Hf | exact IH].
Qed.

Lemma readsOnly_authOptionOf fuel nodeType recommendedSuffix field option :
  readsOnly (authOptionOf fuel nodeType recommendedSuffix field option).
Proof.
  unfold authOptionOf.
  apply readsOnly_ebind; [apply readsOnly_lift |]. intros cred.
  apply readsOnly_ebind; [| intros; apply readsOnly_eret].
  destruct cred as [cred|]; [| apply readsOnly_eret].
  apply readsOnly_ebind; [apply readsOnly_getCredentialTypeByName |].
  intros credentialType. apply readsOnly_eret.
Qed.

Lemma readsOnly_getNodeAuthOptions fuel nodeType nodeVersion :
  readsOnly (getNodeAuthOptions fuel nodeType nodeVersion).
Proof.
  unfold getNodeAuthOptions.
  destruct nodeType as [nodeType|]; [| apply readsOnly_eret].
  apply readsOnly_ebind; [apply readsOnly_baseText |].
  intros recommendedSuffix.
  apply readsOnly_ebind; [apply readsOnly_lift |]. intros authProp.
  apply readsOnly_ebind; [| intros; apply readsOnly_eret].
  apply readsOnly_foldE. intros options field.
  destruct (prop_options field) as [fieldOptions|]; [| apply readsOnly_eret].
  apply readsOnly_ebind; [| intros; apply readsOnly_eret].
  apply readsOnly_mapE. intros option. apply readsOnly_authOptionOf.
Qed.

Lemma readsOnly_getAuthTypeForNodeCredential fuel nodeType credentialType :
  readsOnly (getAuthTypeForNodeCredential fuel nodeType credentialType).
Proof.
  unfold getAuthTypeForNodeCredential.
  destruct nodeType as [nodeType|]; [| apply readsOnly_eret].
  destruct credentialType as [credentialType|]; [| apply readsOnly_eret].
  apply readsOnly_ebind; [apply readsOnly_lift |]. intros authField.
  apply readsOnly_ebind; [apply readsOnly_getNodeAuthOptions |].
  intros nodeAuthOptions. apply readsOnly_lift.
Qed.

(** C6: with a null node type, [getMainAuthField] returns [null], and
    [getNodeAuthOptions], [getNodeAuthFields],
    [getAllNodeCredentialForAuthType] and [getCredentialsRelatedFields]
    return the empty list, whatever their other arguments. *)
Theorem null_nodeType_neutral :
  (forall fuel, getMainAuthField fuel None = Returns None) /\
  (forall fuel nodeVersion w,
     getNodeAuthOptions fuel None nodeVersion w = (Returns [], w)) /\
  (forall nodeVersion, getNodeAuthFields None nodeVersion = []) /\
  (forall authType, getAllNodeCredentialForAuthType None authType = []) /\
  (forall credentialType,
     getCredentialsRelatedFields None credentialType = []).
Proof. repeat split. Qed.
End EffectProperties.

(** ** The exports and the stores *)

Section ExportProperties.
Context `{JsNumber} `{Constants} `{!Stores} `{TemplateConstants}
        `{UtilityConstants} `{ExecutionData}.

Lemma updateNodeAuthType_cases (fuel : nat) (node : option INodeUi)
    (type : jsstring) (w : World) :
  updateNodeAuthType (S fuel) node type w = (Returns tt, w) \/
  updateNodeAuthType (S fuel) node type w = (Throws, w) \/
  exists n updateInformation,
    node = Some n /\
    update_name updateInformation = node_name n /\
    updateNodeAuthType (S fuel) node type w =
    (Returns tt,
     {| locale := locale w;
        credentialsStore := credentialsStore w;
        nodeTypesStore := nodeTypesStore w;
        workflowsStore :=
          updateNodeProperties (workflowsStore w) updateInformation |}).
Proof.
  unfold updateNodeAuthType.
  destruct node as [n|]; [| left; reflexivity].
  unfold ebind, nodeTypes_getNodeType, lift.
  destruct (getNodeType (nodeTypesStore w) (node_type n)
              (node_typeVersion n)) as [nodeType|];
    [| left; reflexivity].
  destruct (getMainAuthField_outcome fuel (Some nodeType)) as [[r ->] | ->];
    [| right; left; reflexivity].
  destruct r as [nodeAuthField|]; [| left; reflexivity].
  right. right. eexists n, _. split; [reflexivity |].
  split; [| reflexivity]. reflexivity.
Qed.

(** C1, as the code has it.  Every exported function other than
    [getNodeAuthOptions], [getAuthTypeForNodeCredential] and
    [updateNodeAuthType] is pure.  These two leave the state as they found
    it, and give equal results for equal arguments in two states that
    agree on the text of the recommended suffix and on the credential
    types.  [updateNodeAuthType] leaves the locale, the credentials store
    and the node-types store as they were, and changes the workflows store
    by at most one [updateNodeProperties], for the node it was given;
    where it returns, it returns nothing. *)
Theorem store_access (fuel : nat) :
  (forall (f : Exported) (arguments : ArgumentsOf f),
     usesStores f = false -> pure_call (call fuel f arguments)) /\
  (forall nodeType nodeVersion,
     readsOnly (call fuel export_getNodeAuthOptions (nodeType, nodeVersion))) /\
  (forall nodeType credentialType,
     readsOnly (call fuel export_getAuthTypeForNodeCredential
                  (nodeType, credentialType))) /\
  (forall node type w,
     let r := call (S fuel) export_updateNodeAuthType (node, type) w in
     (fst r = Returns tt \/ (fst r = Throws /\ snd r = w)) /\
     locale (snd r) = locale w /\
     credentialsStore (snd r) = credentialsStore w /\
     nodeTypesStore (snd r) = nodeTypesStore w /\
     (workflowsStore (snd r) = workflowsStore w \/
      exists n updateInformation,
        node = Some n /\
        update_name updateInformation = node_name n /\
        workflowsStore (snd r) =
        updateNodeProperties (workflowsStore w) updateInformation)).
Proof.
  split; [| split; [| split]].
  - intros f arguments Huses.
    destruct f; try discriminate Huses; simpl in arguments;
      repeat match goal with
             | p : (_ * _)%type |- _ => destruct p
             end;
      intros w1 w2; split; reflexivity.
  - intros. apply readsOnly_getNodeAuthOptions.
  - intros. apply readsOnly_getAuthTypeForNodeCredential.
  - intros node type w. cbv zeta.
    change (call (S fuel) export_updateNodeAuthType (node, type) w)
      with (updateNodeAuthType (S fuel) node type w).
    destruct (updateNodeAuthType_cases fuel node type w)
      as [-> | [-> | (n & updateInformation & Hn & Hname & ->)]]; simpl.
    + auto 6.
    + auto 6.
    + split; [left; reflexivity |]. do 3 (split; [reflexivity |]). right.
      exists n, updateInformation. auto.
Qed.
End ExportProperties.

(** ** The properties on the example data *)

Section Examples.
#[local] Existing Instance Z_number.
#[local] Existing Instance n8n_constants.
#[local] Existing Instance example_stores.
#[local] Existing Instance n8n_template_constants.
#[local] Existing Instance n8n_utility_constants.
#[local] Existing Instance example_execution_data.
Import Example MoreExample.

(** C1 as stated fails: the result of [getNodeAuthOptions] differs between
    two states of the credentials store, and [updateNodeAuthType] changes
    the workflows store. *)
Lemma exported_functions_not_all_pure :
  ~ pure_call (getNodeAuthOptions 1 (Some slack) None) /\
  ~ pure_call (updateNodeAuthType 1 (Some slackNode) (lit "oAuth2")).
Proof.
  split; intros Hpure.
  - destruct (Hpure plainWorld managedWorld) as [Hresult _].
    vm_compute in Hresult. discriminate.
  - destruct (Hpure plainWorld plainWorld) as [_ Hstate].
    apply (f_equal workflowsStore) in Hstate.
    vm_compute in Hstate. discriminate.
Qed.

(** On the example node type, [getMainAuthField] is pure; two states that
    differ in the workflows store only give the same options, and the state
    is left as it was. *)
Lemma store_access_witness :
  usesStores export_getMainAuthField = false /\
  pure_call (call 1 export_getMainAuthField (Some slack)) /\
  sameReads plainWorld laterWorld /\
  fst (getNodeAuthOptions 1 (Some slack) None plainWorld) =
  fst (getNodeAuthOptions 1 (Some slack) None laterWorld) /\
  snd (getNodeAuthOptions 1 (Some slack) None managedWorld) = managedWorld.
Proof.
  assert (Hsame : sameReads plainWorld laterWorld).
  { split; reflexivity. }
  destruct (store_access 1) as (Hpure & Hoptions & _).
  destruct (Hoptions (Some slack) None) as [Hstate Hresult].
  split; [reflexivity |].
  split; [apply (Hpure export_getMainAuthField (Some slack)); reflexivity |].
  split; [exact Hsame |]. split; [apply Hresult, Hsame | apply Hstate].
Defined.

(** A team resource shared with nobody is in a non-shared state. *)
Lemma projectState_shared_iff_witness :
  In (projectState
        {| homeProject :=
             Some {| project_id := lit "p1"; project_type := lit "team" |};
           sharedWithProjects := Some (Some []) |}
        None) [Owned; Personal; Team].
Proof.
  pose proof (projectState_shared_iff
                {| homeProject :=
                     Some {| project_id := lit "p1";
                             project_type := lit "team" |};
                   sharedWithProjects := Some (Some []) |}
                None) as (_ & Hnot & _).
  apply Hnot. simpl. intros (l & Hl & Hne).
  injection Hl as <-. apply Hne. reflexivity.
Defined.

(** The authentication field of the example node type is an auth field, a
    property of the node type, and matches every version. *)
Lemma getNodeAuthFields_sound_witness :
  In authentication (getNodeAuthFields (Some slack) None) /\
  In authentication (nt_properties slack) /\
  isNodeFieldMatchingNodeVersion authentication None = true.
Proof.
  assert (Hin : In authentication (getNodeAuthFields (Some slack) None)).
  { vm_compute. left. reflexivity. }
  destruct (getNodeAuthFields_sound slack None) as [Hall _].
  destruct (Hall authentication Hin) as (Hprop & _ & Hversion).
  split; [exact Hin |]. split; [exact Hprop | exact Hversion].
Defined.

(** On the node type whose credential depends on a field other than the
    authentication field, the dictionary is built, has an entry for that
    field, and the search returns. *)
Lemma findAlternativeAuthField_lookup_defined_witness :
  dependentAuthFieldValues keyed = Returns keyedValues /\
  In authType (getNodeAuthFields (Some keyed) None) /\
  is_Some (keyedValues !! prop_name authType) /\
  exists r,
    findAlternativeAuthField keyed (getNodeAuthFields (Some keyed) None) =
    Returns r.
Proof.
  assert (Hdeps : dependentAuthFieldValues keyed = Returns keyedValues).
  { vm_compute. reflexivity. }
  assert (Hin : In authType (getNodeAuthFields (Some keyed) None)).
  { vm_compute. left. reflexivity. }
  destruct (findAlternativeAuthField_lookup_defined keyed) as [_ Hbuilt].
  destruct (Hbuilt keyedValues Hdeps) as [Hfields Hreturns].
  destruct (Hfields authType Hin) as [Hdefined _].
  split; [exact Hdeps |]. split; [exact Hin |].
  split; [exact Hdefined | exact Hreturns].
Defined.

(** On the first example node type, whose credentials depend on the
    authentication field only, [getMainAuthField] returns, and the
    credential selected for the auth type [oAuth2] is the first that lists
    it. *)
Lemma getNodeCredentialForSelectedAuthType_first_witness :
  plainDependencies slack /\
  (exists authField, getMainAuthField 1 (Some slack) = Returns authField) /\
  exists result,
    getNodeCredentialForSelectedAuthType 1 slack (lit "oAuth2") =
      Returns result /\
    firstSuch (showsAuthType (prop_name authentication) (lit "oAuth2"))
      (default [] (nt_credentials slack)) result.
Proof.
  assert (Hplain : plainDependencies slack).
  { intros k (credentials & cred & sh & Hcreds & Hcred & Hshow & Hk).
    injection Hcreds as <-.
    destruct Hcred as [<- | [<- | []]]; injection Hshow as <-;
      destruct Hk as [<- | []]; reflexivity. }
  destruct getNodeCredentialForSelectedAuthType_first
    as (_ & Hfirst & Hreturns).
  split; [exact Hplain |]. split; [exact (Hreturns 0 slack Hplain) |].
  apply (Hfirst 1 slack (lit "oAuth2") (Some authentication));
    reflexivity.
Defined.

(** A list of two fields with distinct ids is not stale against itself. *)
Lemma isResourceMapperFieldListStale_same_witness :
  NoDup (map rmf_id [emailField; nameField]) /\
  isResourceMapperFieldListStale [emailField; nameField]
    [emailField; nameField] = false.
Proof.
  assert (Hnd : NoDup (map rmf_id [emailField; nameField])).
  { apply NoDup_ListNoDup. simpl. constructor.
    - simpl. intros [Heq | []]. discriminate.
    - constructor; [intros [] | constructor]. }
  split; [exact Hnd |].
  apply isResourceMapperFieldListStale_same. exact Hnd.
Defined.

(** The name [email] is recovered from its encoding, and returned as it is
    when plain. *)
Lemma parseResourceMapperFieldName_inverts_witness :
  parseResourceMapperFieldName (opening ++ lit "email" ++ closing) =
    Some (lit "email") /\
  parseResourceMapperFieldName (lit "email") = Some (lit "email").
Proof.
  destruct parseResourceMapperFieldName_inverts as [Hencoded Hplain].
  split.
  - apply Hencoded.
    + discriminate.
    + simpl. unfold dquote. intros Hin.
      repeat destruct Hin as [Hin | Hin]; try discriminate; exact Hin.
    + reflexivity.
  - apply Hplain. intros (before & name & rest & Heq & _).
    apply (f_equal (@length N)) in Heq.
    rewrite !length_app in Heq. simpl in Heq. lia.
Defined.

(** The main auth field of the example node type is its authentication
    field. *)
Example getMainAuthField_slack :
  getMainAuthField 1 (Some slack) = Returns (Some authentication).
Proof. reflexivity. Qed.

(** Where the OAuth2 credential type has overwritten properties, its option
    comes first. *)
Example getNodeAuthOptions_managed :
  match fst (getNodeAuthOptions 1 (Some slack) None managedWorld) with
  | Returns options => map nao_value options
  | _ => []
  end = [lit "oAuth2"; lit "accessToken"].
Proof. vm_compute. reflexivity. Qed.

(** The repetition of the pattern is greedy: the group runs to the last
    closing literal of the line. *)
Example parseResourceMapperFieldName_greedy :
  parseResourceMapperFieldName
    (lit "x" ++ opening ++ lit "a" ++ closing ++ lit "b" ++ closing) =
  Some (lit "a" ++ closing ++ lit "b").
Proof. reflexivity. Qed.

(** A field whose id occurs twice with different names makes a list stale
    against itself, the later entry of the map winning. *)
Example isResourceMapperFieldListStale_duplicate_ids :
  isResourceMapperFieldListStale
    [emailField;
     {| rmf_id := lit "email"; rmf_displayName := lit "E-mail";
        rmf_required := true; rmf_defaultMatch := true; rmf_display := true;
        rmf_canBeUsedToMatch := Some true; rmf_type := Some (lit "string") |}]
    [emailField;
     {| rmf_id := lit "email"; rmf_displayName := lit "E-mail";
        rmf_required := true; rmf_defaultMatch := true; rmf_display := true;
        rmf_canBeUsedToMatch := Some true; rmf_type := Some (lit "string") |}]
  = true.
Proof. vm_compute. reflexivity. Qed.
End Examples.

(** ** The rest of the badge component *)

Section BadgeLocationProperties.
Context `{Constants} `{BadgeConstants}.

(** The badge reports a shared state exactly when the member count it
    shows beside it is not zero. *)
Theorem shared_state_iff_members (resource : Resource)
    (personalProject : option Project) :
  isSharedState (projectState resource personalProject) = true <->
  numberOfMembersInHomeTeamProject resource <> 0.
Proof.
  assert (Hs : isShared_truthy (isShared resource) = true <->
               numberOfMembersInHomeTeamProject resource <> 0).
  { unfold isShared, numberOfMembersInHomeTeamProject.
    destruct (sharedWithProjects resource) as [[l|]|]; simpl.
    - destruct l; simpl; split; congruence.
    - split; congruence.
    - split; congruence. }
  rewrite <- Hs. unfold projectState.
  destruct (isOwnHome resource personalProject);
    destruct (isShared_truthy (isShared resource));
    destruct (homeProject resource) as [home|];
    try destruct (str_eqb (project_type home) ProjectTypes_Team);
    simpl; split; congruence.
Qed.

(** The badge links to a project exactly when the resource is a workflow
    whose home project has a non-empty id and is either the user's personal
    project or a team project; the link then goes to the home project. *)
Theorem projectLocation_spec (resource : Resource)
    (personalProject : option Project) (resourceType : jsstring)
    (location : RouteLocation) :
  projectLocation resource personalProject resourceType = Some location <->
  resourceType = ResourceType_Workflow /\
  exists home,
    homeProject resource = Some home /\
    project_id home <> [] /\
    location = {| route_name := VIEWS_PROJECTS_WORKFLOWS;
                  route_projectId := project_id home |} /\
    ((exists personal,
        personalProject = Some personal /\
        project_id home = project_id personal) \/
     project_type home = ProjectTypes_Team).
Proof.
  unfold projectLocation, projectState, isOwnHome. cbv zeta.
  destruct (homeProject resource) as [home|].
  2:{ split.
      - destruct (isShared_truthy (isShared resource)); simpl; discriminate.
      - intros (_ & home & Hhome & _). discriminate. }
  pose proof (str_eqb_true resourceType ResourceType_Workflow) as Htype.
  pose proof (str_eqb_true (project_id home) []) as Hid.
  pose proof (str_eqb_true (project_type home) ProjectTypes_Team) as Hteam.
  assert (Hown :
    (match personalProject with
     | Some personal => str_eqb (project_id home) (project_id personal)
     | None => false
     end) = true <->
    exists personal,
      personalProject = Some personal /\
      project_id home = project_id personal).
  { destruct personalProject as [personal|]; split.
    - intros Heq. exists personal. split; [reflexivity |].
      apply str_eqb_true, Heq.
    - intros (q & Hq & Heq). injection Hq as <-. apply str_eqb_true, Heq.
    - discriminate.
    - intros (q & Hq & _). discriminate. }
  destruct (match personalProject with
            | Some personal => str_eqb (project_id home) (project_id personal)
            | None => false
            end);
    destruct (isShared_truthy (isShared resource));
    destruct (str_eqb (project_type home) ProjectTypes_Team);
    destruct (str_eqb (project_id home) []);
    destruct (str_eqb resourceType ResourceType_Workflow);
    simpl; split;
    try discriminate;
    try (intros Hloc; injection Hloc as <-;
         split; [apply Htype; reflexivity |];
         exists home; split; [reflexivity |];
         split; [intros Hx; apply Hid in Hx; discriminate |];
         split; [reflexivity |];
         first [left; apply Hown; reflexivity
               | right; apply Hteam; reflexivity]);
    try (intros (Hw & home' & Hhome & Hne & Hloc & Hcase);
         injection Hhome as <-;
         first [ apply Htype in Hw; discriminate
               | exfalso; apply Hne, Hid; reflexivity
               | subst location; reflexivity
               | destruct Hcase as [Hc | Hc];
                 [apply Hown in Hc | apply Hteam in Hc]; discriminate ]).
Qed.
End BadgeLocationProperties.

(** ** Names of apps and services *)

Lemma splitOn_cons (sep : N) (s : jsstring) :
  exists w ws, splitOn sep s = w :: ws.
Proof.
  destruct s as [|c s]; simpl; [eauto |].
  destruct (N.eqb c sep); [eauto |].
  destruct (splitOn sep s); eauto.
Qed.

(** Joining the pieces of a split gives the string back. *)
Lemma joinWith_splitOn (sep : N) (s : jsstring) :
  joinWith [sep] (splitOn sep s) = s.
Proof.
  induction s as [|c s IH]; [reflexivity |].
  cbn [splitOn]. destruct (N.eqb c sep) eqn:Ec.
  - apply N.eqb_eq in Ec. subst c.
    destruct (splitOn_cons sep s) as (w & ws & Hs). rewrite Hs in *.
    cbn [joinWith]. cbn [joinWith] in IH. simpl. f_equal. exact IH.
  - destruct (splitOn_cons sep s) as (w & ws & Hs). rewrite Hs in *.
    cbn [joinWith] in *. destruct ws; simpl; f_equal; exact IH.
Qed.

Lemma splitOn_no_sep (sep : N) (s : jsstring) :
  Forall (fun w => ~ In sep w) (splitOn sep s).
Proof.
  induction s as [|c s IH]; simpl.
  - constructor; [intros [] | constructor].
  - destruct (N.eqb c sep) eqn:Ec.
    + constructor; [intros [] | exact IH].
    + apply N.eqb_neq in Ec.
      destruct (splitOn sep s) as [|w ws].
      * constructor; [| constructor]. intros [Hc | []]. congruence.
      * inversion IH as [|? ? Hw Hws]; subst. constructor; [| exact Hws].
        intros [Hc | Hin]; [congruence | exact (Hw Hin)].
Qed.

Lemma splitOn_word (sep : N) (w : jsstring) :
  ~ In sep w -> splitOn sep w = [w].
Proof.
  induction w as [|c w IH]; intros Hw; [reflexivity |].
  simpl. destruct (N.eqb c sep) eqn:Ec.
  - apply N.eqb_eq in Ec. exfalso. apply Hw. left. exact Ec.
  - rewrite IH; [reflexivity |]. intros Hin. apply Hw. right. exact Hin.
Qed.

Lemma splitOn_word_sep (sep : N) (w rest : jsstring) :
  ~ In sep w ->
  splitOn sep (w ++ sep :: rest) = w :: splitOn sep rest.
Proof.
  induction w as [|c w IH]; intros Hw; simpl.
  - rewrite N.eqb_refl. reflexivity.
  - destruct (N.eqb c sep) eqn:Ec.
    + apply N.eqb_eq in Ec. exfalso. apply Hw. left. exact Ec.
    + rewrite IH; [reflexivity |]. intros Hin. apply Hw. right. exact Hin.
Qed.

(** Splitting a join of words without separators gives the words back. *)
Lemma splitOn_joinWith (sep : N) (l : list jsstring) :
  l <> [] ->
  Forall (fun w => ~ In sep w) l ->
  splitOn sep (joinWith [sep] l) = l.
Proof.
  induction l as [|w l IH]; intros Hne Hall; [congruence |].
  inversion Hall as [|? ? Hw Hl]; subst.
  destruct l as [|w' l].
  - simpl. apply splitOn_word, Hw.
  - cbn [joinWith]. cbn [joinWith] in IH. simpl app.
    rewrite splitOn_word_sep by exact Hw.
    f_equal. apply IH; [discriminate | exact Hl].
Qed.

Lemma Forall_filter_keeps {A} (P : A -> Prop) (p : A -> bool) (l : list A) :
  Forall P l -> Forall P (List.filter p l).
Proof.
  induction 1 as [|x l Hx Hl IH]; simpl; [constructor |].
  destruct (p x); [constructor; assumption | exact IH].
Qed.

Lemma filter_filter_same {A} (p : A -> bool) (l : list A) :
  List.filter p (List.filter p l) = List.filter p l.
Proof.
  induction l as [|x l IH]; simpl; [reflexivity |].
  destruct (p x) eqn:Epx; simpl; [rewrite Epx, IH; reflexivity | exact IH].
Qed.

Lemma filter_all {A} (p : A -> bool) (l : list A) :
  (forall x, In x l -> p x = true) -> List.filter p l = l.
Proof.
  induction l as [|x l IH]; intros Hall; simpl; [reflexivity |].
  rewrite (Hall x) by (left; reflexivity). f_equal.
  apply IH. intros y Hy. apply Hall. right. exact Hy.
Qed.

(** The words of a name from which the words rejected by [keep] were
    dropped; a name that loses all its words is the empty name, whose only
    word is the empty one. *)
Lemma words_of_kept (keep : jsstring -> bool) (name : jsstring) :
  splitOn space (joinWith [space] (List.filter keep (splitOn space name))) =
  match List.filter keep (splitOn space name) with
  | [] => [[]]
  | kept => kept
  end.
Proof.
  destruct (List.filter keep (splitOn space name)) as [|w l] eqn:Ekept;
    [reflexivity |].
  apply splitOn_joinWith; [discriminate |].
  rewrite <- Ekept. apply Forall_filter_keeps, splitOn_no_sep.
Qed.

Lemma kept_idempotent (keep : jsstring -> bool) (name : jsstring) :
  keep [] = true ->
  joinWith [space]
    (List.filter keep
       (splitOn space
          (joinWith [space] (List.filter keep (splitOn space name))))) =
  joinWith [space] (List.filter keep (splitOn space name)).
Proof.
  intros Hempty. rewrite words_of_kept.
  destruct (List.filter keep (splitOn space name)) as [|w l] eqn:Ekept.
  - simpl. rewrite Hempty. reflexivity.
  - rewrite <- Ekept, filter_filter_same. reflexivity.
Qed.

(** The words of [getAppNameFromCredType(name)] are the words of [name]
    other than API, OAuth1 and OAuth2, in order; when nothing else is left
    the result is the empty name. *)
Theorem getAppNameFromCredType_words (name : jsstring) :
  splitOn space (getAppNameFromCredType name) =
  match List.filter
          (fun word => negb (includes_str word CRED_KEYWORDS_TO_FILTER))
          (splitOn space name) with
  | [] => [[]]
  | kept => kept
  end /\
  Forall (fun word => ~ In word CRED_KEYWORDS_TO_FILTER)
    (splitOn space (getAppNameFromCredType name)).
Proof.
  unfold getAppNameFromCredType. rewrite words_of_kept. split; [reflexivity |].
  destruct (List.filter _ (splitOn space name)) as [|w l] eqn:Ekept.
  - constructor; [| constructor]. simpl.
    intros [Hx | [Hx | [Hx | []]]]; discriminate.
  - rewrite <- Ekept. apply List.Forall_forall. intros word Hword.
    apply filter_In in Hword. destruct Hword as [_ Hkeep].
    apply negb_true_iff in Hkeep. intros Hin.
    assert (Ht : includes_str word CRED_KEYWORDS_TO_FILTER = true).
    { unfold includes_str. apply existsb_exists. exists word.
      split; [exact Hin | apply str_eqb_refl]. }
    congruence.
Qed.

(** The words of [getAppNameFromNodeName(name)] are the words of [name]
    other than Trigger, in order. *)
Theorem getAppNameFromNodeName_words (name : jsstring) :
  splitOn space (getAppNameFromNodeName name) =
  match List.filter
          (fun word => negb (includes_str word NODE_KEYWORDS_TO_FILTER))
          (splitOn space name) with
  | [] => [[]]
  | kept => kept
  end /\
  Forall (fun word => ~ In word NODE_KEYWORDS_TO_FILTER)
    (splitOn space (getAppNameFromNodeName name)).
Proof.
  unfold getAppNameFromNodeName. rewrite words_of_kept. split; [reflexivity |].
  destruct (List.filter _ (splitOn space name)) as [|w l] eqn:Ekept.
  - constructor; [| constructor]. simpl.
    intros [Hx | []]; discriminate.
  - rewrite <- Ekept. apply List.Forall_forall. intros word Hword.
    apply filter_In in Hword. destruct Hword as [_ Hkeep].
    apply negb_true_iff in Hkeep. intros Hin.
    assert (Ht : includes_str word NODE_KEYWORDS_TO_FILTER = true).
    { unfold includes_str. apply existsb_exists. exists word.
      split; [exact Hin | apply str_eqb_refl]. }
    congruence.
Qed.

(** Both name filters are idempotent. *)
Theorem getAppName_idempotent (name : jsstring) :
  getAppNameFromCredType (getAppNameFromCredType name) =
    getAppNameFromCredType name /\
  getAppNameFromNodeName (getAppNameFromNodeName name) =
    getAppNameFromNodeName name.
Proof.
  unfold getAppNameFromCredType, getAppNameFromNodeName.
  split; apply kept_idempotent; reflexivity.
Qed.

(** A name none of whose words is a keyword is returned as it is, spaces
    included. *)
Theorem getAppName_unchanged (name : jsstring) :
  (Forall (fun word => ~ In word CRED_KEYWORDS_TO_FILTER)
     (splitOn space name) ->
   getAppNameFromCredType name = name) /\
  (Forall (fun word => ~ In word NODE_KEYWORDS_TO_FILTER)
     (splitOn space name) ->
   getAppNameFromNodeName name = name).
Proof.
  assert (Hgen : forall keywords,
    Forall (fun word => ~ In word keywords) (splitOn space name) ->
    joinWith [space]
      (List.filter (fun word => negb (includes_str word keywords))
         (splitOn space name)) = name).
  { intros keywords Hall. rewrite filter_all; [apply joinWith_splitOn |].
    intros word Hword. apply negb_true_iff.
    destruct (includes_str word keywords) eqn:Einc; [| reflexivity].
    exfalso. unfold includes_str in Einc. apply existsb_exists in Einc.
    destruct Einc as (y & Hy & Heq). apply str_eqb_true in Heq. subst y.
    rewrite List.Forall_forall in Hall. exact (Hall word Hword Hy). }
  split; intros Hall; apply Hgen, Hall.
Qed.

(** *** The service name of a trigger node *)

Lemma removeTrigger_eq (s : jsstring) :
  removeTrigger s =
  if startsWithIgnoreCase triggerPattern s
  then drop (length triggerPattern) s
  else
    match s with
    | [] => []
    | c :: s' => c :: removeTrigger s'
    end.
Proof. destruct s; reflexivity. Qed.

Lemma startsWithIgnoreCase_spec (p : jsstring) :
  forall s,
    startsWithIgnoreCase p s = true <->
    exists m rest,
      s = m ++ rest /\
      Forall2 (fun a b => canonicalize a = canonicalize b) p m.
Proof.
  induction p as [|a p IH]; intros s; simpl.
  - split; [| reflexivity]. intros _. exists [], s. split; [reflexivity |].
    constructor.
  - destruct s as [|b s].
    + split; [discriminate |]. intros (m & rest & Hs & Hm).
      inversion Hm; subst. discriminate.
    + destruct (N.eqb (canonicalize a) (canonicalize b)) eqn:Eab.
      * apply N.eqb_eq in Eab. rewrite IH. split.
        -- intros (m & rest & -> & Hm). exists (b :: m), rest.
           split; [reflexivity |]. constructor; assumption.
        -- intros (m & rest & Hs & Hm). inversion Hm as [|? y ? m' Hy Hm']; subst.
           injection Hs as -> ->. exists m', rest. split; [reflexivity | exact Hm'].
      * apply N.eqb_neq in Eab. split; [discriminate |].
        intros (m & rest & Hs & Hm). inversion Hm as [|? y ? m' Hy Hm']; subst.
        injection Hs as -> ->. congruence.
Qed.

Lemma startsWithIgnoreCase_occurrence (m b : jsstring) :
  isTriggerWord m -> startsWithIgnoreCase triggerPattern (m ++ b) = true.
Proof.
  intros Hm. apply startsWithIgnoreCase_spec. exists m, b.
  split; [reflexivity | exact Hm].
Qed.

Lemma removeTrigger_spec (s : jsstring) :
  (exists a m b,
     s = a ++ m ++ b /\
     isTriggerWord m /\
     removeTrigger s = a ++ b /\
     forall a' m' b',
       s = a' ++ m' ++ b' -> isTriggerWord m' -> length a <= length a') \/
  (removeTrigger s = s /\
   forall a m b, s = a ++ m ++ b -> ~ isTriggerWord m).
Proof.
  induction s as [|c s IH]; rewrite removeTrigger_eq.
  - right. split; [reflexivity |]. intros a m b Hs Hm.
    destruct a; [| discriminate]. destruct m; [| discriminate].
    inversion Hm.
  - destruct (startsWithIgnoreCase triggerPattern (c :: s)) eqn:Estart.
    + left. apply startsWithIgnoreCase_spec in Estart.
      destruct Estart as (m & rest & Hs & Hm).
      exists [], m, rest. split; [exact Hs |]. split; [exact Hm |].
      split; [| intros; simpl; lia].
      rewrite Hs. apply Forall2_length in Hm. rewrite Hm.
      rewrite drop_app_length. reflexivity.
    + assert (Hnot : forall m b, c :: s = m ++ b -> ~ isTriggerWord m).
      { intros m b Hs Hm. rewrite Hs in Estart.
        rewrite startsWithIgnoreCase_occurrence in Estart by exact Hm.
        discriminate. }
      destruct IH as [(a & m & b & Hs & Hm & Hr & Hleft) | [Hr Hnone]].
      * left. exists (c :: a), m, b. subst s.
        split; [reflexivity |]. split; [exact Hm |].
        split; [rewrite Hr; reflexivity |].
        intros a' m' b' Hs' Hm'. destruct a' as [|c' a'].
        -- exfalso. exact (Hnot m' b' Hs' Hm').
        -- injection Hs' as -> Hs'. simpl.
           apply le_n_S. exact (Hleft a' m' b' Hs' Hm').
      * right. split; [rewrite Hr; reflexivity |].
        intros a m b Hs Hm. destruct a as [|c' a].
        -- exact (Hnot m b Hs Hm).
        -- injection Hs as -> Hs. exact (Hnone a m b Hs Hm).
Qed.

(** [getTriggerNodeServiceName] removes the leftmost occurrence of the word
    [ trigger], in any letter case and with its leading space, and nothing
    else; a display name without the word is returned as it is. *)
Theorem getTriggerNodeServiceName_spec (displayName : jsstring) :
  (exists a m b,
     displayName = a ++ m ++ b /\
     isTriggerWord m /\
     getTriggerNodeServiceName displayName = a ++ b /\
     forall a' m' b',
       displayName = a' ++ m' ++ b' -> isTriggerWord m' ->
       length a <= length a') \/
  (getTriggerNodeServiceName displayName = displayName /\
   forall a m b, displayName = a ++ m ++ b -> ~ isTriggerWord m).
Proof. apply removeTrigger_spec. Qed.

(** ** Template nodes *)

Section TemplateProperties.
Context `{TemplateConstants}.

(** [filterTemplateNodes] returns nodes of its input, in their order, and
    none whose name is in [TEMPLATES_NODES_FILTER]. *)
Theorem filterTemplateNodes_sound (nodes : list ITemplatesNode) :
  sublist (filterTemplateNodes nodes) nodes /\
  forall node,
    In node (filterTemplateNodes nodes) ->
    In node nodes /\ ~ In (template_name node) TEMPLATES_NODES_FILTER.
Proof.
  assert (Hsub : forall (p : ITemplatesNode -> bool) l,
            sublist (List.filter p l) l).
  { intros p l. induction l as [|x l IH]; simpl; [constructor |].
    destruct (p x); [apply sublist_skip | apply sublist_cons]; exact IH. }
  assert (Hres : sublist
            (if Nat.ltb 0 (length (List.filter
                                     (fun node => negb (isCoreNode node)) nodes))
             then List.filter (fun node => negb (isCoreNode node)) nodes
             else nodes) nodes).
  { destruct (Nat.ltb 0 _); [apply Hsub | reflexivity]. }
  unfold filterTemplateNodes. cbv zeta. split.
  - etransitivity; [apply Hsub | exact Hres].
  - intros node Hnode. apply filter_In in Hnode.
    destruct Hnode as [Hin Hkeep]. split.
    + apply list_elem_of_In. eapply elem_of_sublist; [| exact Hres].
      apply list_elem_of_In. exact Hin.
    + apply negb_true_iff in Hkeep. intros Hname.
      assert (Ht : includes_str (template_name node) TEMPLATES_NODES_FILTER
                   = true).
      { unfold includes_str. apply existsb_exists.
        exists (template_name node). split; [exact Hname | apply str_eqb_refl]. }
      congruence.
Qed.

(** Nodes of the core category are returned only when every node of the
    input is one: as soon as one node is outside the category, no core
    node is returned; otherwise the input is filtered by name alone. *)
Theorem filterTemplateNodes_core (nodes : list ITemplatesNode) :
  ((exists node, In node nodes /\ isCoreNode node = false) ->
   forall node, In node (filterTemplateNodes nodes) -> isCoreNode node = false) /\
  ((forall node, In node nodes -> isCoreNode node = true) ->
   filterTemplateNodes nodes =
   List.filter
     (fun elem =>
        negb (includes_str (template_name elem) TEMPLATES_NODES_FILTER))
     nodes).
Proof.
  unfold filterTemplateNodes. cbv zeta. split.
  - intros (other & Hother & Hcore) node Hnode.
    destruct (List.filter (fun node => negb (isCoreNode node)) nodes)
      as [|x l] eqn:Efilter.
    + exfalso.
      assert (Hin : In other (List.filter
                                (fun node => negb (isCoreNode node)) nodes)).
      { apply filter_In. split; [exact Hother |]. rewrite Hcore. reflexivity. }
      rewrite Efilter in Hin. destruct Hin.
    + change (Nat.ltb 0 (length (x :: l))) with true in Hnode.
      cbv iota in Hnode. apply filter_In in Hnode. destruct Hnode as [Hin _].
      rewrite <- Efilter in Hin. apply filter_In in Hin.
      destruct Hin as [_ Hneg]. apply negb_true_iff in Hneg. exact Hneg.
  - intros Hall.
    assert (Hnil : List.filter (fun node => negb (isCoreNode node)) nodes = []).
    { induction nodes as [|x l IH]; simpl; [reflexivity |].
      rewrite (Hall x) by (left; reflexivity). simpl.
      apply IH. intros node Hnode. apply Hall. right. exact Hnode. }
    rewrite Hnil. reflexivity.
Qed.
End TemplateProperties.

(** ** More of the node-type helpers *)

(** A loop reaches a property of its accumulator when every step keeps it
    and the step over one element of the list establishes it. *)
Lemma foldl_establishes {A B} (P : B -> Prop) (f : B -> A -> B) (l : list A)
    (x : A) :
  (forall b a, P b -> P (f b a)) ->
  In x l ->
  (forall b, P (f b x)) ->
  forall acc, P (foldl f acc l).
Proof.
  intros Hkeep Hx Hadd acc. apply in_split in Hx. destruct Hx as (l1 & l2 & ->).
  rewrite foldl_app. simpl. apply foldl_invariant; [apply Hadd |].
  intros b a _. apply Hkeep.
Qed.

Lemma foldl_ext_all {A B} (f g : B -> A -> B) (l : list A) :
  (forall b a, f b a = g b a) ->
  forall acc, foldl f acc l = foldl g acc l.
Proof.
  intros Hfg. induction l as [|x l IH]; intros acc; simpl; [reflexivity |].
  rewrite Hfg. apply IH.
Qed.

Lemma find_first {A} (p : A -> bool) (l1 l2 : list A) (x : A) :
  p x = true ->
  (forall y, In y l1 -> p y = false) ->
  List.find p (l1 ++ x :: l2) = Some x.
Proof.
  intros Hx. induction l1 as [|y l1 IH]; intros Hl1; simpl.
  - rewrite Hx. reflexivity.
  - rewrite (Hl1 y) by (left; reflexivity).
    apply IH. intros z Hz. apply Hl1. right. exact Hz.
Qed.

Section MoreNodeTypeProperties.
Context `{JsNumber} `{Constants}.

Lemma dict_has_own_keys (sh : DisplayDict) (k : jsstring) :
  dict_has_own sh k = true <-> In k (keys sh).
Proof.
  unfold dict_has_own, keys. rewrite existsb_exists, in_map_iff. split.
  - intros (e & He & Heq). exists e. split; [apply str_eqb_true, Heq | exact He].
  - intros (e & Heq & He). exists e. split; [exact He | apply str_eqb_true, Heq].
Qed.

Lemma dict_has_keys (sh : DisplayDict) (k : jsstring) :
  dict_has sh k = true <-> In k (keys sh) \/ isInherited k = true.
Proof.
  unfold dict_has. rewrite orb_true_iff, dict_has_own_keys. reflexivity.
Qed.

Lemma dict_get_has (sh : DisplayDict) (k : jsstring) (values : list JsValue) :
  dict_get sh k = Some values -> dict_has sh k = true.
Proof.
  intros Hget. unfold dict_has. apply orb_true_iff. left.
  induction sh as [|[k' v] sh IH]; simpl in *; [discriminate |].
  destruct (str_eqb k' k); simpl; [reflexivity | exact (IH Hget)].
Qed.

(** *** [getMainAuthField] *)

(** The main auth field, when there is one, is one of the auth fields of
    the node type, hence one of its properties, and its name is a key of
    the [displayOptions.show] of some credential. *)
Theorem getMainAuthField_is_auth_field (fuel : nat)
    (nodeType : INodeTypeDescription) (f : INodeProperties) :
  getMainAuthField fuel (Some nodeType) = Returns (Some f) ->
  In f (getNodeAuthFields (Some nodeType) None) /\
  In f (nt_properties nodeType) /\
  isCredentialDependency nodeType (prop_name f).
Proof.
  intros Hmain.
  assert (Hin : In f (getNodeAuthFields (Some nodeType) None)).
  { destruct (getMainAuthField_cases fuel nodeType f Hmain)
      as [Hfind | [_ Halt]].
    - apply find_some in Hfind. apply Hfind.
    - apply findAlternativeAuthField_some in Halt.
      destruct Halt as (deps & _ & Hin & _). exact Hin. }
  split; [exact Hin |].
  destruct (getNodeAuthFields_invariant nodeType None) as [Hall _].
  destruct (Hall f Hin) as (Hprop & Hdep & _). split; assumption.
Qed.

(** The first auth field that is named [MAIN_AUTH_FIELD_NAME] and has no
    option of value [none] is the main auth field, whatever the other
    fields are. *)
Theorem getMainAuthField_prefers_authentication (fuel : nat)
    (nodeType : INodeTypeDescription) (f : INodeProperties)
    (before after : list INodeProperties) :
  getNodeAuthFields (Some nodeType) None = before ++ f :: after ->
  isAuthenticationField f = true ->
  (forall g, In g before -> isAuthenticationField g = false) ->
  getMainAuthField (S fuel) (Some nodeType) = Returns (Some f).
Proof.
  intros Hfields Hf Hbefore. unfold getMainAuthField.
  rewrite Hfields, (find_first _ _ _ _ Hf Hbefore).
  unfold obind at 1. rewrite isNodeParameterRequired_true. reflexivity.
Qed.

(** A node type none of whose credentials has [displayOptions.show] has no
    auth fields and no main auth field. *)
Theorem no_credential_dependencies (fuel : nat)
    (nodeType : INodeTypeDescription) (nodeVersion : option number) :
  (forall credentials cred,
     nt_credentials nodeType = Some credentials ->
     In cred credentials ->
     show_of (cred_displayOptions cred) = None) ->
  getNodeAuthFields (Some nodeType) nodeVersion = [] /\
  getMainAuthField fuel (Some nodeType) = Returns None.
Proof.
  intros Hnone.
  assert (Hfields : forall v, getNodeAuthFields (Some nodeType) v = []).
  { intros v. unfold getNodeAuthFields.
    destruct (nt_credentials nodeType) as [credentials|] eqn:Ecreds;
      [| reflexivity].
    destruct (Nat.ltb 0 (length credentials)); [| reflexivity].
    apply (foldl_invariant (fun acc => acc = [])); [reflexivity |].
    intros acc cred Hcred ->.
    rewrite (Hnone credentials cred eq_refl Hcred). reflexivity. }
  split; [apply Hfields |].
  assert (Hdeps : dependentAuthFieldValues nodeType = Returns ∅).
  { unfold dependentAuthFieldValues.
    destruct (nt_credentials nodeType) as [credentials|] eqn:Ecreds;
      [| reflexivity].
    simpl.
    assert (Hgen : forall l (acc : gmap jsstring (list jsstring)),
              (forall cred, In cred l -> In cred credentials) ->
              foldO (fun deps cred =>
                       match show_of (cred_displayOptions cred) with
                       | Some sh => foldO (addDependentValues sh) deps (keys sh)
                       | None => Returns deps
                       end) acc l = Returns acc).
    { induction l as [|c l IH]; intros acc Hl; simpl; [reflexivity |].
      rewrite (Hnone credentials c eq_refl (Hl c (or_introl eq_refl))).
      simpl. apply IH. intros cred Hcred. apply Hl. right. exact Hcred. }
    apply Hgen. auto. }
  unfold getMainAuthField, findAlternativeAuthField.
  rewrite Hfields, Hdeps. reflexivity.
Qed.

(** *** [isRequiredCredential] *)

(** The credential selected for an auth type of the main auth field is a
    required credential. *)
Theorem selected_credential_is_required (fuel : nat)
    (nodeType : INodeTypeDescription) (authType : jsstring)
    (f : INodeProperties) (cred : INodeCredentialDescription) :
  getMainAuthField (S fuel) (Some nodeType) = Returns (Some f) ->
  getNodeCredentialForSelectedAuthType (S fuel) nodeType authType =
    Returns (Some cred) ->
  isRequiredCredential (S fuel) (Some nodeType) cred = Returns true.
Proof.
  intros Hmain Hcred. unfold getNodeCredentialForSelectedAuthType in Hcred.
  rewrite Hmain in Hcred. unfold obind in Hcred.
  destruct (nt_credentials nodeType) as [credentials|]; [| discriminate].
  apply findM_some in Hcred.
  destruct Hcred as [_ Hshown]. unfold credentialShownFor in Hshown.
  unfold isRequiredCredential.
  destruct (show_of (cred_displayOptions cred)) as [sh|]; [| reflexivity].
  rewrite Hmain. unfold obind.
  destruct (dict_get sh (prop_name f)) as [values|] eqn:Eget.
  - rewrite (dict_get_has _ _ _ Eget). reflexivity.
  - destruct (_ && _); discriminate.
Qed.

(** *** [isAuthRelatedParameter] *)

(** A parameter is auth related exactly when one of the auth fields has a
    [displayOptions.show] of which the name of the parameter is a key, or
    in which it names an inherited member, as [constructor] does: the
    [in] operator sees both. *)
Theorem isAuthRelatedParameter_spec (authFields : list INodeProperties)
    (parameter : INodeProperties) :
  isAuthRelatedParameter authFields parameter = true <->
  exists prop sh,
    In prop authFields /\
    show_of (prop_displayOptions prop) = Some sh /\
    (In (prop_name parameter) (keys sh) \/
     isInherited (prop_name parameter) = true).
Proof.
  unfold isAuthRelatedParameter.
  assert (Hgen : forall isRelated,
    foldl (fun isRelated prop =>
             match show_of (prop_displayOptions prop) with
             | Some sh =>
                 if dict_has sh (prop_name parameter) then true else isRelated
             | None => isRelated
             end) isRelated authFields = true <->
    isRelated = true \/
    exists prop sh,
      In prop authFields /\
      show_of (prop_displayOptions prop) = Some sh /\
      (In (prop_name parameter) (keys sh) \/
     isInherited (prop_name parameter) = true)).
  { induction authFields as [|x l IH]; intros isRelated; simpl.
    - split; [auto |]. intros [Hr | (prop & sh & [] & _)]. exact Hr.
    - rewrite IH. split.
      + intros [Hstep | (prop & sh & Hin & Hsh & Hk)].
        * destruct (show_of (prop_displayOptions x)) as [sh|] eqn:Esh;
            [| left; exact Hstep].
          destruct (dict_has sh (prop_name parameter)) eqn:Ehas;
            [| left; exact Hstep].
          right. exists x, sh. split; [left; reflexivity |].
          split; [exact Esh | apply dict_has_keys, Ehas].
        * right. exists prop, sh. auto.
      + intros [Hr | (prop & sh & [<- | Hin] & Hsh & Hk)].
        * left. destruct (show_of (prop_displayOptions x)) as [sh|];
            [| exact Hr].
          destruct (dict_has sh (prop_name parameter)); [reflexivity | exact Hr].
        * left. rewrite Hsh.
          apply dict_has_keys in Hk. rewrite Hk. reflexivity.
        * right. exists prop, sh. auto. }
  rewrite Hgen. split; [intros [Hf | Hex]; [discriminate | exact Hex] | auto].
Qed.
End MoreNodeTypeProperties.

Section AuthFieldProperties.
Context `{JsNumber} `{Constants}.

(** *** [getNodeAuthFields] *)

Lemma includes_ref_true (authFields : list INodeProperties)
    (nodeField : INodeProperties) :
  includes_ref authFields nodeField = true ->
  In (prop_ref nodeField) (map prop_ref authFields).
Proof.
  unfold includes_ref. intros Hinc. apply existsb_exists in Hinc.
  destruct Hinc as (g & Hg & Heq). apply Nat.eqb_eq in Heq.
  rewrite <- Heq. apply in_map. exact Hg.
Qed.

Lemma push_keeps (authFields : list INodeProperties)
    (nodeField : INodeProperties) (nodeVersion : option number) (r : nat) :
  In r (map prop_ref authFields) ->
  In r (map prop_ref
          (if negb (includes_ref authFields nodeField) &&
              isNodeFieldMatchingNodeVersion nodeField nodeVersion
           then authFields ++ [nodeField] else authFields)).
Proof.
  intros Hr. destruct (_ && _); [| exact Hr].
  rewrite map_app. apply in_or_app. left. exact Hr.
Qed.

Lemma push_adds (authFields : list INodeProperties)
    (nodeField : INodeProperties) (nodeVersion : option number) :
  isNodeFieldMatchingNodeVersion nodeField nodeVersion = true ->
  In (prop_ref nodeField)
     (map prop_ref
        (if negb (includes_ref authFields nodeField) &&
            isNodeFieldMatchingNodeVersion nodeField nodeVersion
         then authFields ++ [nodeField] else authFields)).
Proof.
  intros Hv. rewrite Hv.
  destruct (includes_ref authFields nodeField) eqn:Einc; simpl.
  - apply includes_ref_true, Einc.
  - rewrite map_app. apply in_or_app. right. left. reflexivity.
Qed.

Lemma auth_field_listed (nodeType : INodeTypeDescription)
    (nodeVersion : option number) (p : INodeProperties) :
  In p (nt_properties nodeType) ->
  isCredentialDependency nodeType (prop_name p) ->
  isNodeFieldMatchingNodeVersion p nodeVersion = true ->
  In (prop_ref p)
     (map prop_ref (getNodeAuthFields (Some nodeType) nodeVersion)).
Proof.
  intros Hp (credentials & cred & sh & Hcreds & Hcred & Hshow & Hkey) Hv.
  unfold getNodeAuthFields. rewrite Hcreds.
  assert (Hlen : Nat.ltb 0 (length credentials) = true).
  { destruct credentials; [destruct Hcred | reflexivity]. }
  rewrite Hlen.
  set (P := fun acc : list INodeProperties => In (prop_ref p) (map prop_ref acc)).
  assert (Hinner_keeps : forall l acc, P acc ->
    P (foldl (fun authFields nodeField =>
                if negb (includes_ref authFields nodeField) &&
                   isNodeFieldMatchingNodeVersion nodeField nodeVersion
                then authFields ++ [nodeField] else authFields) acc l)).
  { intros l acc Hacc. apply (foldl_invariant P); [exact Hacc |].
    intros b a _ Hb. apply push_keeps, Hb. }
  assert (Hkeys_keeps : forall ks acc, P acc ->
    P (foldl (fun authFields option =>
                let nodeFieldsForName :=
                  List.filter (fun prop => str_eqb (prop_name prop) option)
                    (nt_properties nodeType) in
                foldl (fun authFields nodeField =>
                         if negb (includes_ref authFields nodeField) &&
                            isNodeFieldMatchingNodeVersion nodeField nodeVersion
                         then authFields ++ [nodeField] else authFields)
                  authFields nodeFieldsForName) acc ks)).
  { intros ks acc Hacc. apply (foldl_invariant P); [exact Hacc |].
    intros b a _ Hb. apply Hinner_keeps, Hb. }
  apply (foldl_establishes P _ credentials cred).
  - intros b c Hb. destruct (show_of (cred_displayOptions c)) as [sh'|];
      [| exact Hb].
    apply Hkeys_keeps, Hb.
  - exact Hcred.
  - intros b. rewrite Hshow.
    apply (foldl_establishes P _ (keys sh) (prop_name p)).
    + intros b' a Hb'. apply Hinner_keeps, Hb'.
    + exact Hkey.
    + intros b'. cbv zeta. apply (foldl_establishes P _ _ p).
      * intros b'' a Hb''. apply push_keeps, Hb''.
      * apply filter_In. split; [exact Hp | apply str_eqb_refl].
      * intros b''. apply push_adds, Hv.
Qed.

(** Every property of the node type whose name is a key of the
    [displayOptions.show] of some credential and which matches the node
    version is among the auth fields. *)
Theorem getNodeAuthFields_complete (nodeType : INodeTypeDescription)
    (nodeVersion : option number) (p : INodeProperties) :
  In p (nt_properties nodeType) ->
  isCredentialDependency nodeType (prop_name p) ->
  isNodeFieldMatchingNodeVersion p nodeVersion = true ->
  In (prop_ref p)
     (map prop_ref (getNodeAuthFields (Some nodeType) nodeVersion)).
Proof. apply auth_field_listed. Qed.

(** A node version narrows the auth fields: every auth field found for a
    version is an auth field when no version is given. *)
Theorem getNodeAuthFields_version_narrows (nodeType : INodeTypeDescription)
    (nodeVersion : option number) (f : INodeProperties) :
  In f (getNodeAuthFields (Some nodeType) nodeVersion) ->
  In (prop_ref f) (map prop_ref (getNodeAuthFields (Some nodeType) None)).
Proof.
  intros Hf.
  destruct (getNodeAuthFields_invariant nodeType nodeVersion) as [Hall _].
  destruct (Hall f Hf) as (Hprop & Hdep & _).
  apply auth_field_listed; [exact Hprop | exact Hdep | reflexivity].
Qed.

(** A node version that is falsy ([0] or [NaN]) selects the auth fields
    that no version selects. *)
Theorem getNodeAuthFields_falsy_version (nodeType : option INodeTypeDescription)
    (v : number) :
  number_truthy v = false ->
  getNodeAuthFields nodeType (Some v) = getNodeAuthFields nodeType None.
Proof.
  intros Hv.
  assert (Hsame : forall f,
    isNodeFieldMatchingNodeVersion f (Some v) =
    isNodeFieldMatchingNodeVersion f None).
  { intros f. unfold isNodeFieldMatchingNodeVersion. rewrite Hv. reflexivity. }
  unfold getNodeAuthFields.
  destruct nodeType as [nodeType|]; [| reflexivity].
  destruct (nt_credentials nodeType) as [credentials|]; [| reflexivity].
  destruct (Nat.ltb 0 (length credentials)); [| reflexivity].
  apply foldl_ext_all. intros acc cred.
  destruct (show_of (cred_displayOptions cred)); [| reflexivity].
  apply foldl_ext_all. intros acc' option. cbv zeta.
  apply foldl_ext_all. intros acc'' nodeField. rewrite Hsame. reflexivity.
Qed.

(** *** [getCredentialsRelatedFields] *)

Lemma related_fields_fold (props : list INodeProperties) (f : INodeProperties)
    (ks : list jsstring) :
  forall acc,
    In f (foldl (fun fields option =>
                   fields ++
                   List.filter (fun prop => str_eqb (prop_name prop) option)
                     props) acc ks) <->
    In f acc \/ (In f props /\ In (prop_name f) ks).
Proof.
  induction ks as [|k ks IH]; intros acc; simpl.
  - tauto.
  - rewrite IH, in_app_iff, filter_In, str_eqb_true. intuition (subst; auto).
Qed.

(** The fields related to a credential are the properties of the node type
    whose name is a key of the [displayOptions.show] of the credential;
    there are none when the credential is null or has no such object. *)
Theorem getCredentialsRelatedFields_spec (nodeType : INodeTypeDescription)
    (credentialType : option INodeCredentialDescription) (f : INodeProperties) :
  In f (getCredentialsRelatedFields (Some nodeType) credentialType) <->
  exists cred sh,
    credentialType = Some cred /\
    show_of (cred_displayOptions cred) = Some sh /\
    In f (nt_properties nodeType) /\
    In (prop_name f) (keys sh).
Proof.
  unfold getCredentialsRelatedFields.
  destruct credentialType as [cred|].
  - destruct (show_of (cred_displayOptions cred)) as [sh|] eqn:Eshow.
    + rewrite related_fields_fold. split.
      * intros [[] | [Hp Hk]]. exists cred, sh. auto.
      * intros (c & sh' & Hc & Hsh & Hp & Hk).
        injection Hc as <-. rewrite Eshow in Hsh. injection Hsh as <-. auto.
    + split; [intros [] |].
      intros (c & sh' & Hc & Hsh & _). injection Hc as <-. congruence.
  - split; [intros [] |]. intros (c & sh' & Hc & _). discriminate.
Qed.

(** Every auth field of a node type is a field related to one of its
    credentials. *)
Theorem auth_fields_are_related_fields (nodeType : INodeTypeDescription)
    (nodeVersion : option number) (f : INodeProperties) :
  In f (getNodeAuthFields (Some nodeType) nodeVersion) ->
  exists credentials cred,
    nt_credentials nodeType = Some credentials /\
    In cred credentials /\
    In f (getCredentialsRelatedFields (Some nodeType) (Some cred)).
Proof.
  intros Hf.
  destruct (getNodeAuthFields_invariant nodeType nodeVersion) as [Hall _].
  destruct (Hall f Hf)
    as (Hprop & (credentials & cred & sh & Hcreds & Hcred & Hshow & Hkey) & _).
  exists credentials, cred. split; [exact Hcreds |]. split; [exact Hcred |].
  unfold getCredentialsRelatedFields. rewrite Hshow.
  apply related_fields_fold. right. split; assumption.
Qed.
End AuthFieldProperties.

Section AlternativeFieldProperties.
Context `{JsNumber} `{Constants}.

(** *** [findAlternativeAuthField] *)

Lemma includes_str_In (s : jsstring) (l : list jsstring) :
  includes_str s l = true <-> In s l.
Proof.
  unfold includes_str. rewrite existsb_exists. split.
  - intros (y & Hy & Heq). apply str_eqb_true in Heq. subst y. exact Hy.
  - intros Hs. exists s. split; [exact Hs | apply str_eqb_refl].
Qed.

Lemma allOptionsUsed_true (deps : gmap jsstring (list jsstring))
    (field : INodeProperties) (options : list INodePropertyOptions) :
  forall required,
    allOptionsUsed deps field options required = Returns true ->
    required = true /\
    forall option value,
      In option options ->
      option_value option = Some (VString value) ->
      exists values, deps !! prop_name field = Some values /\ In value values.
Proof.
  induction options as [|o options IH]; intros required Hused; simpl in Hused.
  - injection Hused as ->. split; [reflexivity |]. intros option value [].
  - destruct (option_value o) as [v|] eqn:Ev.
    + destruct v as [| | | |value|];
        try (destruct (IH required Hused) as [Hreq Hall];
             split; [exact Hreq |];
             intros option value' [<- | Hin] Hvalue;
             [congruence | exact (Hall option value' Hin Hvalue)]).
      destruct (deps !! prop_name field) as [values|] eqn:Edeps;
        [| discriminate].
      destruct (IH _ Hused) as [Hreq Hall].
      destruct (includes_str value values) eqn:Einc; [| discriminate].
      simpl in Hreq. split; [exact Hreq |].
      intros option value' [<- | Hin] Hvalue.
      * rewrite Ev in Hvalue. injection Hvalue as <-.
        exists values. split; [reflexivity | apply includes_str_In, Einc].
      * destruct (Hall option value' Hin Hvalue) as (values' & Hv' & Hin').
        exists values'. split; [exact Hv' | exact Hin'].
    + destruct (IH required Hused) as [Hreq Hall].
      split; [exact Hreq |].
      intros option value' [<- | Hin] Hvalue;
        [congruence | exact (Hall option value' Hin Hvalue)].
Qed.

(** Where the values under the key [k] come from after a step. *)
Lemma addDependentValues_values (sh : DisplayDict) (k s fieldName : jsstring)
    (deps deps' : gmap jsstring (list jsstring)) :
  addDependentValues sh deps fieldName = Returns deps' ->
  In s (default [] (deps' !! k)) ->
  In s (default [] (deps !! k)) \/
  (k = fieldName /\
   In s (map (fun val => if truthy val then ToString val else [])
           (default [] (dict_get sh k)))).
Proof.
  unfold addDependentValues. intros Hadd Hs.
  destruct (decide (fieldName = k)) as [->|Hne].
  - destruct (deps !! k) as [current|] eqn:Ecur.
    + injection Hadd as <-. rewrite lookup_insert_eq in Hs. simpl in Hs.
      apply in_app_iff in Hs. destruct Hs as [Hs | Hs]; [left | right]; auto.
    + destruct (isInherited k); [discriminate |].
      injection Hadd as <-. rewrite lookup_insert_eq in Hs. simpl in Hs.
      right. auto.
  - left.
    destruct (deps !! fieldName) as [current|].
    + injection Hadd as <-. rewrite lookup_insert_ne in Hs by exact Hne.
      exact Hs.
    + destruct (isInherited fieldName); [discriminate |].
      injection Hadd as <-. rewrite lookup_insert_ne in Hs by exact Hne.
      exact Hs.
Qed.

Lemma addDependentValues_loop_values (sh : DisplayDict) (k s : jsstring)
    (ks : list jsstring) (deps deps' : gmap jsstring (list jsstring)) :
  foldO (addDependentValues sh) deps ks = Returns deps' ->
  In s (default [] (deps' !! k)) ->
  In s (default [] (deps !! k)) \/
  (In k ks /\
   In s (map (fun val => if truthy val then ToString val else [])
           (default [] (dict_get sh k)))).
Proof.
  intros Hloop.
  apply (foldO_invariant
           (fun d : gmap jsstring (list jsstring) =>
              In s (default [] (d !! k)) ->
              In s (default [] (deps !! k)) \/
              (In k ks /\
               In s (map (fun val => if truthy val then ToString val else [])
                       (default [] (dict_get sh k)))))
           (addDependentValues sh) ks deps deps'); [auto | | exact Hloop].
  intros d fieldName d' Hfield Hd Hadd Hs.
  destruct (addDependentValues_values _ _ _ _ _ _ Hadd Hs) as [Hold | [-> Hnew]].
  - apply Hd, Hold.
  - right. split; assumption.
Qed.

Lemma dependent_values_sources (nodeType : INodeTypeDescription)
    (deps : gmap jsstring (list jsstring)) (k s : jsstring) :
  dependentAuthFieldValues nodeType = Returns deps ->
  In s (default [] (deps !! k)) ->
  exists credentials cred sh,
    nt_credentials nodeType = Some credentials /\
    In cred credentials /\
    show_of (cred_displayOptions cred) = Some sh /\
    In k (keys sh) /\
    In s (map (fun val => if truthy val then ToString val else [])
            (default [] (dict_get sh k))).
Proof.
  unfold dependentAuthFieldValues.
  destruct (nt_credentials nodeType) as [credentials|]; simpl.
  - intros Hdeps.
    apply (foldO_invariant
             (fun d : gmap jsstring (list jsstring) =>
                In s (default [] (d !! k)) ->
                exists credentials' cred sh,
                  Some credentials = Some credentials' /\
                  In cred credentials' /\
                  show_of (cred_displayOptions cred) = Some sh /\
                  In k (keys sh) /\
                  In s (map (fun val => if truthy val then ToString val else [])
                          (default [] (dict_get sh k))))
             (fun deps cred =>
                match show_of (cred_displayOptions cred) with
                | Some sh => foldO (addDependentValues sh) deps (keys sh)
                | None => Returns deps
                end) credentials (∅ : gmap jsstring (list jsstring)) deps);
      [| | exact Hdeps].
    + rewrite lookup_empty. intros [].
    + intros b c b' Hc Hb Hstep Hs.
      destruct (show_of (cred_displayOptions c)) as [sh|] eqn:Eshow.
      * destruct (addDependentValues_loop_values _ _ _ _ _ _ Hstep Hs)
          as [Hold | [Hk Hnew]]; [apply Hb, Hold |].
        exists credentials, c, sh. auto 6.
      * injection Hstep as <-. apply Hb, Hs.
  - intros Hdeps. injection Hdeps as <-. rewrite lookup_empty. intros [].
Qed.

(** The field found as alternative main auth field is one of the fields
    searched, and each string value among its options is the printed form
    of a value that some credential lists for this field in its
    [displayOptions.show] (the empty string for a falsy value). *)
Theorem findAlternativeAuthField_values_used (nodeType : INodeTypeDescription)
    (fields : list INodeProperties) (f : INodeProperties) :
  findAlternativeAuthField nodeType fields = Returns (Some f) ->
  In f fields /\
  forall option value,
    In option (default [] (prop_options f)) ->
    option_value option = Some (VString value) ->
    exists credentials cred sh values v,
      nt_credentials nodeType = Some credentials /\
      In cred credentials /\
      show_of (cred_displayOptions cred) = Some sh /\
      dict_get sh (prop_name f) = Some values /\
      In v values /\
      value = (if truthy v then ToString v else []).
Proof.
  intros Hfind. apply findAlternativeAuthField_some in Hfind.
  destruct Hfind as (deps & Hdeps & Hin & Hused).
  split; [exact Hin |]. intros option value Hoption Hvalue.
  apply allOptionsUsed_true in Hused. destruct Hused as [_ Hall].
  destruct (Hall option value Hoption Hvalue) as (values & Hlook & Hval).
  assert (Hs : In value (default [] (deps !! prop_name f))).
  { rewrite Hlook. exact Hval. }
  destruct (dependent_values_sources nodeType deps _ _ Hdeps Hs)
    as (credentials & cred & sh & Hcreds & Hcred & Hsh & Hk & Hsrc).
  apply in_map_iff in Hsrc. destruct Hsrc as (v & Hv & Hvin).
  destruct (dict_get sh (prop_name f)) as [vals|] eqn:Eget; [| destruct Hvin].
  exists credentials, cred, sh, vals, v. simpl in Hvin. auto 8.
Qed.
End AlternativeFieldProperties.

(** ** Authentication options *)

Section AuthOptionProperties.
Context `{JsNumber} `{Constants} `{!Stores}.

(** *** The loop that moves the recommended options to the front *)

Lemma moveRecommended_from (recommendedSuffix : jsstring)
    (rest : list NodeAuthenticationOption) :
  forall moved kept,
    moveRecommended recommendedSuffix (length rest) (length (moved ++ kept))
      (moved ++ kept ++ rest) =
    rev (List.filter (isRecommended recommendedSuffix) rest) ++ moved ++ kept ++
    List.filter (fun item => negb (isRecommended recommendedSuffix item)) rest.
Proof.
  induction rest as [|x rest IH]; intros moved kept.
  - simpl. reflexivity.
  - cbn [length moveRecommended].
    assert (Hlook : (moved ++ kept ++ x :: rest) !! length (moved ++ kept)
                    = Some x).
    { rewrite app_assoc. apply list_lookup_middle. reflexivity. }
    rewrite Hlook.
    assert (Hdel : delete (length (moved ++ kept)) (moved ++ kept ++ x :: rest)
                   = moved ++ kept ++ rest).
    { rewrite !app_assoc. apply delete_middle. }
    rewrite Hdel. cbn [List.filter].
    change (str_includes recommendedSuffix (nao_name x))
      with (isRecommended recommendedSuffix x).
    destruct (isRecommended recommendedSuffix x); cbn [negb].
    + change (x :: moved ++ kept ++ rest) with ((x :: moved) ++ kept ++ rest).
      change (S (length (moved ++ kept))) with (length ((x :: moved) ++ kept)).
      rewrite IH. cbn [rev]. rewrite <- !app_assoc. reflexivity.
    + replace (moved ++ kept ++ x :: rest)
        with (moved ++ (kept ++ [x]) ++ rest)
        by (rewrite <- !app_assoc; reflexivity).
      replace (S (length (moved ++ kept)))
        with (length (moved ++ (kept ++ [x])))
        by (rewrite !length_app; simpl; lia).
      rewrite IH. rewrite <- !app_assoc. reflexivity.
Qed.

Lemma moveRecommended_all (recommendedSuffix : jsstring)
    (options : list NodeAuthenticationOption) :
  moveRecommended recommendedSuffix (length options) 0 options =
  rev (List.filter (isRecommended recommendedSuffix) options) ++
  List.filter (fun item => negb (isRecommended recommendedSuffix item)) options.
Proof.
  exact (moveRecommended_from recommendedSuffix options [] []).
Qed.

(** After the loop, the options whose name contains the suffix come first,
    the last of them in front, and the others follow in their order. *)
Theorem moveRecommended_result (recommendedSuffix : jsstring)
    (options : list NodeAuthenticationOption) :
  moveRecommended recommendedSuffix (length options) 0 options =
  rev (List.filter (isRecommended recommendedSuffix) options) ++
  List.filter (fun item => negb (isRecommended recommendedSuffix item)) options.
Proof. apply moveRecommended_all. Qed.

Lemma moveRecommended_In (recommendedSuffix : jsstring)
    (options : list NodeAuthenticationOption) (o : NodeAuthenticationOption) :
  In o (moveRecommended recommendedSuffix (length options) 0 options) <->
  In o options.
Proof.
  rewrite moveRecommended_all.
  rewrite in_app_iff, <- in_rev, !filter_In.
  destruct (isRecommended recommendedSuffix o); simpl; intuition congruence.
Qed.

(** *** [getNodeAuthOptions] *)

Lemma filter_none {A} (l : list A) : List.filter (fun _ => false) l = [].
Proof. induction l; simpl; auto. Qed.

(** A node type without a main auth field has no authentication options. *)
Theorem getNodeAuthOptions_without_main_field (fuel : nat)
    (nodeType : INodeTypeDescription) (nodeVersion : option number)
    (w : World) :
  getMainAuthField fuel (Some nodeType) = Returns None ->
  getNodeAuthOptions fuel (Some nodeType) nodeVersion w = (Returns [], w).
Proof.
  intros Hmain. unfold getNodeAuthOptions, ebind, locale_baseText, lift.
  rewrite Hmain. rewrite filter_none. reflexivity.
Qed.

End AuthOptionProperties.

Section AuthOptionSources.
Context `{JsNumber} `{Constants} `{!Stores}.

Lemma mapE_sources {A B} (f : A -> Eff B) (l : list A) (w : World) :
  (forall x y w', f x w = (Returns y, w') -> w' = w) ->
  forall ys w',
    mapE f l w = (Returns ys, w') ->
    w' = w /\
    forall y, In y ys -> exists x, In x l /\ f x w = (Returns y, w).
Proof.
  intros Hf. induction l as [|x l IH]; intros ys w' Hmap; simpl in Hmap.
  - unfold eret in Hmap. injection Hmap as <- <-.
    split; [reflexivity | intros y []].
  - unfold ebind at 1 in Hmap.
    destruct (f x w) as [[y| |] w1] eqn:Ex; try discriminate.
    pose proof (Hf x y w1 Ex) as ->.
    unfold ebind at 1 in Hmap.
    destruct (mapE f l w) as [[ys'| |] w2] eqn:El; try discriminate.
    destruct (IH ys' w2 eq_refl) as [-> Hys'].
    unfold eret in Hmap. injection Hmap as <- <-.
    split; [reflexivity |]. intros z [<- | Hz].
    + exists x. split; [left; reflexivity | exact Ex].
    + destruct (Hys' z Hz) as (x' & Hx' & Hfx').
      exists x'. split; [right; exact Hx' | exact Hfx'].
Qed.

Lemma foldE_keeps {A B} (P : B -> Prop) (f : B -> A -> Eff B) (l : list A)
    (w : World) :
  (forall acc x acc' w',
     In x l -> P acc -> f acc x w = (Returns acc', w') -> P acc' /\ w' = w) ->
  forall acc r w',
    P acc -> foldE f acc l w = (Returns r, w') -> P r /\ w' = w.
Proof.
  induction l as [|x l IH]; intros Hf acc r w' Hacc Hfold; simpl in Hfold.
  - unfold eret in Hfold. injection Hfold as <- <-. split; [exact Hacc | reflexivity].
  - unfold ebind at 1 in Hfold.
    destruct (f acc x w) as [[acc'| |] w1] eqn:Ex; try discriminate.
    destruct (Hf acc x acc' w1 (or_introl eq_refl) Hacc Ex) as [Hacc' ->].
    apply (IH (fun a y a' w2 Hy => Hf a y a' w2 (or_intror Hy)) acc' r w' Hacc'
              Hfold).
Qed.

Lemma authOptionOf_result (fuel : nat) (nodeType : INodeTypeDescription)
    (field : INodeProperties) (option : INodePropertyOptions) (w w' : World)
    (o : NodeAuthenticationOption) :
  authOptionOf fuel nodeType
    (baseText (locale w) recommendedAuthTypeSuffixKey) field option w =
    (Returns o, w') ->
  optionOf w field option o /\ w' = w.
Proof.
  unfold authOptionOf, ebind, lift, eret, credentials_getCredentialTypeByName,
    optionOf.
  destruct (getNodeCredentialForSelectedAuthType fuel nodeType _)
    as [[cred|]| |]; try discriminate.
  - intros Heq. injection Heq as <- <-. simpl.
    destruct (_ && _); auto.
  - intros Heq. injection Heq as <- <-. simpl. auto.
Qed.

(** Every option that [getNodeAuthOptions] returns comes from an option of
    an auth field that has the name of the main auth field: it has the
    printed value of that option (the empty string when the option has no
    value), the display options of the field, and the name of the option,
    with or without the recommended suffix after a space. *)
Theorem getNodeAuthOptions_sources (fuel : nat)
    (nodeType : INodeTypeDescription) (nodeVersion : option number)
    (w w' : World) (options : list NodeAuthenticationOption)
    (o : NodeAuthenticationOption) :
  getNodeAuthOptions fuel (Some nodeType) nodeVersion w =
    (Returns options, w') ->
  In o options ->
  exists mainField field option,
    getMainAuthField fuel (Some nodeType) = Returns (Some mainField) /\
    In field (getNodeAuthFields (Some nodeType) nodeVersion) /\
    prop_name field = prop_name mainField /\
    In option (default [] (prop_options field)) /\
    optionOf w field option o.
Proof.
  unfold getNodeAuthOptions. unfold ebind at 1, locale_baseText.
  unfold ebind at 1, lift.
  destruct (getMainAuthField fuel (Some nodeType)) as [authProp| |];
    try discriminate.
  unfold ebind at 1.
  set (authProps := List.filter _ (getNodeAuthFields (Some nodeType) nodeVersion)).
  set (P := fun opts : list NodeAuthenticationOption =>
              forall o, In o opts ->
                exists field option,
                  In field authProps /\
                  In option (default [] (prop_options field)) /\
                  optionOf w field option o).
  destruct (foldE _ [] authProps w) as [[opts| |] w1] eqn:Efold;
    try discriminate.
  assert (HP : P opts /\ w1 = w).
  { pose proof (fun Hstep Hnil =>
                  foldE_keeps P _ authProps w Hstep [] opts w1 Hnil Efold)
      as Hkeeps.
    apply Hkeeps; clear Hkeeps.
    - intros acc field acc' w2 Hfield Hacc Hstep.
      destruct (prop_options field) as [fieldOptions|] eqn:Eopts.
      + unfold ebind in Hstep.
        destruct (mapE (authOptionOf fuel nodeType
                          (baseText (locale w) recommendedAuthTypeSuffixKey)
                          field) fieldOptions w)
          as [[mapped| |] w3] eqn:Emap; try discriminate.
        apply mapE_sources in Emap.
        2:{ intros x y w4 Hx. apply authOptionOf_result in Hx. apply Hx. }
        destruct Emap as [-> Hmapped].
        unfold eret in Hstep. injection Hstep as <- <-.
        split; [| reflexivity].
        intros o' Ho'. apply in_app_iff in Ho'. destruct Ho' as [Ho' | Ho'].
        * apply Hacc, Ho'.
        * destruct (Hmapped o' Ho') as (option & Hoption & Hres).
          apply authOptionOf_result in Hres.
          exists field, option. rewrite Eopts. simpl.
          split; [exact Hfield |]. split; [exact Hoption | apply Hres].
      + unfold eret in Hstep. injection Hstep as <- <-.
        split; [exact Hacc | reflexivity].
    - intros o' []. }
  destruct HP as [HP ->].
  unfold eret. intros Heq Ho. injection Heq as <- <-.
  apply moveRecommended_In in Ho.
  destruct (HP o Ho) as (field & option & Hfield & Hoption & Hres).
  unfold authProps in Hfield. apply filter_In in Hfield.
  destruct Hfield as [Hfield Hname].
  destruct authProp as [mainField|]; [| discriminate].
  apply str_eqb_true in Hname.
  exists mainField, field, option. auto 6.
Qed.

(** *** [getAuthTypeForNodeCredential] *)

(** The auth type found for a credential is one of the options of
    [getNodeAuthOptions], and the [displayOptions.show] of the credential
    lists its value under the name of the main auth field. *)
Theorem getAuthTypeForNodeCredential_sound (fuel : nat)
    (nodeType : INodeTypeDescription)
    (credentialType : INodeCredentialDescription) (w w' : World)
    (o : NodeAuthenticationOption) :
  getAuthTypeForNodeCredential fuel (Some nodeType) (Some credentialType) w =
    (Returns (Some o), w') ->
  exists authField options,
    getMainAuthField fuel (Some nodeType) = Returns authField /\
    fst (getNodeAuthOptions fuel (Some nodeType) None w) = Returns options /\
    In o options /\
    showsAuthType (match authField with
                   | Some f => prop_name f
                   | None => []
                   end) (nao_value o) credentialType.
Proof.
  unfold getAuthTypeForNodeCredential. unfold ebind at 1, lift.
  destruct (getMainAuthField fuel (Some nodeType)) as [authField| |] eqn:Emain;
    try discriminate.
  unfold ebind at 1.
  destruct (getNodeAuthOptions fuel (Some nodeType) None w)
    as [[options| |] w1] eqn:Eopts; try discriminate.
  intros Heq. injection Heq as Hfind _.
  apply findM_some in Hfind. destruct Hfind as [Hin Hshown].
  exists authField, options. split; [reflexivity |].
  split; [reflexivity |]. split; [exact Hin |].
  apply credentialShownFor_spec, Hshown.
Qed.

(** *** [updateNodeAuthType] *)

(** When the node type of the node is known and has a main auth field,
    [updateNodeAuthType] sends one update to the workflows store: it names
    the node, sets the parameter of the main auth field to the given type
    and keeps every other parameter of the node. *)
Theorem updateNodeAuthType_update (fuel : nat) (node : INodeUi)
    (type : jsstring) (w : World) (nodeType : INodeTypeDescription)
    (f : INodeProperties) :
  getNodeType (nodeTypesStore w) (node_type node) (node_typeVersion node) =
    Some nodeType ->
  getMainAuthField fuel (Some nodeType) = Returns (Some f) ->
  exists updateInformation,
    updateNodeAuthType fuel (Some node) type w =
    (Returns tt,
     {| locale := locale w;
        credentialsStore := credentialsStore w;
        nodeTypesStore := nodeTypesStore w;
        workflowsStore :=
          updateNodeProperties (workflowsStore w) updateInformation |}) /\
    update_name updateInformation = node_name node /\
    update_parameters updateInformation !! prop_name f = Some (VString type) /\
    forall k,
      k <> prop_name f ->
      update_parameters updateInformation !! k = node_parameters node !! k.
Proof.
  intros Htype Hmain. eexists. split.
  - unfold updateNodeAuthType, ebind, nodeTypes_getNodeType, lift.
    rewrite Htype, Hmain. reflexivity.
  - simpl. split; [reflexivity |]. split.
    + apply lookup_insert_eq.
    + intros k Hk. apply lookup_insert_ne. congruence.
Qed.
End AuthOptionSources.

(** ** More on resource-mapper fields *)

Lemma dotStarClosing_complete (cap rest : jsstring) :
  forallb dot cap = true ->
  exists cap', dotStarClosing (cap ++ closing ++ rest) = Some cap'.
Proof.
  induction cap as [|c cap IH]; intros Hdot.
  - change ([] ++ closing ++ rest) with (dquote :: 93%N :: rest).
    cbn [dotStarClosing].
    change (startsWith closing (dquote :: 93%N :: rest)) with true.
    match goal with
    | |- exists _, match ?x with Some _ => _ | None => _ end = _ =>
        destruct x
    end; eauto.
  - simpl in Hdot. apply andb_true_iff in Hdot. destruct Hdot as [Hc Hdot].
    destruct (IH Hdot) as [cap' Hcap'].
    change ((c :: cap) ++ closing ++ rest) with (c :: (cap ++ closing ++ rest)).
    cbn [dotStarClosing]. rewrite Hc, Hcap'. eauto.
Qed.

Lemma matchHere_complete (name rest : jsstring) :
  name <> [] ->
  forallb dot name = true ->
  exists cap, matchHere (opening ++ name ++ closing ++ rest) = Some cap.
Proof.
  intros Hne Hdot. unfold matchHere. rewrite after_app.
  destruct name as [|c name]; [congruence |].
  simpl in Hdot. apply andb_true_iff in Hdot. destruct Hdot as [Hc Hdot].
  change ((c :: name) ++ closing ++ rest) with (c :: (name ++ closing ++ rest)).
  unfold dotPlusClosing. rewrite Hc.
  destruct (dotStarClosing_complete name rest Hdot) as [cap' ->]. eauto.
Qed.

Lemma regex_match_eq (s : jsstring) :
  regex_match s =
  match matchHere s with
  | Some cap => Some [opening ++ cap ++ closing; cap]
  | None =>
      match s with
      | [] => None
      | _ :: s' => regex_match s'
      end
  end.
Proof. destruct s; reflexivity. Qed.

Lemma regex_match_complete (s : jsstring) :
  hasEncodedName s -> exists m, regex_match s = Some m.
Proof.
  intros (before & name & rest & -> & Hne & Hdot).
  induction before as [|c before IH].
  - destruct (matchHere_complete name rest Hne Hdot) as [cap Hcap].
    change ([] ++ opening ++ name ++ closing ++ rest)
      with (opening ++ name ++ closing ++ rest).
    rewrite regex_match_eq, Hcap. eauto.
  - rewrite regex_match_eq.
    destruct (matchHere ((c :: before) ++ opening ++ name ++ closing ++ rest));
      [eauto | exact IH].
Qed.

Lemma regex_match_shape (s : jsstring) :
  forall m,
    regex_match s = Some m ->
    exists before cap rest,
      m = [opening ++ cap ++ closing; cap] /\
      s = before ++ opening ++ cap ++ closing ++ rest /\
      cap <> [] /\ forallb dot cap = true.
Proof.
  induction s as [|c s IH]; intros m Hm; rewrite regex_match_eq in Hm.
  - destruct (matchHere []) as [cap|] eqn:E; [| discriminate].
    injection Hm as <-.
    destruct (matchHere_sound _ _ E) as (rest & Hs & Hne & Hdot).
    exists [], cap, rest. auto.
  - destruct (matchHere (c :: s)) as [cap|] eqn:E.
    + injection Hm as <-.
      destruct (matchHere_sound _ _ E) as (rest & Hs & Hne & Hdot).
      exists [], cap, rest. auto.
    + destruct (IH m Hm) as (before & cap & rest & -> & -> & Hne & Hdot).
      exists (c :: before), cap, rest. auto.
Qed.

(** [parseResourceMapperFieldName] never returns [undefined]; on a string
    that holds an encoded name, it returns a non-empty text without line
    terminators that stands in the string between the opening and the
    closing literal. *)
Theorem parseResourceMapperFieldName_group (fullName : jsstring) :
  exists fieldName,
    parseResourceMapperFieldName fullName = Some fieldName /\
    (hasEncodedName fullName ->
     fieldName <> [] /\
     forallb dot fieldName = true /\
     exists before rest,
       fullName = before ++ opening ++ fieldName ++ closing ++ rest).
Proof.
  unfold parseResourceMapperFieldName.
  destruct (regex_match fullName) as [m|] eqn:Em.
  - destruct (regex_match_shape _ _ Em)
      as (before & cap & rest & -> & Hs & Hne & Hdot).
    exists cap. split; [reflexivity |]. intros _.
    split; [exact Hne |]. split; [exact Hdot |]. exists before, rest. exact Hs.
  - exists fullName. split; [reflexivity |]. intros Henc.
    destruct (regex_match_complete _ Henc) as [m Hm]. congruence.
Qed.

(** A field is never a matching field while the selector of matching
    columns is hidden.  A field that holds an encoded name is a matching
    field exactly when the selector is shown and the name between the
    literals that the pattern finds is among the matching fields; for the
    encoding of a name, that name is the name encoded.  A field with
    nothing encoded in it is a matching field exactly when it is not
    empty, the selector is shown and the field itself is among the
    matching fields.  Missing matching fields count as none. *)
Theorem isMatchingField_spec (matchingFields : option (list jsstring))
    (showMatchingColumnsSelector : bool) :
  (forall field, isMatchingField field matchingFields false = false) /\
  (forall field,
     hasEncodedName field ->
     exists before name rest,
       field = before ++ opening ++ name ++ closing ++ rest /\
       name <> [] /\
       forallb dot name = true /\
       parseResourceMapperFieldName field = Some name /\
       isMatchingField field matchingFields showMatchingColumnsSelector =
       showMatchingColumnsSelector &&
       includes_str name (default [] matchingFields)) /\
  (forall name,
     name <> [] ->
     forallb dot name = true ->
     isMatchingField (opening ++ name ++ closing) matchingFields
       showMatchingColumnsSelector =
     showMatchingColumnsSelector &&
     includes_str name (default [] matchingFields)) /\
  (forall field,
     ~ hasEncodedName field ->
     isMatchingField field matchingFields showMatchingColumnsSelector =
     negb (str_eqb field []) && showMatchingColumnsSelector &&
     includes_str field (default [] matchingFields)).
Proof.
  assert (Hnonempty : forall name : jsstring,
            name <> [] -> str_eqb name [] = false).
  { intros name Hne. destruct (str_eqb name []) eqn:E; [| reflexivity].
    apply str_eqb_true in E. congruence. }
  split; [| split; [| split]].
  - intros field. unfold isMatchingField.
    destruct (parseResourceMapperFieldName field) as [fieldName|];
      [| reflexivity].
    destruct (negb (str_eqb fieldName [])); reflexivity.
  - intros field Henc. unfold isMatchingField, parseResourceMapperFieldName.
    destruct (regex_match field) as [m|] eqn:Em.
    + destruct (regex_match_shape _ _ Em)
        as (before & cap & rest & -> & Hs & Hne & Hdot).
      exists before, cap, rest.
      change (last [opening ++ cap ++ closing; cap]) with (Some cap).
      cbv beta iota. rewrite (Hnonempty cap Hne). auto.
    + destruct (regex_match_complete _ Henc) as [m Hm]. congruence.
  - intros name Hne Hdot. unfold isMatchingField.
    rewrite (parse_encoded name Hne Hdot), (Hnonempty name Hne). reflexivity.
  - intros field Hno. unfold isMatchingField, parseResourceMapperFieldName.
    destruct (regex_match field) as [m|] eqn:Em.
    + exfalso. apply Hno. eapply regex_match_sound. exact Em.
    + destruct (str_eqb field []); reflexivity.
Qed.

(** *** Staleness of a field list *)

Lemma newFieldsMap_sound (l : list ResourceMapperField) :
  forall (m : gmap jsstring ResourceMapperField) k f,
    foldl (fun (m : gmap jsstring ResourceMapperField) field =>
             <[rmf_id field := field]> m) m l !! k = Some f ->
    (In f l /\ rmf_id f = k) \/ m !! k = Some f.
Proof.
  induction l as [|x l IH]; intros m k f Hk; simpl in Hk.
  - right. exact Hk.
  - destruct (IH _ _ _ Hk) as [[Hin Hid] | Hm].
    + left. split; [right; exact Hin | exact Hid].
    + destruct (decide (rmf_id x = k)) as [Heq | Hne].
      * rewrite <- Heq, lookup_insert_eq in Hm. injection Hm as <-.
        left. split; [left; reflexivity | exact Heq].
      * rewrite lookup_insert_ne in Hm by exact Hne. right. exact Hm.
Qed.

Lemma newFieldsMap_spec (l : list ResourceMapperField) (k : jsstring)
    (f : ResourceMapperField) :
  NoDup (map rmf_id l) ->
  newFieldsMap l !! k = Some f <-> In f l /\ rmf_id f = k.
Proof.
  intros Hnd. unfold newFieldsMap. split.
  - intros Hk. destruct (newFieldsMap_sound _ _ _ _ Hk) as [Hin | Hempty];
      [exact Hin |].
    rewrite lookup_empty in Hempty. discriminate.
  - intros [Hin <-]. apply newFieldsMap_lookup; assumption.
Qed.

Lemma propertiesChanged_false (a b : ResourceMapperField) :
  propertiesChanged a b = false <-> sameProperties a b.
Proof.
  unfold propertiesChanged, sameProperties.
  rewrite !orb_false_iff, !negb_false_iff, !bool_decide_eq_true,
    str_eqb_true, !Bool.eqb_true_iff.
  tauto.
Qed.

Lemma anyRemovedOrModified_false (m : gmap jsstring ResourceMapperField)
    (l : list ResourceMapperField) :
  anyRemovedOrModified m l = false <->
  forall o, In o l ->
    exists n, m !! rmf_id o = Some n /\ sameProperties o n.
Proof.
  induction l as [|x l IH]; simpl.
  - split; [intros _ o [] | reflexivity].
  - destruct (m !! rmf_id x) as [n|] eqn:Ex.
    + destruct (propertiesChanged x n) eqn:Ec.
      * split; [discriminate |]. intros Hall.
        destruct (Hall x (or_introl eq_refl)) as (n' & Hn' & Hsame).
        rewrite Ex in Hn'. injection Hn' as <-.
        apply propertiesChanged_false in Hsame.
        congruence.
      * rewrite IH. split.
        -- intros Hall o [<- | Ho]; [| apply Hall, Ho].
           exists n. split; [exact Ex | apply propertiesChanged_false, Ec].
        -- intros Hall o Ho. apply Hall. right. exact Ho.
    + split; [discriminate |]. intros Hall.
      destruct (Hall x (or_introl eq_refl)) as (n' & Hn' & _). congruence.
Qed.

Lemma not_stale_fields (oldFields newFields : list ResourceMapperField) :
  isResourceMapperFieldListStale oldFields newFields = false ->
  length oldFields = length newFields /\
  forall o, In o oldFields ->
    exists n, In n newFields /\ rmf_id n = rmf_id o /\ sameProperties o n.
Proof.
  unfold isResourceMapperFieldListStale.
  destruct (Nat.eqb (length oldFields) (length newFields)) eqn:Elen;
    simpl; [| discriminate].
  intros Hloop. split; [apply Nat.eqb_eq, Elen |].
  intros o Ho.
  destruct (proj1 (anyRemovedOrModified_false _ _) Hloop o Ho)
    as (n & Hn & Hsame).
  unfold newFieldsMap in Hn.
  destruct (newFieldsMap_sound _ _ _ _ Hn) as [[Hin Hid] | Hempty].
  - exists n. auto.
  - rewrite lookup_empty in Hempty. discriminate.
Qed.

(** When the check reports that the list is not stale, the two lists have
    the same length and every old field has a new field with its id and
    with equal display name, required, default-match, display,
    can-be-used-to-match and type properties. *)
Theorem isResourceMapperFieldListStale_false
    (oldFields newFields : list ResourceMapperField) :
  isResourceMapperFieldListStale oldFields newFields = false ->
  length oldFields = length newFields /\
  forall o, In o oldFields ->
    exists n, In n newFields /\ rmf_id n = rmf_id o /\ sameProperties o n.
Proof. apply not_stale_fields. Qed.

(** The order of the new fields does not matter when their ids are
    distinct. *)
Theorem isResourceMapperFieldListStale_permutation
    (oldFields newFields newFields' : list ResourceMapperField) :
  NoDup (map rmf_id newFields) ->
  Permutation newFields newFields' ->
  isResourceMapperFieldListStale oldFields newFields =
  isResourceMapperFieldListStale oldFields newFields'.
Proof.
  intros Hnd Hperm. unfold isResourceMapperFieldListStale.
  rewrite <- (Permutation_length Hperm).
  assert (Hnd' : NoDup (map rmf_id newFields')).
  { apply NoDup_ListNoDup.
    eapply Permutation_NoDup; [apply Permutation_map, Hperm |].
    apply NoDup_ListNoDup, Hnd. }
  assert (Hmap : newFieldsMap newFields = newFieldsMap newFields').
  { apply map_eq. intros k. apply option_eq. intros f.
    rewrite !newFieldsMap_spec by assumption.
    split; intros [Hin Hid]; (split; [| exact Hid]).
    - eapply Permutation_in; [exact Hperm | exact Hin].
    - eapply Permutation_in; [symmetry; exact Hperm | exact Hin]. }
  rewrite Hmap. reflexivity.
Qed.

(** Between two lists with distinct ids, not being stale is symmetric. *)
Theorem isResourceMapperFieldListStale_symmetric
    (oldFields newFields : list ResourceMapperField) :
  NoDup (map rmf_id oldFields) ->
  NoDup (map rmf_id newFields) ->
  isResourceMapperFieldListStale oldFields newFields = false ->
  isResourceMapperFieldListStale newFields oldFields = false.
Proof.
  intros Hold Hnew Hfresh.
  destruct (not_stale_fields _ _ Hfresh) as [Hlen Hall].
  assert (Hincl : incl (map rmf_id newFields) (map rmf_id oldFields)).
  { apply NoDup_length_incl.
    - apply NoDup_ListNoDup, Hold.
    - rewrite !length_map. lia.
    - intros k Hk. apply in_map_iff in Hk. destruct Hk as (o & <- & Ho).
      destruct (Hall o Ho) as (n & Hn & Hid & _).
      rewrite <- Hid. apply in_map, Hn. }
  unfold isResourceMapperFieldListStale.
  rewrite Hlen, Nat.eqb_refl. simpl.
  apply anyRemovedOrModified_false. intros n Hn.
  assert (Hk : In (rmf_id n) (map rmf_id oldFields)).
  { apply Hincl, in_map, Hn. }
  apply in_map_iff in Hk. destruct Hk as (o & Hid & Ho).
  exists o. split.
  - rewrite <- Hid. apply newFieldsMap_spec; auto.
  - destruct (Hall o Ho) as (n' & Hn' & Hid' & Hsame).
    assert (Heq : n' = n).
    { assert (H1 : newFieldsMap newFields !! rmf_id n = Some n)
        by (apply newFieldsMap_spec; auto).
      assert (H2 : newFieldsMap newFields !! rmf_id n = Some n').
      { apply newFieldsMap_spec; [exact Hnew |]. split; [exact Hn' |].
        congruence. }
      congruence. }
    subst n'. unfold sameProperties in *. intuition congruence.
Qed.

(** ** The further properties on the example data *)

Section MoreExamples.
#[local] Existing Instance Z_number.
#[local] Existing Instance n8n_constants.
#[local] Existing Instance example_stores.
#[local] Existing Instance n8n_badge_constants.
#[local] Existing Instance n8n_template_constants.
Import Example MoreExample.

(** A name without keywords keeps its two spaces. *)
Lemma getAppName_unchanged_witness :
  getAppNameFromCredType (lit "Google  Sheets") = lit "Google  Sheets".
Proof.
  apply (proj1 (getAppName_unchanged (lit "Google  Sheets"))).
  vm_compute. repeat constructor;
    intros Hin; repeat destruct Hin as [Hin | Hin]; try discriminate; exact Hin.
Defined.

(** Of a core node and an app node, only the app node is returned. *)
Lemma filterTemplateNodes_core_witness :
  In appNode (filterTemplateNodes [coreNode; appNode]) /\
  isCoreNode appNode = false.
Proof.
  assert (Hin : In appNode (filterTemplateNodes [coreNode; appNode])).
  { vm_compute. left. reflexivity. }
  split; [exact Hin |].
  assert (Hother : exists node,
            In node [coreNode; appNode] /\ isCoreNode node = false).
  { exists appNode. split; [right; left; reflexivity | reflexivity]. }
  exact (proj1 (filterTemplateNodes_core [coreNode; appNode]) Hother
           appNode Hin).
Defined.

Lemma filterTemplateNodes_sound_witness :
  In appNode (filterTemplateNodes [coreNode; appNode]) /\
  ~ In (template_name appNode) TEMPLATES_NODES_FILTER.
Proof.
  assert (Hin : In appNode (filterTemplateNodes [coreNode; appNode])).
  { vm_compute. left. reflexivity. }
  split; [exact Hin |].
  apply (proj2 (filterTemplateNodes_sound [coreNode; appNode]) appNode Hin).
Defined.

Lemma getMainAuthField_is_auth_field_witness :
  In authentication (getNodeAuthFields (Some slack) None) /\
  In authentication (nt_properties slack) /\
  isCredentialDependency slack (prop_name authentication).
Proof.
  apply (getMainAuthField_is_auth_field 1 slack authentication).
  reflexivity.
Defined.

Lemma getMainAuthField_prefers_authentication_witness :
  getMainAuthField 1 (Some slack) = Returns (Some authentication).
Proof.
  apply (getMainAuthField_prefers_authentication 0 slack authentication [] []).
  - reflexivity.
  - reflexivity.
  - intros g [].
Defined.

Lemma no_credential_dependencies_witness :
  getNodeAuthFields (Some webhook) None = [] /\
  getMainAuthField 1 (Some webhook) = Returns None.
Proof.
  apply (no_credential_dependencies 1 webhook None).
  intros credentials cred Hcreds Hcred. simpl in Hcreds.
  injection Hcreds as <-. destruct Hcred as [<- | []]. reflexivity.
Defined.

Lemma selected_credential_is_required_witness :
  isRequiredCredential 1 (Some slack) slackOAuth2Api = Returns true.
Proof.
  apply (selected_credential_is_required 0 slack (lit "oAuth2") authentication
           slackOAuth2Api); reflexivity.
Defined.

Lemma getNodeAuthFields_complete_witness :
  In (prop_ref authentication)
     (map prop_ref (getNodeAuthFields (Some slack) (Some 2%Z))).
Proof.
  apply (getNodeAuthFields_complete slack (Some 2%Z) authentication).
  - left. reflexivity.
  - exists [slackApi; slackOAuth2Api], slackApi, [(lit "authentication",
                                                   Some [VString (lit "accessToken")])].
    split; [reflexivity |]. split; [left; reflexivity |].
    split; [reflexivity | left; reflexivity].
  - reflexivity.
Defined.

Lemma getNodeAuthFields_version_narrows_witness :
  In (prop_ref authentication)
     (map prop_ref (getNodeAuthFields (Some slack) None)).
Proof.
  apply (getNodeAuthFields_version_narrows slack (Some 2%Z) authentication).
  vm_compute. left. reflexivity.
Defined.

Lemma getNodeAuthFields_falsy_version_witness :
  getNodeAuthFields (Some slack) (Some 0%Z) = getNodeAuthFields (Some slack) None.
Proof.
  apply (getNodeAuthFields_falsy_version (Some slack) 0%Z). reflexivity.
Defined.

Lemma auth_fields_are_related_fields_witness :
  exists credentials cred,
    nt_credentials slack = Some credentials /\
    In cred credentials /\
    In authentication (getCredentialsRelatedFields (Some slack) (Some cred)).
Proof.
  apply (auth_fields_are_related_fields slack None authentication).
  vm_compute. left. reflexivity.
Defined.

Lemma findAlternativeAuthField_values_used_witness :
  In authType [authType] /\
  exists credentials cred sh values v,
    nt_credentials keyed = Some credentials /\
    In cred credentials /\
    show_of (cred_displayOptions cred) = Some sh /\
    dict_get sh (prop_name authType) = Some values /\
    In v values /\
    lit "key" = (if truthy v then ToString v else []).
Proof.
  destruct (findAlternativeAuthField_values_used keyed [authType] authType)
    as [Hin Hall].
  - reflexivity.
  - split; [exact Hin |].
    apply (Hall keyOption (lit "key")); [left; reflexivity | reflexivity].
Defined.

Lemma getNodeAuthOptions_without_main_field_witness :
  getNodeAuthOptions 1 (Some webhook) None plainWorld = (Returns [], plainWorld).
Proof.
  apply (getNodeAuthOptions_without_main_field 1 webhook None plainWorld).
  reflexivity.
Defined.

Lemma getNodeAuthOptions_sources_witness :
  exists mainField field option,
    getMainAuthField 1 (Some slack) = Returns (Some mainField) /\
    In field (getNodeAuthFields (Some slack) None) /\
    prop_name field = prop_name mainField /\
    In option (default [] (prop_options field)) /\
    optionOf plainWorld field option oAuth2Auth.
Proof.
  apply (getNodeAuthOptions_sources 1 slack None plainWorld plainWorld
           [accessTokenAuth; oAuth2Auth] oAuth2Auth).
  - vm_compute. reflexivity.
  - right. left. reflexivity.
Defined.

Lemma getAuthTypeForNodeCredential_sound_witness :
  exists authField options,
    getMainAuthField 1 (Some slack) = Returns authField /\
    fst (getNodeAuthOptions 1 (Some slack) None plainWorld) = Returns options /\
    In oAuth2Auth options /\
    showsAuthType (match authField with
                   | Some f => prop_name f
                   | None => []
                   end) (nao_value oAuth2Auth) slackOAuth2Api.
Proof.
  apply (getAuthTypeForNodeCredential_sound 1 slack slackOAuth2Api plainWorld
           plainWorld oAuth2Auth).
  vm_compute. reflexivity.
Defined.

Lemma updateNodeAuthType_update_witness :
  exists updateInformation,
    updateNodeAuthType 1 (Some slackNode) (lit "oAuth2") plainWorld =
    (Returns tt,
     {| locale := locale plainWorld;
        credentialsStore := credentialsStore plainWorld;
        nodeTypesStore := nodeTypesStore plainWorld;
        workflowsStore :=
          updateNodeProperties (workflowsStore plainWorld) updateInformation |}) /\
    update_name updateInformation = node_name slackNode /\
    update_parameters updateInformation !! prop_name authentication =
      Some (VString (lit "oAuth2")) /\
    forall k,
      k <> prop_name authentication ->
      update_parameters updateInformation !! k = node_parameters slackNode !! k.
Proof.
  apply (updateNodeAuthType_update 1 slackNode (lit "oAuth2") plainWorld slack
           authentication).
  - vm_compute. reflexivity.
  - reflexivity.
Defined.

Lemma isMatchingField_spec_witness :
  isMatchingField (lit "columns." ++ opening ++ lit "email" ++ closing)
    (Some [lit "email"]) false = false /\
  (exists before name rest,
     lit "columns." ++ opening ++ lit "email" ++ closing =
       before ++ opening ++ name ++ closing ++ rest /\
     name <> [] /\
     forallb dot name = true /\
     parseResourceMapperFieldName
       (lit "columns." ++ opening ++ lit "email" ++ closing) = Some name /\
     isMatchingField (lit "columns." ++ opening ++ lit "email" ++ closing)
       (Some [lit "email"]) true =
     true && includes_str name (default [] (Some [lit "email"]))) /\
  isMatchingField (opening ++ lit "email" ++ closing)
    (Some [lit "email"]) true = true /\
  isMatchingField (lit "email") None true = false.
Proof.
  split; [| split; [| split]].
  - apply (proj1 (isMatchingField_spec (Some [lit "email"]) true)).
  - apply (proj1 (proj2 (isMatchingField_spec (Some [lit "email"]) true))).
    exists (lit "columns."), (lit "email"), [].
    split; [reflexivity |]. split; [discriminate | reflexivity].
  - rewrite (proj1 (proj2 (proj2 (isMatchingField_spec (Some [lit "email"])
                                    true))) (lit "email"));
      [reflexivity | discriminate | reflexivity].
  - rewrite (proj2 (proj2 (proj2 (isMatchingField_spec None true)))
               (lit "email")); [reflexivity |].
    intros (before & name & rest & Heq & _).
    apply (f_equal (@length N)) in Heq.
    rewrite !length_app in Heq. simpl in Heq. lia.
Defined.

Lemma isResourceMapperFieldListStale_false_witness :
  length [emailField; nameField] = length [nameField; emailField] /\
  forall o, In o [emailField; nameField] ->
    exists n,
      In n [nameField; emailField] /\ rmf_id n = rmf_id o /\ sameProperties o n.
Proof.
  apply (isResourceMapperFieldListStale_false [emailField; nameField]
           [nameField; emailField]).
  vm_compute. reflexivity.
Defined.

Lemma isResourceMapperFieldListStale_permutation_witness :
  isResourceMapperFieldListStale [emailField; nameField]
    [emailField; nameField] =
  isResourceMapperFieldListStale [emailField; nameField]
    [nameField; emailField].
Proof.
  apply (isResourceMapperFieldListStale_permutation [emailField; nameField]
           [emailField; nameField] [nameField; emailField]).
  - apply NoDup_ListNoDup. simpl. constructor.
    + simpl. intros [Heq | []]. discriminate.
    + constructor; [intros [] | constructor].
  - apply perm_swap.
Defined.

(** Both sides pass the length test and look every old field up in the
    map of the new fields. *)
Example isResourceMapperFieldListStale_swapped :
  isResourceMapperFieldListStale [emailField; nameField]
    [nameField; emailField] = false /\
  newFieldsMap [nameField; emailField] !! lit "email" = Some emailField.
Proof. split; vm_compute; reflexivity. Qed.

(** A parameter named as an inherited member is auth related to every auth
    field that has display options. *)
Example isAuthRelatedParameter_constructor :
  isAuthRelatedParameter
    [{| prop_ref := 4; prop_name := lit "resource";
        prop_displayOptions :=
          Some {| show := Some [(lit "authentication",
                                 Some [VString (lit "oAuth2")])] |};
        prop_options := None; prop_required := None;
        prop_noDataExpression := None; prop_modes := None |}]
    {| prop_ref := 5; prop_name := lit "constructor";
       prop_displayOptions := None; prop_options := None;
       prop_required := None; prop_noDataExpression := None;
       prop_modes := None |} = true.
Proof. reflexivity. Qed.

(** The pattern for names of community packages. *)
Example isCommunityPackageName_examples :
  isCommunityPackageName (lit "n8n-nodes-slack") = true /\
  isCommunityPackageName (lit "@acme/n8n-nodes-slack") = true /\
  isCommunityPackageName (lit "@n8n/n8n-nodes-langchain") = false /\
  isCommunityPackageName (lit "n8n-nodes-base") = false /\
  isCommunityPackageName (lit "n8n-nodes-base.slack") = false /\
  isCommunityPackageName (lit "n8n-nodes-baserow") = true /\
  isCommunityPackageName (lit "my-n8n-nodes-slack") = false.
Proof. repeat split. Qed.

Lemma isResourceMapperFieldListStale_symmetric_witness :
  isResourceMapperFieldListStale [nameField; emailField]
    [emailField; nameField] = false.
Proof.
  apply (isResourceMapperFieldListStale_symmetric [emailField; nameField]
           [nameField; emailField]).
  - apply NoDup_ListNoDup. simpl. constructor.
    + simpl. intros [Heq | []]. discriminate.
    + constructor; [intros [] | constructor].
  - apply NoDup_ListNoDup. simpl. constructor.
    + simpl. intros [Heq | []]. discriminate.
    + constructor; [intros [] | constructor].
  - vm_compute. reflexivity.
Defined.

(** The service name of a trigger node, whatever the letter case of the
    word. *)
Example getTriggerNodeServiceName_slack :
  getTriggerNodeServiceName (lit "Slack Trigger") = lit "Slack" /\
  getTriggerNodeServiceName (lit "Slack TRIGGER node") = lit "Slack node" /\
  getTriggerNodeServiceName (lit "Trigger") = lit "Trigger".
Proof. repeat split. Qed.

(** The keywords are dropped as whole words only. *)
Example getAppNameFromCredType_slack :
  getAppNameFromCredType (lit "Slack OAuth2 API") = lit "Slack" /\
  getAppNameFromCredType (lit "OpenAPI") = lit "OpenAPI".
Proof. repeat split. Qed.
End MoreExamples.
